(** * Token-aware text alignment (aalchem.data.strings, aalchem.data.alignment)

    A shallow embedding of the tokenizer, the token container [Text] and the
    Needleman-Wunsch aligner of the repository, with the properties of the
    specification stated and settled against it.

    Conventions of the embedding.
    - A Python [str] is a Rocq [string]; every [ascii] stands for one code
      point in the range 0..255, and the character classes ([isspace],
      [isdigit], the punctuation set, the word pattern) are written out for
      that range.
    - The scorer is modelled twice.  Module [Binary64] has it on Python's
      numbers, ints and IEEE 754 binary64 floats with CPython's rounding,
      conversions and comparisons: what the program computes, cell for cell.
      The definitions outside that module compute the same formulas in exact
      rationals [Q] ([==] is [Qeq_bool] and [>] the negation of [Qle_bool]):
      the arithmetic in which the specification states its scores.  The two
      return the same traceback matrix unless rounding decides a comparison
      (lemma [rounding_decides_tie]); [align_sentences] is modelled on the
      exact scorer.
    - Token objects live in a store ([heap]); a [Text] holds references, so
      that two sequences holding the same object see each other's writes.
    - Code that can raise returns a [result]; code that also reads or writes
      token objects runs in the monad [M]. *)

From Stdlib Require Import Ascii QArith Lqa.
From Stdlib Require String.
From Stdlib Require Floats.
From stdpp Require Import base list strings.

Set Warnings "-register-all".

(** ** Exceptions and the two monads *)

Inductive exn :=
  | IndexError
  | ZeroDivisionError
  | ValueError
  | KeyError
  | TypeError        (* arithmetic on a None field *)
  | OverflowError    (* an int too large for a float *)
  | Dangling         (* a reference outside the store: impossible in Python *)
  | OutOfFuel.       (* the bound of a modelled [while] was hit *)

Inductive result (A : Type) :=
  | Ok (a : A)
  | Raise (e : exn).
Arguments Ok {A} a.
Arguments Raise {A} e.

Global Instance result_ret : MRet result := λ A a, Ok a.
Global Instance result_bind : MBind result := λ A B f x,
  match x with
  | Ok a => f a
  | Raise e => Raise e
  end.

Definition of_option {A} (e : exn) (o : option A) : result A :=
  match o with
  | Some a => Ok a
  | None => Raise e
  end.

(** ** Python strings *)

Module PyStr.

Definition chars (s : string) : list ascii := String.list_ascii_of_string s.
Definition of_chars (l : list ascii) : string := String.string_of_list_ascii l.

Definition len (s : string) : nat := String.length s.

(** [c.isspace()] for a code point below 256. *)
Definition isspace_char (c : ascii) : bool :=
  let n := nat_of_ascii c in
  (((9 <=? n) && (n <=? 13)) || ((28 <=? n) && (n <=? 32))
   || (n =? 133) || (n =? 160))%nat.

(** [c.isdigit()] for a code point below 256: the ASCII digits and the
    superscripts one, two and three. *)
Definition isdigit_char (c : ascii) : bool :=
  let n := nat_of_ascii c in
  (((48 <=? n) && (n <=? 57)) || (n =? 178) || (n =? 179) || (n =? 185))%nat.

(** [s.isdigit()]: at least one character, and all of them digits. *)
Definition isdigit (s : string) : bool :=
  match chars s with
  | [] => false
  | l => forallb isdigit_char l
  end.

(** [s[i]] for [0 <= i]. *)
Definition get (s : string) (i : nat) : option ascii := String.get i s.

(** [s.startswith(sub)]. *)
Fixpoint starts_with (sub s : list ascii) : bool :=
  match sub, s with
  | [], _ => true
  | _ :: _, [] => false
  | a :: sub', b :: s' => if Ascii.eqb a b then starts_with sub' s' else false
  end.

(** The lowest offset at which [sub] occurs in [s], if any. *)
Fixpoint find_from (sub s : list ascii) : option nat :=
  if starts_with sub s then Some 0
  else match s with
       | [] => None
       | _ :: s' => S <$> find_from sub s'
       end.

(** [s.find(sub, start)] for [0 <= start]: [None] stands for [-1]. *)
Definition find (s sub : string) (start : nat) : option nat :=
  if (String.length s <? start)%nat then None
  else (λ k, (start + k)%nat) <$> find_from (chars sub) (drop start (chars s)).

(** [s[a:b]] with Python's treatment of negative and oversized bounds. *)
Definition clamp (n : nat) (i : Z) : nat :=
  if (i <? 0)%Z then Z.to_nat (Z.max 0 (i + Z.of_nat n)) else Nat.min n (Z.to_nat i).

Definition slice (s : string) (a b : Z) : string :=
  let n := String.length s in
  let lo := clamp n a in
  let hi := clamp n b in
  String.substring lo (hi - lo)%nat s.

(** ["".join(parts)]. *)
Definition join (parts : list string) : string :=
  foldr String.append "" parts.

(** [c in s] for a one-character string [c]. *)
Definition contains_char (c : ascii) (s : string) : bool :=
  existsb (Ascii.eqb c) (chars s).

End PyStr.

(** ** Tokens *)

(** The class of a token object: the base class [Token] and its six direct
    subclasses. *)
Inductive kind :=
  | KToken
  | KWhitespace
  | KSpacer
  | KPunctuation
  | KWord
  | KSpecial
  | KNumeric.

Global Instance kind_eq_dec : EqDecision kind.
Proof. solve_decision. Defined.

(** [issubclass(k, c)]: every class derives from [Token] and from itself, and
    from nothing else. *)
Definition subclass (k c : kind) : bool :=
  match c with
  | KToken => true
  | _ => bool_decide (k = c)
  end.

(** The attributes of a token object.  [original], when present, is held as
    the value of the object it points to: the aligner only reads its class and
    its text, and nothing changes those. *)
Inductive Token := mkToken {
  cls : kind;
  text : string;
  index : option Z;
  start : option Z;
  aligned : bool;
  alignment_spaces : Z;
  color : option string;
  bg : option string;
  original : option Token;
  operation : option string;
}.

(** [Token.__init__] with its keyword defaults. *)
Definition new_token (k : kind) (t : string) : Token :=
  {| cls := k; text := t; index := None; start := None; aligned := false;
     alignment_spaces := 0; color := Some ""; bg := None; original := None;
     operation := None |}.

(** [isinstance(tok, c)]. *)
Definition isinstance (tok : Token) (c : kind) : bool := subclass (cls tok) c.

(** [len(tok)], through the property [length]. *)
Definition token_len (tok : Token) : nat := PyStr.len (text tok).

Definition set_index_start (i s : Z) (tok : Token) : Token :=
  {| cls := cls tok; text := text tok; index := Some i; start := Some s;
     aligned := aligned tok; alignment_spaces := alignment_spaces tok;
     color := color tok; bg := bg tok; original := original tok;
     operation := operation tok |}.

Definition set_aligned (b : bool) (tok : Token) : Token :=
  {| cls := cls tok; text := text tok; index := index tok; start := start tok;
     aligned := b; alignment_spaces := alignment_spaces tok;
     color := color tok; bg := bg tok; original := original tok;
     operation := operation tok |}.

Definition set_alignment_spaces (n : Z) (tok : Token) : Token :=
  {| cls := cls tok; text := text tok; index := index tok; start := start tok;
     aligned := aligned tok; alignment_spaces := n;
     color := color tok; bg := bg tok; original := original tok;
     operation := operation tok |}.

Definition set_color_field (c : option string) (tok : Token) : Token :=
  {| cls := cls tok; text := text tok; index := index tok; start := start tok;
     aligned := aligned tok; alignment_spaces := alignment_spaces tok;
     color := c; bg := bg tok; original := original tok;
     operation := operation tok |}.

(** [Token.clear_alignment]. *)
Definition token_clear_alignment (tok : Token) : Token :=
  set_color_field None (set_alignment_spaces 0 (set_aligned false tok)).

(** colorama's [Fore] codes: ESC [ 3x m. *)
Definition esc (code : string) : string :=
  String (ascii_of_nat 27) ("[" +:+ code +:+ "m").

Definition COLOR_MAPPING (key : string) : option string :=
  if String.eqb key "b" then Some (esc "34")
  else if String.eqb key "r" then Some (esc "31")
  else if String.eqb key "g" then Some (esc "32")
  else if String.eqb key "p" then Some (esc "35")
  else if String.eqb key "y" then Some (esc "33")
  else if String.eqb key "c" then Some (esc "36")
  else if String.eqb key "w" then Some (esc "37")
  else if String.eqb key "k" then Some (esc "30")
  else None.

(** The members of [PUNCTUATION_MARKS] that consist of code points below
    256; the dashes, the ellipsis and the typographic quotes of the source lie
    outside the modelled range. *)
Definition PUNCTUATION_MARKS : list string :=
  ["."; ","; "!"; "?"; ":"; ";"; "("; ")"; "["; "]"; "{"; "}";
   String (ascii_of_nat 34) ""; "'"; "-"; "''"].

(** The character class of [WORD_PATTERN] below 256: letters, digits and the
    range from the apostrophe to the full stop. *)
Definition word_char (c : ascii) : bool :=
  let n := nat_of_ascii c in
  (((65 <=? n) && (n <=? 90)) || ((97 <=? n) && (n <=? 122))
   || ((48 <=? n) && (n <=? 57)) || ((39 <=? n) && (n <=? 46)))%nat.

(** [WORD_PATTERN.match(s)]: one or more class characters up to the end of
    the string, where the end may also be taken before a final newline. *)
Definition word_pattern_match (s : string) : bool :=
  let l := PyStr.chars s in
  let body := match reverse l with
              | c :: r => if Ascii.eqb c (ascii_of_nat 10) then reverse r else l
              | [] => l
              end in
  match body with
  | [] => false
  | _ => forallb word_char body
  end.

Definition NL : string := String (ascii_of_nat 10) "".
Definition TAB : string := String (ascii_of_nat 9) "".

(** [create_token]: the class chosen for a piece of text. *)
Definition token_class (t : string) : kind :=
  if String.eqb t " " then KWhitespace
  else if bool_decide (t ∈ PUNCTUATION_MARKS) then KPunctuation
  else if PyStr.isdigit t then KNumeric
  else if word_pattern_match t then KWord
  else if String.eqb t "" then KSpacer
  else if bool_decide (t ∈ [NL; TAB]) then KSpecial
  else KToken.

Definition create_token (t : string) : Token := new_token (token_class t) t.

(** ** The store of token objects *)

Abbreviation ref := nat (only parsing).
Abbreviation heap := (list Token) (only parsing).

(** A computation that reads and writes token objects and may raise. *)
Definition M (A : Type) : Type := heap → result (A * heap).

Global Instance M_ret : MRet M := λ A a h, Ok (a, h).
Global Instance M_bind : MBind M := λ A B f m h,
  match m h with
  | Ok (a, h') => f a h'
  | Raise e => Raise e
  end.

Definition raise {A} (e : exn) : M A := λ _, Raise e.

Definition lift {A} (x : result A) : M A := λ h,
  match x with
  | Ok a => Ok (a, h)
  | Raise e => Raise e
  end.

(** Reading the object behind a reference. *)
Definition load (r : ref) : M Token := λ h,
  match h !! r with
  | Some t => Ok (t, h)
  | None => Raise Dangling
  end.

(** Assigning attributes of the object behind a reference. *)
Definition update (r : ref) (f : Token → Token) : M unit := λ h,
  match h !! r with
  | Some t => Ok (tt, <[r := f t]> h)
  | None => Raise Dangling
  end.

(** Creating a new object. *)
Definition alloc (t : Token) : M ref := λ h, Ok (length h, h ++ [t]).

(** [Token.set_color]: a key outside the table raises [KeyError]. *)
Definition set_color (r : ref) (key : string) : M unit :=
  c ← lift (of_option KeyError (COLOR_MAPPING key));
  update r (set_color_field (Some c)).

(** ** The token container *)

Record Text := mkText { tokens : list ref; _text : option string }.

(** [Text.to_string]. *)
Fixpoint texts_of (rs : list ref) : M (list string) :=
  match rs with
  | [] => mret []
  | r :: rest =>
      t ← load r;
      ts ← texts_of rest;
      mret (text t :: ts)
  end.

Definition to_string (t : Text) : M string :=
  ts ← texts_of (tokens t);
  mret (PyStr.join ts).

(** The classes before which [recalculate_indices] leaves no space. *)
Definition no_space_needed (next_token : Token) : bool :=
  isinstance next_token KPunctuation
  || isinstance next_token KWhitespace
  || isinstance next_token KSpacer.

(** The body of the loop of [Text.recalculate_indices], from position [i]
    with running offset [start], over the rest of the token list. *)
Fixpoint recalculate_loop (toks : list ref) (i : nat) (start : nat) : M unit :=
  match toks with
  | [] => mret tt
  | r :: rest =>
      update r (set_index_start (Z.of_nat i) (Z.of_nat start));;
      offset ← match rest with
               | [] => mret 0
               | r' :: _ =>
                   next_token ← load r';
                   mret (if no_space_needed next_token then 0 else 1)
               end;
      token ← load r;
      recalculate_loop rest (S i) (start + token_len token + offset)
  end.

(** [Text.recalculate_indices]; the container is returned with its cache
    refreshed. *)
Definition recalculate_indices (t : Text) : M Text :=
  recalculate_loop (tokens t) 0 0;;
  s ← to_string t;
  mret {| tokens := tokens t; _text := Some s |}.

(** [Text()]. *)
Definition Text_new : M Text :=
  recalculate_indices {| tokens := []; _text := None |}.

(** [list.insert(index, x)] for [0 <= index]. *)
Definition list_insert_at {A} (index : nat) (x : A) (l : list A) : list A :=
  take index l ++ x :: drop index l.

(** [Text.insert(index, token)]. *)
Definition text_insert (t : Text) (index : nat) (token : ref) : M Text :=
  recalculate_indices
    {| tokens := list_insert_at index token (tokens t); _text := _text t |}.

(** [Text.clear_alignment]. *)
Fixpoint text_clear_alignment (toks : list ref) : M unit :=
  match toks with
  | [] => mret tt
  | r :: rest => update r token_clear_alignment;; text_clear_alignment rest
  end.

(** ** Matrices as lists of rows *)

Abbreviation matrix A := (list (list A)) (only parsing).

Definition mget {A} (m : matrix A) (i j : nat) : result A :=
  row ← of_option IndexError (m !! i);
  of_option IndexError (row !! j).

Definition mset {A} (m : matrix A) (i j : nat) (v : A) : result (matrix A) :=
  row ← of_option IndexError (m !! i);
  if decide (j < length row) then Ok (<[i := <[j := v]> row]> m)
  else Raise IndexError.

(** [for x in xs: s = body(x, s)]. *)
Fixpoint for_each {S X} (xs : list X) (body : X → S → result S) (s : S)
  : result S :=
  match xs with
  | [] => Ok s
  | x :: xs' => s' ← body x s; for_each xs' body s'
  end.

(** [range(lo, hi)]. *)
Definition range (lo hi : nat) : list nat := seq lo (hi - lo).

(** ** longest_common_substring *)

Definition dp_get (dp : matrix nat) (i j : nat) : nat :=
  default 0 (dp !! i ≫= (.!! j)).

Definition dp_set (dp : matrix nat) (i j v : nat) : matrix nat :=
  match dp !! i with
  | Some row => <[i := <[j := v]> row]> dp
  | None => dp
  end.

(** One pass of the inner loop body at [(i, j)]; the state is the table, the
    best length so far and the row where it ends. *)
Definition lcs_cell (s1 s2 : string) (i j : nat)
    (st : matrix nat * nat * nat) : matrix nat * nat * nat :=
  let '(dp, length, row) := st in
  if bool_decide (PyStr.get s1 (i - 1) = PyStr.get s2 (j - 1)) then
    let v := dp_get dp (i - 1) (j - 1) + 1 in
    let dp := dp_set dp i j v in
    if (length <? v)%nat then (dp, v, i) else (dp, length, row)
  else (dp_set dp i j 0, length, row).

Definition lcs_table (s1 s2 : string) : matrix nat * nat * nat :=
  let n := PyStr.len s1 in
  let m := PyStr.len s2 in
  let dp := replicate (S n) (replicate (S m) 0) in
  foldl (λ st i, foldl (λ st j, lcs_cell s1 s2 i j st) st (range 1 (m + 1)))
        (dp, 0, 0) (range 1 (n + 1)).

Definition longest_common_substring (s1 s2 : string) : string :=
  let '(_, length, row) := lcs_table s1 s2 in
  if (length =? 0)%nat then ""
  else PyStr.slice s1 (Z.of_nat row - Z.of_nat length) (Z.of_nat row).

(** ** The scorer: needleman_wunsch_alignment_words_substring *)

(** The keyword arguments of the scorer. *)
Record scoring := mkScoring {
  match_score : Q;
  mismatch_score : Q;
  gap_score : Q;
  substring_match_score : Q;
  type_match_score : Q;
  original_match_score : Q;
}.

(** Their default values. *)
Definition default_scoring : scoring :=
  {| match_score := 1; mismatch_score := -1; gap_score := -1;
     substring_match_score := 3 # 2; type_match_score := 1 # 2;
     original_match_score := 1 # 2 |}.

Definition Qnat (n : nat) : Q := inject_Z (Z.of_nat n).

(** [a / b] on two lengths. *)
Definition py_div (a b : nat) : result Q :=
  if (b =? 0)%nat then Raise ZeroDivisionError else Ok (Qnat a / Qnat b)%Q.

(** [a > b] and [a == b] on numbers. *)
Definition Qgtb (a b : Q) : bool := negb (Qle_bool a b).

(** [max(a, b, c)]: the first of the largest. *)
Definition py_max3 (a b c : Q) : Q :=
  let m := if Qgtb b a then b else a in
  if Qgtb c m then c else m.

(** What the mismatch branch compares [token2] with: the original of
    [token1] when there is one, else [token1]; together with the bonus
    [original_match]. *)
Definition comparison_source (p : scoring) (token1 token2 : Token)
  : Token * Q :=
  match original token1 with
  | Some to_match1 =>
      let original_match :=
        if String.eqb (text to_match1) (text token2)
        then original_match_score p else 0%Q in
      let original_match :=
        if isinstance to_match1 (cls token2)
        then (original_match + type_match_score p)%Q else original_match in
      (to_match1, original_match)
  | None => (token1, 0%Q)
  end.

(** [mismatch_score_adjusted] of the mismatch branch. *)
Definition mismatch_score_adjusted (p : scoring) (token1 token2 : Token)
  : result Q :=
  let '(to_match1, _) := comparison_source p token1 token2 in
  let lcs := longest_common_substring (text to_match1) (text token2) in
  let max_len := Nat.max (PyStr.len (text to_match1)) (PyStr.len (text token2)) in
  ratio ← py_div (PyStr.len lcs) max_len;
  let adjusted := (mismatch_score p + ratio * substring_match_score p)%Q in
  mret (if isinstance token1 (cls token2) && (1 <? max_len)%nat
        then (adjusted + type_match_score p)%Q else adjusted).

(** The value of [match] for a cell whose diagonal neighbour holds [prev]. *)
Definition match_candidate (p : scoring) (prev : Q) (token1 token2 : Token)
  : result Q :=
  if String.eqb (text token1) (text token2) then Ok (prev + match_score p)%Q
  else
    adjusted ← mismatch_score_adjusted p token1 token2;
    mret (prev + adjusted + (comparison_source p token1 token2).2)%Q.

(** The tags appended to a traceback cell. *)
Definition tags_of (max_score match_ delete insert : Q) : string :=
  (if Qeq_bool max_score match_ then "D" else "")
  +:+ (if Qeq_bool max_score delete then "U" else "")
  +:+ (if Qeq_bool max_score insert then "L" else "").

Abbreviation matrices := (matrix Q * matrix string)%type (only parsing).

(** The first row and the first column. *)
Definition init_column (p : scoring) (i : nat) (st : matrices) : result matrices :=
  let '(score_matrix, traceback_matrix) := st in
  score_matrix ← mset score_matrix i 0 (gap_score p * Qnat i)%Q;
  traceback_matrix ← (if (0 <? i)%nat then mset traceback_matrix i 0 "U"
                      else Ok traceback_matrix);
  mret (score_matrix, traceback_matrix).

Definition init_row (p : scoring) (j : nat) (st : matrices) : result matrices :=
  let '(score_matrix, traceback_matrix) := st in
  score_matrix ← mset score_matrix 0 j (gap_score p * Qnat j)%Q;
  traceback_matrix ← (if (0 <? j)%nat then mset traceback_matrix 0 j "L"
                      else Ok traceback_matrix);
  mret (score_matrix, traceback_matrix).

(** The body of the double loop at cell [(i, j)]. *)
Definition fill_cell (p : scoring) (s1_tokens s2_tokens : list Token)
    (i j : nat) (st : matrices) : result matrices :=
  let '(score_matrix, traceback_matrix) := st in
  token1 ← of_option IndexError (s1_tokens !! (i - 1));
  token2 ← of_option IndexError (s2_tokens !! (j - 1));
  prev ← mget score_matrix (i - 1) (j - 1);
  match_ ← match_candidate p prev token1 token2;
  up ← mget score_matrix (i - 1) j;
  let delete := (up + gap_score p)%Q in
  left ← mget score_matrix i (j - 1);
  let insert := (left + gap_score p)%Q in
  let max_score := py_max3 match_ delete insert in
  score_matrix ← mset score_matrix i j max_score;
  old ← mget traceback_matrix i j;
  traceback_matrix ←
    mset traceback_matrix i j (old +:+ tags_of max_score match_ delete insert);
  mret (score_matrix, traceback_matrix).

(** The scorer on the token objects as they are once their annotations have
    been cleared. *)
Definition fill_matrices (p : scoring) (s1_tokens s2_tokens : list Token)
  : result matrices :=
  let n := length s1_tokens in
  let m := length s2_tokens in
  let score_matrix := replicate (n + 1) (replicate (m + 1) 0%Q) in
  let traceback_matrix := replicate (n + 1) (replicate (m + 1) "") in
  st ← for_each (range 0 (n + 1)) (init_column p)
         (score_matrix, traceback_matrix);
  st ← for_each (range 0 (m + 1)) (init_row p) st;
  for_each (range 1 (n + 1))
    (λ i st, for_each (range 1 (m + 1)) (fill_cell p s1_tokens s2_tokens i) st)
    st.

(** Reading the objects of a token list. *)
Fixpoint load_all (rs : list ref) : M (list Token) :=
  match rs with
  | [] => mret []
  | r :: rest =>
      t ← load r;
      ts ← load_all rest;
      mret (t :: ts)
  end.

Definition needleman_wunsch_alignment_words_substring
    (text1 text2 : Text) (p : scoring) : M matrices :=
  text_clear_alignment (tokens text1);;
  text_clear_alignment (tokens text2);;
  s1_tokens ← load_all (tokens text1);
  s2_tokens ← load_all (tokens text2);
  lift (fill_matrices p s1_tokens s2_tokens).

(** ** The reconstructor: get_alignment_and_visualization_words *)

(** The branch taken by one pass of the traceback loop. *)
Inductive move := Diagonal | Up | Left.

Global Instance move_eq_dec : EqDecision move.
Proof. solve_decision. Defined.

Definition has_tag (c : string) (trace : string) : bool :=
  match c with
  | String a _ => PyStr.contains_char a trace
  | EmptyString => true
  end.

(** [Spacer(text='', aligned=True, alignment_spaces=n)]. *)
Definition new_spacer (n : nat) : Token :=
  set_alignment_spaces (Z.of_nat n) (set_aligned true (new_token KSpacer "")).

(** The placeholder put opposite [consumed]: the object [other] itself when it
    is already a [Spacer], a new one otherwise. *)
Definition gap_placeholder (other consumed : ref) : M ref :=
  other_token ← load other;
  consumed_token ← load consumed;
  if isinstance other_token KSpacer then
    update other (set_alignment_spaces (Z.of_nat (token_len consumed_token)));;
    mret other
  else alloc (new_spacer (token_len consumed_token)).

(** The [while] loop.  Its condition [i >= 0 or j >= 0] always holds, so the
    loop ends only through [break]; [fuel] bounds the number of passes and
    [path] records the branches taken, latest first. *)
Fixpoint traceback_loop (fuel : nat) (text1 text2 : Text)
    (traceback_matrix : matrix string) (i j : nat)
    (aligned_text1 aligned_text2 : Text) (path : list move)
  : M (Text * Text * list move) :=
  match fuel with
  | O => raise OutOfFuel
  | S fuel =>
      trace ← lift (mget traceback_matrix i j);
      token1 ← lift (of_option IndexError
                       (tokens text1 !! (if (0 <? i)%nat then i - 1 else 0)));
      token2 ← lift (of_option IndexError
                       (tokens text2 !! (if (0 <? j)%nat then j - 1 else 0)));
      if has_tag "D" trace && (0 <? i)%nat && (0 <? j)%nat then
        aligned_text1 ← text_insert aligned_text1 0 token1;
        aligned_text2 ← text_insert aligned_text2 0 token2;
        traceback_loop fuel text1 text2 traceback_matrix (i - 1) (j - 1)
          aligned_text1 aligned_text2 (Diagonal :: path)
      else if has_tag "U" trace && (0 <? i)%nat then
        spacer ← gap_placeholder token2 token1;
        aligned_text1 ← text_insert aligned_text1 0 token1;
        aligned_text2 ← text_insert aligned_text2 0 spacer;
        traceback_loop fuel text1 text2 traceback_matrix (i - 1) j
          aligned_text1 aligned_text2 (Up :: path)
      else if has_tag "L" trace && (0 <? j)%nat then
        spacer ← gap_placeholder token1 token2;
        aligned_text1 ← text_insert aligned_text1 0 spacer;
        aligned_text2 ← text_insert aligned_text2 0 token2;
        traceback_loop fuel text1 text2 traceback_matrix i (j - 1)
          aligned_text1 aligned_text2 (Left :: path)
      else mret (aligned_text1, aligned_text2, path)
  end.

(** The body of the loop over [zip(aligned_text1.tokens, aligned_text2.tokens)]. *)
Definition annotate_pair (r1 r2 : ref) : M unit :=
  w1 ← load r1;
  w2 ← load r2;
  if negb (String.eqb (text w1) (text w2)) then
    let max_len := Nat.max (token_len w1) (token_len w2) in
    update r1 (set_alignment_spaces (Z.of_nat max_len - Z.of_nat (token_len w1)));;
    update r2 (set_alignment_spaces (Z.of_nat max_len - Z.of_nat (token_len w2)));;
    let color := if isinstance w1 KSpacer then "b"
                 else if isinstance w2 KSpacer then "p" else "r" in
    update r1 (set_aligned true);;
    update r2 (set_aligned true);;
    set_color r1 color;;
    set_color r2 color
  else mret tt.

Fixpoint annotate_pairs (ps : list (ref * ref)) : M unit :=
  match ps with
  | [] => mret tt
  | (r1, r2) :: rest => annotate_pair r1 r2;; annotate_pairs rest
  end.

(** [get_alignment_and_visualization_words], returning also the recorded
    path. *)
Definition get_alignment_and_visualization_words (text1 text2 : Text)
    (traceback_matrix : matrix string) : M (Text * Text * list move) :=
  let n := length (tokens text1) in
  let m := length (tokens text2) in
  aligned_text1 ← Text_new;
  aligned_text2 ← Text_new;
  '(aligned_text1, aligned_text2, path) ←
    traceback_loop (S (n + m)) text1 text2 traceback_matrix n m
      aligned_text1 aligned_text2 [];
  annotate_pairs (zip (tokens aligned_text1) (tokens aligned_text2));;
  mret (aligned_text1, aligned_text2, path).

(** What one call of [align_sentences] computes: the two aligned containers it
    returns, and the matrices and the path it passes through. *)
Record alignment := mkAlignment {
  s1_aligned : Text;
  s2_aligned : Text;
  score_matrix : matrix Q;
  traceback_matrix : matrix string;
  path : list move;
}.

(** [align_sentences] with [visualize=False]. *)
Definition align_sentences (text1 text2 : Text) : M alignment :=
  '(score_matrix, traceback_matrix) ←
    needleman_wunsch_alignment_words_substring text1 text2 default_scoring;
  '(s1_aligned, s2_aligned, path) ←
    get_alignment_and_visualization_words text1 text2 traceback_matrix;
  s1_aligned ← recalculate_indices s1_aligned;
  s2_aligned ← recalculate_indices s2_aligned;
  mret (mkAlignment s1_aligned s2_aligned score_matrix traceback_matrix path).

(** ** The tokenizer: whitespace_tokenize_from_nltk and Text(string) *)

(** The whitespace characters at the head of a text. *)
Fixpoint leading_spaces (l : list ascii) : list ascii :=
  match l with
  | c :: l' => if PyStr.isspace_char c then c :: leading_spaces l' else []
  | [] => []
  end.

Definition char_string (c : ascii) : string := String c "".

(** The loop of [whitespace_tokenize_from_nltk] over the units of the word
    tokenizer. *)
Fixpoint whitespace_loop (text : string) (nltk_tokens : list string)
    (current_index : nat) (result_tokens : list string) : result (list string) :=
  match nltk_tokens with
  | [] => Ok result_tokens
  | token :: rest =>
      match PyStr.find text token current_index with
      | None => Raise ValueError
      | Some start_token_index =>
          let result_tokens := result_tokens ++ [token] in
          let current_index := start_token_index + PyStr.len token in
          let spaces := leading_spaces (drop current_index (PyStr.chars text)) in
          whitespace_loop text rest (current_index + length spaces)
            (result_tokens ++ (char_string <$> spaces))
      end
  end.

Fixpoint alloc_all (ts : list Token) : M (list ref) :=
  match ts with
  | [] => mret []
  | t :: rest =>
      r ← alloc t;
      rs ← alloc_all rest;
      mret (r :: rs)
  end.

Section Tokenizer.

(** [nltk.word_tokenize], a function of a third-party library. *)
Variable word_tokenize : string → list string.

Definition whitespace_tokenize_from_nltk (text : string) : result (list string) :=
  whitespace_loop text (word_tokenize text) 0 [].

(** [Text.from_string]. *)
Definition from_string (s : string) : M (list ref) :=
  units ← lift (whitespace_tokenize_from_nltk s);
  tokens ← alloc_all (create_token <$> units);
  recalculate_indices {| tokens := tokens; _text := None |};;
  mret tokens.

(** [Text(string)]. *)
Definition Text_of_string (s : string) : M Text :=
  tokens ← from_string s;
  recalculate_indices {| tokens := tokens; _text := None |}.

(** [align_strings]. *)
Definition align_strings (s1 s2 : string) : M alignment :=
  text1 ← Text_of_string s1;
  text2 ← Text_of_string s2;
  align_sentences text1 text2.

End Tokenizer.

(** Modelled from the spec: the word-boundary tokenizer that yields the
    word-level units of a text ([nltk.word_tokenize], which is not part of the
    sources).  This stand-in returns the maximal runs of non-whitespace
    characters.  The library's tokenizer splits further, at punctuation and
    inside contractions (it gives "can" and "not" for "cannot"), so the
    stand-in is used only at the concrete texts below on which the two give
    the same units: "", "a", " a", "a  b", "color", "colour", "the cat" and
    "the big cat".  Every general statement about the tokenizer is made for
    an arbitrary [word_tokenize]. *)
Fixpoint split_units (l : list ascii) (unit : list ascii) : list string :=
  let flush := match unit with
               | [] => []
               | _ => [PyStr.of_chars (reverse unit)]
               end in
  match l with
  | [] => flush
  | c :: l' =>
      if PyStr.isspace_char c then flush ++ split_units l' []
      else split_units l' (c :: unit)
  end.

Definition word_units (s : string) : list string := split_units (PyStr.chars s) [].

(** ** Concrete sequences *)

(** The store after [Text("the cat")] and [Text("the big cat")], without the
    whitespace tokens. *)
Definition example_heap : list Token :=
  [create_token "the"; create_token "cat";
   create_token "the"; create_token "big"; create_token "cat"].
Definition example_text1 : Text := {| tokens := [0; 1]; _text := None |}.
Definition example_text2 : Text := {| tokens := [2; 3; 4]; _text := None |}.

(** A word that remembers the word it was derived from. *)
Definition word_from (t o : string) : Token :=
  {| cls := KWord; text := t; index := None; start := None; aligned := false;
     alignment_spaces := 0; color := Some ""; bg := None;
     original := Some (new_token KWord o); operation := None |}.

(** Five words, each derived from the next one. *)
Definition chain_heap : list Token :=
  [word_from "aa" "bb"; word_from "bb" "cc"; word_from "cc" "dd";
   word_from "dd" "ee"; new_token KWord "ee"].
Definition chain_text : Text := {| tokens := [0; 1; 2; 3; 4]; _text := None |}.

(** The default constants with the sign of the substring weight changed. *)
Definition negative_weight : scoring :=
  {| match_score := 1; mismatch_score := -1; gap_score := -1;
     substring_match_score := -3 # 2; type_match_score := 1 # 2;
     original_match_score := 1 # 2 |}.

(** ** The padded display: Token.text_aligned, Text.text_aligned *)

(** [s * n] on a string; no copy for [n <= 0]. *)
Definition str_mul (s : string) (n : Z) : string :=
  PyStr.join (replicate (Z.to_nat n) s).

(** The property [Token.text_aligned]. *)
Definition token_text_aligned (tok : Token) : string :=
  if aligned tok then text tok +:+ str_mul "=" (alignment_spaces tok)
  else text tok.

(** The property [Text.text_aligned]. *)
Definition text_aligned (t : Text) : M string :=
  ts ← load_all (tokens t);
  mret (PyStr.join (token_text_aligned <$> ts)).

(** ** reconstruct_text_with_rules *)

(** The tokens before which no space is added. *)
Definition no_space_token (next_token : Token) : bool :=
  isinstance next_token KWhitespace
  || isinstance next_token KSpacer
  || isinstance next_token KPunctuation.

(** [reconstruct_text_with_rules]: what the loop appends for the first token,
    followed by what it appends for the rest.  The [text] of a token is a
    string, so the branch for a text that is itself a token is not taken. *)
Fixpoint reconstruct_text_with_rules (tokens : list Token) : string :=
  match tokens with
  | [] => ""
  | token :: rest =>
      text token
      +:+ match rest with
          | [] => ""
          | next_token :: _ => if no_space_token next_token then "" else " "
          end
      +:+ reconstruct_text_with_rules rest
  end.

(** ** Text.at_position and Text.insert_char *)

Definition set_text (s : string) (tok : Token) : Token :=
  {| cls := cls tok; text := s; index := index tok; start := start tok;
     aligned := aligned tok; alignment_spaces := alignment_spaces tok;
     color := color tok; bg := bg tok; original := original tok;
     operation := operation tok |}.

(** [Text.at_position]: the first token whose span, both ends included,
    holds [pos]; comparing a [start] that is [None] raises [TypeError]. *)
Fixpoint at_position (toks : list ref) (pos : Z) : M (option ref) :=
  match toks with
  | [] => mret None
  | r :: rest =>
      token ← load r;
      token_start ← lift (of_option TypeError (start token));
      if ((token_start <=? pos) && (pos <=? token_start + Z.of_nat (token_len token)))%Z
      then mret (Some r)
      else at_position rest pos
  end.

(** The assignment
    [token.text = token.text[:index - token.start] + char + token.text[index - token.start:]]. *)
Definition insert_in_token (r : ref) (index : Z) (char : string) : M unit :=
  token ← load r;
  token_start ← lift (of_option TypeError (start token));
  let k := (index - token_start)%Z in
  update r (set_text (PyStr.slice (text token) 0 k +:+ char
                      +:+ PyStr.slice (text token) k (Z.of_nat (PyStr.len (text token))))).

(** [Text.insert_char]: the assignment stands twice in the source; when no
    token is found the method only prints. *)
Definition insert_char (t : Text) (index : Z) (char : string) : M Text :=
  found ← at_position (tokens t) index;
  match found with
  | Some r =>
      insert_in_token r index char;;
      insert_in_token r index char;;
      recalculate_indices t
  | None => mret t
  end.

(** ** Serialization: to_dict and from_dict *)

(** A dictionary with the ten keys that [Token.to_dict] writes, each holding
    a value of the type of the attribute it was read from. *)
Inductive TokenDict := mkTokenDict {
  d_type : string;
  d_text : string;
  d_index : option Z;
  d_color : option string;
  d_bg : option string;
  d_original : option TokenDict;
  d_operation : option string;
  d_start : option Z;
  d_aligned : bool;
  d_alignment_spaces : Z;
}.

(** [self.__class__.__name__]. *)
Definition class_name (k : kind) : string :=
  match k with
  | KToken => "Token"
  | KWhitespace => "Whitespace"
  | KSpacer => "Spacer"
  | KPunctuation => "Punctuation"
  | KWord => "Word"
  | KSpecial => "Special"
  | KNumeric => "Numeric"
  end.

(** [Token.to_dict].  [self.original.to_dict() if self.original else None]
    tests the truth value of the original, which, a token having [__len__]
    and no [__bool__], is whether its text is not empty. *)
Fixpoint token_to_dict (tok : Token) : TokenDict :=
  match tok with
  | mkToken k t i s a sp c b o op =>
      {| d_type := class_name k;
         d_text := t;
         d_index := i;
         d_color := c;
         d_bg := b;
         d_original :=
           match o with
           | Some o' =>
               if (PyStr.len (text o') =? 0)%nat then None
               else Some (token_to_dict o')
           | None => None
           end;
         d_operation := op;
         d_start := s;
         d_aligned := a;
         d_alignment_spaces := sp |}
  end.

(** [c.lower()] for a code point below 256: the ASCII capitals and the
    capitals of Latin-1. *)
Definition lower_char (c : ascii) : ascii :=
  let n := nat_of_ascii c in
  if (((65 <=? n) && (n <=? 90))
      || ((192 <=? n) && (n <=? 222) && negb (n =? 215)))%nat
  then ascii_of_nat (n + 32) else c.

Definition py_lower (s : string) : string :=
  PyStr.of_chars (lower_char <$> PyStr.chars s).

(** [globals()[name]] for the names of the token classes.  The other names
    bound in the module are not classes of tokens and [to_dict] never writes
    them; they are treated here like the names that are not bound. *)
Definition class_named (name : string) : option kind :=
  if String.eqb name "Token" then Some KToken
  else if String.eqb name "Whitespace" then Some KWhitespace
  else if String.eqb name "Spacer" then Some KSpacer
  else if String.eqb name "Punctuation" then Some KPunctuation
  else if String.eqb name "Word" then Some KWord
  else if String.eqb name "Special" then Some KSpecial
  else if String.eqb name "Numeric" then Some KNumeric
  else None.

(** [Token.from_dict]. *)
Fixpoint token_from_dict (data : TokenDict) : result Token :=
  match data with
  | mkTokenDict ty t i c b o op s a sp =>
      let color_code :=
        match c with
        | Some color => COLOR_MAPPING (py_lower color)
        | None => None
        end in
      original ← match o with
                 | Some d => match token_from_dict d with
                             | Ok tok => Ok (Some tok)
                             | Raise e => Raise e
                             end
                 | None => Ok None
                 end;
      token_class ← of_option KeyError (class_named ty);
      mret {| cls := token_class; text := t; index := i; start := s;
              aligned := a; alignment_spaces := sp; color := color_code;
              bg := b; original := original; operation := op |}
  end.

(** The dictionary [Text.to_dict] writes. *)
Record TextDict := mkTextDict {
  d_tokens : list TokenDict;
  d_cached_text : option string;
}.

(** [Text.to_dict]. *)
Definition text_to_dict (t : Text) : M TextDict :=
  ts ← load_all (tokens t);
  mret {| d_tokens := token_to_dict <$> ts; d_cached_text := _text t |}.

Fixpoint tokens_from_dicts (ds : list TokenDict) : result (list Token) :=
  match ds with
  | [] => Ok []
  | d :: rest =>
      tok ← token_from_dict d;
      toks ← tokens_from_dicts rest;
      mret (tok :: toks)
  end.

(** [Text.from_dict]: a new container, a new token object for every entry. *)
Definition text_from_dict (data : TextDict) : M Text :=
  Text_new;;
  toks ← lift (tokens_from_dicts (d_tokens data));
  rs ← alloc_all toks;
  recalculate_indices {| tokens := rs; _text := d_cached_text data |}.

(** ** The scorer on Python's numbers *)

(** The scorer as CPython runs it.  A score is an [int] or a [float]: the
    matrix starts with the int [0], the keyword arguments are ints or floats
    as the caller passes them (the defaults: three ints and three floats), and
    a cell stays an int until a float has contributed to it.  A float is an
    IEEE 754 binary64 number, here the kernel's primitive float, each
    operation rounded to nearest, ties to even. *)
Module Binary64.

Import PrimFloat.

Inductive num :=
  | Int (z : Z)
  | Float (x : float).

(** The float nearest to [z] (infinite beyond the largest float). *)
Definition of_int (z : Z) : float :=
  FloatOps.SF2Prim
    (SpecFloat.binary_normalize FloatOps.prec FloatOps.emax z 0 false).

(** The conversion of an int operand of a mixed operation. *)
Definition to_float (z : Z) : result float :=
  let x := of_int z in
  if is_infinity x then Raise OverflowError else Ok x.

Definition as_float (a : num) : result float :=
  match a with
  | Int z => to_float z
  | Float x => Ok x
  end.

(** [a + b] and [a * b]. *)
Definition py_add (a b : num) : result num :=
  match a, b with
  | Int x, Int y => Ok (Int (x + y))
  | _, _ => x ← as_float a; y ← as_float b; mret (Float (x + y)%float)
  end.

Definition py_mul (a b : num) : result num :=
  match a, b with
  | Int x, Int y => Ok (Int (x * y))
  | _, _ => x ← as_float a; y ← as_float b; mret (Float (x * y)%float)
  end.

(** [a / b] on two lengths: the correctly rounded quotient, which for
    lengths below 2^53 (any string a machine can hold) is the quotient of the
    two lengths as floats. *)
Definition py_div (a b : nat) : result num :=
  if (b =? 0)%nat then Raise ZeroDivisionError
  else Ok (Float (of_int (Z.of_nat a) / of_int (Z.of_nat b))%float).

(** Python compares an int with a float by their exact values. *)
Definition compare_int_float (z : Z) (x : float) : option comparison :=
  match FloatOps.Prim2SF x with
  | SpecFloat.S754_nan => None
  | SpecFloat.S754_infinity s => Some (if s then Gt else Lt)
  | SpecFloat.S754_zero _ => Some (z ?= 0)%Z
  | SpecFloat.S754_finite s m e =>
      let v := if s then Z.neg m else Z.pos m in
      Some (if (0 <=? e)%Z then (z ?= v * 2 ^ e)%Z
            else (z * 2 ^ (- e) ?= v)%Z)
  end.

(** [a > b] and [a == b]. *)
Definition py_gt (a b : num) : bool :=
  match a, b with
  | Int x, Int y => (y <? x)%Z
  | Int x, Float y => bool_decide (compare_int_float x y = Some Gt)
  | Float x, Int y => bool_decide (compare_int_float y x = Some Lt)
  | Float x, Float y => (y <? x)%float
  end.

Definition py_eq (a b : num) : bool :=
  match a, b with
  | Int x, Int y => (x =? y)%Z
  | Int x, Float y => bool_decide (compare_int_float x y = Some Eq)
  | Float x, Int y => bool_decide (compare_int_float y x = Some Eq)
  | Float x, Float y => (x =? y)%float
  end.

(** [max(a, b, c)]: a later candidate replaces the current one only when it
    is greater. *)
Definition py_max3 (a b c : num) : num :=
  let m := if py_gt b a then b else a in
  if py_gt c m then c else m.

(** The keyword arguments of the scorer. *)
Record scoring := mkScoring {
  match_score : num;
  mismatch_score : num;
  gap_score : num;
  substring_match_score : num;
  type_match_score : num;
  original_match_score : num;
}.

(** Their default values. *)
Definition default_scoring : scoring :=
  {| match_score := Int 1; mismatch_score := Int (-1); gap_score := Int (-1);
     substring_match_score := Float 1.5; type_match_score := Float 0.5;
     original_match_score := Float 0.5 |}.

(** What the mismatch branch compares [token2] with: the original of
    [token1] when there is one, else [token1]; together with the bonus
    [original_match]. *)
Definition comparison_source (p : scoring) (token1 token2 : Token)
  : result (Token * num) :=
  match original token1 with
  | Some to_match1 =>
      let original_match :=
        if String.eqb (text to_match1) (text token2)
        then original_match_score p else Int 0 in
      original_match ←
        (if isinstance to_match1 (cls token2)
         then py_add original_match (type_match_score p)
         else Ok original_match);
      mret (to_match1, original_match)
  | None => Ok (token1, Int 0)
  end.

(** [mismatch_score_adjusted] of the mismatch branch. *)
Definition mismatch_score_adjusted (p : scoring)
    (token1 to_match1 token2 : Token) : result num :=
  let lcs := longest_common_substring (text to_match1) (text token2) in
  let max_len := Nat.max (PyStr.len (text to_match1)) (PyStr.len (text token2)) in
  ratio ← py_div (PyStr.len lcs) max_len;
  scaled ← py_mul ratio (substring_match_score p);
  adjusted ← py_add (mismatch_score p) scaled;
  if isinstance token1 (cls token2) && (1 <? max_len)%nat
  then py_add adjusted (type_match_score p) else Ok adjusted.

(** The value of [match] for a cell whose diagonal neighbour holds [prev]. *)
Definition match_candidate (p : scoring) (prev : num) (token1 token2 : Token)
  : result num :=
  if String.eqb (text token1) (text token2) then py_add prev (match_score p)
  else
    '(to_match1, original_match) ← comparison_source p token1 token2;
    adjusted ← mismatch_score_adjusted p token1 to_match1 token2;
    sum ← py_add prev adjusted;
    py_add sum original_match.

(** The tags appended to a traceback cell. *)
Definition tags_of (max_score match_ delete insert : num) : string :=
  (if py_eq max_score match_ then "D" else "")
  +:+ (if py_eq max_score delete then "U" else "")
  +:+ (if py_eq max_score insert then "L" else "").

(** The first row and the first column. *)
Definition init_column (p : scoring) (i : nat)
    (st : list (list num) * list (list string))
  : result (list (list num) * list (list string)) :=
  let '(score_matrix, traceback_matrix) := st in
  v ← py_mul (gap_score p) (Int (Z.of_nat i));
  score_matrix ← mset score_matrix i 0 v;
  traceback_matrix ← (if (0 <? i)%nat then mset traceback_matrix i 0 "U"
                      else Ok traceback_matrix);
  mret (score_matrix, traceback_matrix).

Definition init_row (p : scoring) (j : nat)
    (st : list (list num) * list (list string))
  : result (list (list num) * list (list string)) :=
  let '(score_matrix, traceback_matrix) := st in
  v ← py_mul (gap_score p) (Int (Z.of_nat j));
  score_matrix ← mset score_matrix 0 j v;
  traceback_matrix ← (if (0 <? j)%nat then mset traceback_matrix 0 j "L"
                      else Ok traceback_matrix);
  mret (score_matrix, traceback_matrix).

(** The body of the double loop at cell [(i, j)]. *)
Definition fill_cell (p : scoring) (s1_tokens s2_tokens : list Token)
    (i j : nat) (st : list (list num) * list (list string))
  : result (list (list num) * list (list string)) :=
  let '(score_matrix, traceback_matrix) := st in
  token1 ← of_option IndexError (s1_tokens !! (i - 1));
  token2 ← of_option IndexError (s2_tokens !! (j - 1));
  prev ← mget score_matrix (i - 1) (j - 1);
  match_ ← match_candidate p prev token1 token2;
  up ← mget score_matrix (i - 1) j;
  delete ← py_add up (gap_score p);
  left ← mget score_matrix i (j - 1);
  insert ← py_add left (gap_score p);
  let max_score := py_max3 match_ delete insert in
  score_matrix ← mset score_matrix i j max_score;
  old ← mget traceback_matrix i j;
  traceback_matrix ←
    mset traceback_matrix i j (old +:+ tags_of max_score match_ delete insert);
  mret (score_matrix, traceback_matrix).

(** The three loops on the token objects as they are once their annotations
    have been cleared. *)
Definition fill_matrices (p : scoring) (s1_tokens s2_tokens : list Token)
  : result (list (list num) * list (list string)) :=
  let n := length s1_tokens in
  let m := length s2_tokens in
  let score_matrix := replicate (n + 1) (replicate (m + 1) (Int 0)) in
  let traceback_matrix := replicate (n + 1) (replicate (m + 1) "") in
  st ← for_each (range 0 (n + 1)) (init_column p)
         (score_matrix, traceback_matrix);
  st ← for_each (range 0 (m + 1)) (init_row p) st;
  for_each (range 1 (n + 1))
    (λ i st, for_each (range 1 (m + 1)) (fill_cell p s1_tokens s2_tokens i) st)
    st.

Definition needleman_wunsch_alignment_words_substring
    (text1 text2 : Text) (p : scoring)
  : M (list (list num) * list (list string)) :=
  text_clear_alignment (tokens text1);;
  text_clear_alignment (tokens text2);;
  s1_tokens ← load_all (tokens text1);
  s2_tokens ← load_all (tokens text2);
  lift (fill_matrices p s1_tokens s2_tokens).

(** [align_sentences] with [visualize=False]: the two aligned containers. *)
Definition align_sentences (text1 text2 : Text) : M (Text * Text) :=
  '(score_matrix, traceback_matrix) ←
    needleman_wunsch_alignment_words_substring text1 text2 default_scoring;
  '(s1_aligned, s2_aligned, _) ←
    get_alignment_and_visualization_words text1 text2 traceback_matrix;
  s1_aligned ← recalculate_indices s1_aligned;
  s2_aligned ← recalculate_indices s2_aligned;
  mret (s1_aligned, s2_aligned).

End Binary64.

(** Three words against two on which rounding decides a tie. *)
Definition rounding_heap : list Token :=
  [create_token "b"; create_token "aabba"; create_token "a";
   create_token "aaaba"; create_token "bb"].
Definition rounding_text1 : Text := {| tokens := [0; 1; 2]; _text := None |}.
Definition rounding_text2 : Text := {| tokens := [3; 4]; _text := None |}.

(** ** Reasoning about the monads *)

Lemma rbind_Ok {A B} (x : result A) (f : A → result B) (b : B) :
  x ≫= f = Ok b ↔ ∃ a, x = Ok a ∧ f a = Ok b.
Proof.
  destruct x as [a|e]; simpl; split.
  - eauto.
  - by intros (a' & [= <-] & ?).
  - done.
  - by intros (a' & ? & ?).
Qed.

Lemma of_option_Ok {A} e (o : option A) a : of_option e o = Ok a ↔ o = Some a.
Proof. destruct o; simpl; split; congruence. Qed.

Lemma mbind_Ok {A B} (m : M A) (f : A → M B) h b h' :
  (m ≫= f) h = Ok (b, h') ↔ ∃ a h1, m h = Ok (a, h1) ∧ f a h1 = Ok (b, h').
Proof.
  unfold mbind, M_bind. destruct (m h) as [[a h1]|e]; split.
  - eauto.
  - by intros (a' & h1' & [= <- <-] & ?).
  - done.
  - by intros (? & ? & ? & ?).
Qed.

Lemma mret_Ok {A} (a b : A) h h' : (mret a : M A) h = Ok (b, h') ↔ a = b ∧ h = h'.
Proof. unfold mret, M_ret. split; [by intros [= -> ->]|by intros [-> ->]]. Qed.

Lemma lift_Ok {A} (x : result A) h a h' : lift x h = Ok (a, h') ↔ x = Ok a ∧ h' = h.
Proof.
  unfold lift. destruct x as [a0|e]; split.
  - by intros [= -> ->].
  - by intros [[= ->] ->].
  - done.
  - by intros [? _].
Qed.

Lemma load_Ok r h t h' : load r h = Ok (t, h') ↔ h !! r = Some t ∧ h' = h.
Proof.
  unfold load. destruct (h !! r) as [t0|]; split.
  - by intros [= -> ->].
  - by intros [[= ->] ->].
  - done.
  - by intros [? _].
Qed.

Lemma update_Ok r f h u h' :
  update r f h = Ok (u, h') ↔ ∃ t, h !! r = Some t ∧ h' = <[r := f t]> h.
Proof.
  unfold update. destruct (h !! r) as [t|]; split.
  - intros [= <-]. eauto.
  - intros (t' & [= <-] & ->). by destruct u.
  - done.
  - by intros (? & ? & ?).
Qed.

Lemma alloc_Ok t h r h' : alloc t h = Ok (r, h') ↔ r = length h ∧ h' = h ++ [t].
Proof. unfold alloc. split; [by intros [= <- <-]|by intros [-> ->]]. Qed.

(** ** Matrices *)

Section matrix.
Context {A : Type}.
Implicit Types (m : matrix A) (v : A).

(** [rows] rows of [cols] entries each. *)
Definition shape m (rows cols : nat) : Prop :=
  length m = rows ∧ Forall (λ row, length row = cols) m.

Lemma shape_replicate rows cols v :
  shape (replicate rows (replicate cols v)) rows cols.
Proof.
  split; [by rewrite length_replicate|].
  apply Forall_replicate. by rewrite length_replicate.
Qed.

Lemma mget_Ok m i j v :
  mget m i j = Ok v ↔ ∃ row, m !! i = Some row ∧ row !! j = Some v.
Proof.
  unfold mget. rewrite rbind_Ok. setoid_rewrite of_option_Ok. done.
Qed.

Lemma mget_in_shape m rows cols i j :
  shape m rows cols → i < rows → j < cols → ∃ v, mget m i j = Ok v.
Proof.
  intros [Hlen Hall] Hi Hj.
  destruct (lookup_lt_is_Some_2 m i) as [row Hrow]; [lia|].
  rewrite Forall_lookup in Hall. specialize (Hall _ _ Hrow).
  destruct (lookup_lt_is_Some_2 row j) as [v Hv]; [lia|].
  exists v. apply mget_Ok. eauto.
Qed.

Lemma mset_Ok m i j v m' :
  mset m i j v = Ok m' ↔
  ∃ row, m !! i = Some row ∧ j < length row ∧ m' = <[i := <[j := v]> row]> m.
Proof.
  unfold mset. rewrite rbind_Ok. setoid_rewrite of_option_Ok.
  split.
  - intros (row & Hrow & H). case_decide; [|done].
    injection H as <-. eauto.
  - intros (row & Hrow & Hj & ->). exists row. split; [done|].
    by rewrite decide_True.
Qed.

Lemma mset_in_shape m rows cols i j v :
  shape m rows cols → i < rows → j < cols → ∃ m', mset m i j v = Ok m'.
Proof.
  intros [Hlen Hall] Hi Hj.
  destruct (lookup_lt_is_Some_2 m i) as [row Hrow]; [lia|].
  rewrite Forall_lookup in Hall. specialize (Hall _ _ Hrow).
  eexists. apply mset_Ok. exists row. repeat split; [done|lia].
Qed.

Lemma mset_shape m rows cols i j v m' :
  shape m rows cols → mset m i j v = Ok m' → shape m' rows cols.
Proof.
  intros [Hlen Hall] (row & Hrow & Hj & ->)%mset_Ok. split.
  - by rewrite length_insert.
  - apply Forall_insert; [done|]. simpl. rewrite length_insert.
    rewrite Forall_lookup in Hall. by eapply Hall.
Qed.

Lemma mget_mset_eq m i j v m' : mset m i j v = Ok m' → mget m' i j = Ok v.
Proof.
  intros (row & Hrow & Hj & ->)%mset_Ok. apply mget_Ok.
  exists (<[j := v]> row). split.
  - apply list_lookup_insert_eq. by eapply lookup_lt_Some.
  - by apply list_lookup_insert_eq.
Qed.

Lemma mget_mset_ne m i j v m' i' j' :
  mset m i j v = Ok m' → (i', j') ≠ (i, j) → mget m' i' j' = mget m i' j'.
Proof.
  intros (row & Hrow & Hj & ->)%mset_Ok Hne. unfold mget.
  destruct (decide (i' = i)) as [->|Hi].
  - rewrite list_lookup_insert_eq; [|by eapply lookup_lt_Some].
    rewrite Hrow. simpl. rewrite list_lookup_insert_ne; [done|congruence].
  - by rewrite list_lookup_insert_ne.
Qed.
End matrix.

(** ** Loops with an invariant *)

Lemma for_each_app {St X} (xs ys : list X) (body : X → St → result St) s :
  for_each (xs ++ ys) body s = for_each xs body s ≫= for_each ys body.
Proof.
  revert s. induction xs as [|x xs IH]; intros s; simpl; [done|].
  destruct (body x s); simpl; [apply IH|done].
Qed.

Lemma range_snoc lo hi : lo ≤ hi → range lo (S hi) = range lo hi ++ [hi].
Proof.
  intros. unfold range. replace (S hi - lo) with (S (hi - lo)) by lia.
  rewrite seq_S. do 2 f_equal. lia.
Qed.

Lemma for_each_range_inv {St} (I : nat → St → Prop) body lo hi s s' :
  lo ≤ hi →
  (∀ k s s', lo ≤ k < hi → I k s → body k s = Ok s' → I (S k) s') →
  I lo s → for_each (range lo hi) body s = Ok s' → I hi s'.
Proof.
  intros Hle Hstep Hlo. revert s'.
  induction hi as [|hi IH]; intros s'.
  - assert (lo = 0) as -> by lia. by intros [= <-].
  - destruct (decide (lo = S hi)) as [->|Hne].
    { unfold range. rewrite Nat.sub_diag. by intros [= <-]. }
    rewrite range_snoc, for_each_app by lia.
    intros (s1 & Hs1 & Hlast)%rbind_Ok. simpl in Hlast.
    apply rbind_Ok in Hlast as (s2 & Hbody & [= <-]).
    eapply Hstep; [|apply IH|done]; eauto with lia.
Qed.

Lemma for_each_range_total {St} (I : nat → St → Prop) body lo hi s :
  lo ≤ hi →
  (∀ k s, lo ≤ k < hi → I k s → ∃ s', body k s = Ok s' ∧ I (S k) s') →
  I lo s → ∃ s', for_each (range lo hi) body s = Ok s' ∧ I hi s'.
Proof.
  intros Hle Hstep Hlo.
  induction hi as [|hi IH].
  - assert (lo = 0) as -> by lia. by exists s.
  - destruct (decide (lo = S hi)) as [->|Hne].
    { unfold range. rewrite Nat.sub_diag. by exists s. }
    destruct IH as (s1 & Hs1 & HI); [lia|eauto with lia|].
    destruct (Hstep hi s1) as (s2 & Hs2 & HI2); [lia|done|].
    exists s2. split; [|done].
    rewrite range_snoc, for_each_app by lia.
    rewrite Hs1. simpl. by rewrite Hs2.
Qed.

(** ** What the scorer leaves in its matrices *)

Section scorer.
Variable p : scoring.
Variables s1_tokens s2_tokens : list Token.
Let n := length s1_tokens.
Let m := length s2_tokens.

(** Cell [(i, j)] holds the maximum of its three candidates and the tags of
    the candidates that reach it. *)
Definition cell_filled (S : matrix Q) (T : matrix string) (i j : nat) : Prop :=
  ∃ token1 token2 prev up left match_,
    s1_tokens !! (i - 1) = Some token1 ∧
    s2_tokens !! (j - 1) = Some token2 ∧
    mget S (i - 1) (j - 1) = Ok prev ∧
    match_candidate p prev token1 token2 = Ok match_ ∧
    mget S (i - 1) j = Ok up ∧
    mget S i (j - 1) = Ok left ∧
    mget S i j = Ok (py_max3 match_ (up + gap_score p) (left + gap_score p)) ∧
    mget T i j =
      Ok (tags_of (py_max3 match_ (up + gap_score p) (left + gap_score p))
            match_ (up + gap_score p)%Q (left + gap_score p)%Q).

Definition inner (i j : nat) : Prop := 1 ≤ i ≤ n ∧ 1 ≤ j ≤ m.

(** The cells the double loop has passed when it stands at [(i, j)]. *)
Definition passed (i j i' j' : nat) : Prop := i' < i ∨ (i' = i ∧ j' < j).

Definition base_column (S : matrix Q) (T : matrix string) (k : nat) : Prop :=
  ∀ i, i < k →
    mget S i 0 = Ok (gap_score p * Qnat i)%Q ∧
    mget T i 0 = Ok (if (0 <? i)%nat then "U" else "").

Definition base_row (S : matrix Q) (T : matrix string) (k : nat) : Prop :=
  ∀ j, j < k →
    mget S 0 j = Ok (gap_score p * Qnat j)%Q ∧
    mget T 0 j = Ok (if (0 <? j)%nat then "L" else "").

Definition shapes (st : matrices) : Prop :=
  shape st.1 (n + 1) (m + 1) ∧ shape st.2 (n + 1) (m + 1).

(** The state of the double loop when it stands at [(i, j)]. *)
Definition filled_upto (i j : nat) (st : matrices) : Prop :=
  shapes st ∧ base_column st.1 st.2 (n + 1) ∧ base_row st.1 st.2 (m + 1) ∧
  (∀ i' j', inner i' j' → passed i j i' j' → cell_filled st.1 st.2 i' j') ∧
  (∀ i' j', inner i' j' → ¬ passed i j i' j' → mget st.2 i' j' = Ok "").

(** The first loop. *)
Definition column_upto (k : nat) (st : matrices) : Prop :=
  shapes st ∧ base_column st.1 st.2 k ∧
  (∀ i j, i < n + 1 → j < m + 1 → k ≤ i ∨ 0 < j → mget st.2 i j = Ok "").

Lemma init_column_step k st :
  k < n + 1 → column_upto k st →
  ∃ st', init_column p k st = Ok st' ∧ column_upto (S k) st'.
Proof.
  destruct st as [S T]. intros Hk ([HS HT] & Hbase & Hrest). simpl in *.
  destruct (mset_in_shape S (n + 1) (m + 1) k 0 (gap_score p * Qnat k)%Q)
    as [S' HS']; [done|lia|lia|].
  assert (∃ T', (if (0 <? k)%nat then mset T k 0 "U" else Ok T) = Ok T' ∧
      shape T' (n + 1) (m + 1) ∧
      mget T' k 0 = Ok (if (0 <? k)%nat then "U" else "") ∧
      ∀ i j, (i, j) ≠ (k, 0) → mget T' i j = mget T i j)
    as (T' & HT' & HshT & HTk & HTo).
  { destruct (0 <? k)%nat eqn:Hpos.
    - destruct (mset_in_shape T (n + 1) (m + 1) k 0 "U") as [T' HT'];
        [done|lia|lia|].
      exists T'. split_and!; [done|by eapply mset_shape|by eapply mget_mset_eq|].
      intros. by eapply mget_mset_ne.
    - exists T. split_and!; [done|done| |done].
      apply Hrest; lia. }
  exists (S', T'). unfold init_column. rewrite HS'. simpl. rewrite HT'. simpl.
  split; [done|]. split_and!; simpl.
  - split; [by eapply mset_shape|done].
  - intros i Hi. destruct (decide (i = k)) as [->|Hne].
    + split; [by eapply mget_mset_eq|done].
    + rewrite HTo by congruence.
      erewrite mget_mset_ne by (done || congruence). apply Hbase. lia.
  - intros i j Hi Hj Hor. rewrite HTo; [apply Hrest; lia|].
    intros [= -> ->]. lia.
Qed.

(** The second loop. *)
Definition row_upto (k : nat) (st : matrices) : Prop :=
  shapes st ∧ base_column st.1 st.2 (n + 1) ∧ base_row st.1 st.2 k ∧
  (∀ i j, i < n + 1 → j < m + 1 → 0 < i → 0 < j → mget st.2 i j = Ok "") ∧
  (∀ j, k ≤ j → 0 < j → j < m + 1 → mget st.2 0 j = Ok "").

Lemma init_row_step k st :
  k < m + 1 → row_upto k st →
  ∃ st', init_row p k st = Ok st' ∧ row_upto (S k) st'.
Proof.
  destruct st as [S T]. intros Hk ([HS HT] & Hcol & Hbase & Hin & Hrest).
  simpl in *.
  destruct (mset_in_shape S (n + 1) (m + 1) 0 k (gap_score p * Qnat k)%Q)
    as [S' HS']; [done|lia|lia|].
  assert (∃ T', (if (0 <? k)%nat then mset T 0 k "L" else Ok T) = Ok T' ∧
      shape T' (n + 1) (m + 1) ∧
      mget T' 0 k = Ok (if (0 <? k)%nat then "L" else "") ∧
      ∀ i j, (i, j) ≠ (0, k) → mget T' i j = mget T i j)
    as (T' & HT' & HshT & HTk & HTo).
  { destruct (0 <? k)%nat eqn:Hpos.
    - destruct (mset_in_shape T (n + 1) (m + 1) 0 k "L") as [T' HT'];
        [done|lia|lia|].
      exists T'. split_and!; [done|by eapply mset_shape|by eapply mget_mset_eq|].
      intros. by eapply mget_mset_ne.
    - exists T. split_and!; [done|done| |done].
      apply Nat.ltb_ge in Hpos. assert (k = 0) as -> by lia.
      destruct (Hcol 0) as [_ H0]; [lia|]. done. }
  exists (S', T'). unfold init_row. rewrite HS'. simpl. rewrite HT'. simpl.
  split; [done|]. split_and!; simpl.
  - split; [by eapply mset_shape|done].
  - intros i Hi. destruct (decide (i = 0)) as [->|Hne].
    + destruct (decide (k = 0)) as [->|Hk0].
      * split; [by eapply mget_mset_eq|]. rewrite HTk. done.
      * rewrite HTo by congruence.
        erewrite mget_mset_ne by (done || congruence). apply Hcol. lia.
    + rewrite HTo by congruence.
      erewrite mget_mset_ne by (done || congruence). by apply Hcol.
  - intros j Hj. destruct (decide (j = k)) as [->|Hne].
    + split; [by eapply mget_mset_eq|done].
    + rewrite HTo by congruence.
      erewrite mget_mset_ne by (done || congruence). apply Hbase. lia.
  - intros i j Hi Hj Hpos Hpos'. rewrite HTo; [by apply Hin|].
    intros [= -> ->]. lia.
  - intros j Hkj Hpos Hj. rewrite HTo; [apply Hrest; lia|].
    intros [= ->]. lia.
Qed.

(** The double loop. *)
Lemma fill_cell_step i j st st' :
  inner i j → filled_upto i j st →
  fill_cell p s1_tokens s2_tokens i j st = Ok st' → filled_upto i (S j) st'.
Proof.
  destruct st as [S T].
  intros [Hi Hj] ([HS HT] & Hcol & Hrow & Hpassed & Hrest) Hrun.
  simpl in *. unfold fill_cell in Hrun.
  apply rbind_Ok in Hrun as (token1 & Ht1%of_option_Ok & Hrun).
  apply rbind_Ok in Hrun as (token2 & Ht2%of_option_Ok & Hrun).
  apply rbind_Ok in Hrun as (prev & Hprev & Hrun).
  apply rbind_Ok in Hrun as (match_ & Hmatch & Hrun).
  apply rbind_Ok in Hrun as (up & Hup & Hrun).
  apply rbind_Ok in Hrun as (left & Hleft & Hrun).
  apply rbind_Ok in Hrun as (S' & HS' & Hrun).
  apply rbind_Ok in Hrun as (old & Hold & Hrun).
  apply rbind_Ok in Hrun as (T' & HT' & [= <-]).
  rewrite Hrest in Hold by (unfold inner, passed; lia).
  injection Hold as <-. simpl in HT'.
  assert (∀ i' j', (i', j') ≠ (i, j) → mget S' i' j' = mget S i' j') as HSo
    by (intros; by eapply mget_mset_ne).
  assert (∀ i' j', (i', j') ≠ (i, j) → mget T' i' j' = mget T i' j') as HTo
    by (intros; by eapply mget_mset_ne).
  split_and!; simpl.
  - split; by eapply mset_shape.
  - intros i' Hi'. rewrite HSo, HTo by (intros [= -> <-]; lia). by apply Hcol.
  - intros j' Hj'. rewrite HSo, HTo by (intros [= <- ->]; lia). by apply Hrow.
  - intros i' j' [Hi' Hj'] Hp. destruct (decide ((i', j') = (i, j))) as [[= -> ->]|Hne].
    + exists token1, token2, prev, up, left, match_.
      rewrite !HSo by (intros [=]; lia).
      split_and!; try done; by eapply mget_mset_eq.
    + destruct (Hpassed i' j') as (t1 & t2 & pr & u & l & mt & ? & ? & ? & ? & ? & ? & ? & ?).
      { done. }
      { unfold passed in *. destruct Hp as [?|[-> ?]]; [lia|].
        right. split; [done|]. destruct (decide (j' = j)); [congruence|lia]. }
      exists t1, t2, pr, u, l, mt.
      unfold passed in Hp.
      rewrite !HSo, HTo by (try done; intros [=]; lia). done.
  - intros i' j' Hin Hnp. rewrite HTo.
    + apply Hrest; [done|]. unfold passed in *. lia.
    + intros [= -> ->]. apply Hnp. unfold passed. lia.
Qed.

(** Whether [match] can be computed does not depend on the neighbour. *)
Definition scorable (token1 token2 : Token) : Prop :=
  ∃ q, match_candidate p 0 token1 token2 = Ok q.

Lemma scorable_prev token1 token2 prev :
  scorable token1 token2 → ∃ q, match_candidate p prev token1 token2 = Ok q.
Proof.
  unfold scorable, match_candidate. intros [q Hq].
  destruct (String.eqb _ _); [eauto|].
  destruct (mismatch_score_adjusted p token1 token2); [simpl; eauto|done].
Qed.

Lemma fill_cell_success i j st :
  inner i j → filled_upto i j st →
  (∀ token1 token2, s1_tokens !! (i - 1) = Some token1 →
     s2_tokens !! (j - 1) = Some token2 → scorable token1 token2) →
  ∃ st', fill_cell p s1_tokens s2_tokens i j st = Ok st'.
Proof.
  destruct st as [S T].
  intros [Hi Hj] ([HS HT] & Hcol & Hrow & Hpassed & Hrest) Hsc. simpl in *.
  destruct (lookup_lt_is_Some_2 s1_tokens (i - 1)) as [token1 Ht1]; [fold n; lia|].
  destruct (lookup_lt_is_Some_2 s2_tokens (j - 1)) as [token2 Ht2]; [fold m; lia|].
  destruct (mget_in_shape S (n + 1) (m + 1) (i - 1) (j - 1)) as [prev Hprev];
    [done|lia|lia|].
  destruct (scorable_prev token1 token2 prev) as [match_ Hmatch]; [eauto|].
  destruct (mget_in_shape S (n + 1) (m + 1) (i - 1) j) as [up Hup];
    [done|lia|lia|].
  destruct (mget_in_shape S (n + 1) (m + 1) i (j - 1)) as [left Hleft];
    [done|lia|lia|].
  destruct (mget_in_shape T (n + 1) (m + 1) i j) as [old Hold];
    [done|lia|lia|].
  unfold fill_cell. rewrite Ht1, Ht2. simpl. rewrite Hprev. simpl.
  rewrite Hmatch. simpl. rewrite Hup. simpl. rewrite Hleft. simpl.
  edestruct (mset_in_shape S (n + 1) (m + 1) i j) as [S' ->]; [done|lia|lia|].
  simpl. rewrite Hold. simpl.
  edestruct (mset_in_shape T (n + 1) (m + 1) i j) as [T' ->]; [done|lia|lia|].
  simpl. eauto.
Qed.

Lemma filled_next_row i st : filled_upto i (m + 1) st → filled_upto (S i) 1 st.
Proof.
  intros (Hsh & Hcol & Hrow & Hpassed & Hrest). split_and!; try done.
  - intros i' j' Hin Hp. apply Hpassed; [done|].
    unfold passed, inner in *. lia.
  - intros i' j' Hin Hp. apply Hrest; [done|].
    unfold passed, inner in *. lia.
Qed.

Definition initial_matrices : matrices :=
  (replicate (n + 1) (replicate (m + 1) 0%Q),
   replicate (n + 1) (replicate (m + 1) "")).

Lemma mget_replicate {A} rows cols (v : A) i j :
  i < rows → j < cols → mget (replicate rows (replicate cols v)) i j = Ok v.
Proof.
  intros. apply mget_Ok. exists (replicate cols v).
  split; by apply lookup_replicate_2.
Qed.

Lemma init_loops :
  ∃ st, (for_each (range 0 (n + 1)) (init_column p) initial_matrices
           ≫= for_each (range 0 (m + 1)) (init_row p)) = Ok st ∧
        filled_upto 1 1 st.
Proof.
  destruct (for_each_range_total column_upto (init_column p) 0 (n + 1)
              initial_matrices) as (st1 & Hst1 & H1); [lia| | |].
  { intros k st Hk. apply init_column_step. lia. }
  { split_and!.
    - split; apply shape_replicate.
    - intros i Hi. lia.
    - intros i j Hi Hj _. by apply mget_replicate. }
  destruct (for_each_range_total row_upto (init_row p) 0 (m + 1) st1)
    as (st2 & Hst2 & H2); [lia| | |].
  { intros k st Hk. apply init_row_step. lia. }
  { destruct H1 as (Hsh & Hcol & Hrest). split_and!; try done.
    - intros j Hj. lia.
    - intros i j Hi Hj Hpos Hpos'. apply Hrest; lia.
    - intros j _ Hpos Hj. apply Hrest; lia. }
  exists st2. rewrite Hst1. simpl. split; [done|].
  destruct H2 as (Hsh & Hcol & Hrow & Hin & _). split_and!; try done.
  - intros i' j' Hin' Hp. unfold passed, inner in *. lia.
  - intros i' j' Hin' _. unfold inner in *. apply Hin; lia.
Qed.

(** The matrices returned by the scorer. *)
Definition scored (S : matrix Q) (T : matrix string) : Prop :=
  shape S (n + 1) (m + 1) ∧ shape T (n + 1) (m + 1) ∧
  base_column S T (n + 1) ∧ base_row S T (m + 1) ∧
  ∀ i j, inner i j → cell_filled S T i j.

Lemma filled_scored S T : filled_upto (n + 1) 1 (S, T) → scored S T.
Proof.
  intros ([? ?] & ? & ? & Hpassed & _). split_and!; try done.
  intros i j Hin. apply Hpassed; [done|]. unfold passed, inner in *. lia.
Qed.

Lemma fill_matrices_scored S T :
  fill_matrices p s1_tokens s2_tokens = Ok (S, T) → scored S T.
Proof.
  unfold fill_matrices. fold n m.
  destruct init_loops as (st & Hinit & Hst).
  apply rbind_Ok in Hinit as (st1 & Hst1 & Hst2).
  change (replicate (n + 1) (replicate (m + 1) 0%Q), replicate (n + 1) (replicate (m + 1) ""))
    with initial_matrices.
  rewrite Hst1. simpl. rewrite Hst2. simpl. intros Hrun.
  apply filled_scored.
  eapply (for_each_range_inv (λ i, filled_upto i 1)); [| |exact Hst|exact Hrun]; [lia|].
  intros i s s' Hi Hs Hrow. apply filled_next_row.
  eapply (for_each_range_inv (filled_upto i)); [| |exact Hs|exact Hrow]; [lia|].
  intros j t t' Hj Ht Hcell. eapply fill_cell_step; [|done..].
  unfold inner. lia.
Qed.

Lemma fill_matrices_total :
  (∀ token1 token2, token1 ∈ s1_tokens → token2 ∈ s2_tokens →
     scorable token1 token2) →
  ∃ S T, fill_matrices p s1_tokens s2_tokens = Ok (S, T).
Proof.
  intros Hsc. unfold fill_matrices. fold n m.
  destruct init_loops as (st & Hinit & Hst).
  apply rbind_Ok in Hinit as (st1 & Hst1 & Hst2).
  change (replicate (n + 1) (replicate (m + 1) 0%Q), replicate (n + 1) (replicate (m + 1) ""))
    with initial_matrices.
  rewrite Hst1. simpl. rewrite Hst2. simpl.
  destruct (for_each_range_total (λ i, filled_upto i 1)
    (λ i st, for_each (range 1 (m + 1)) (fill_cell p s1_tokens s2_tokens i) st)
    1 (n + 1) st) as ([S T] & Hrun & _); [lia| |done|by eauto].
  intros i s Hi Hs.
  destruct (for_each_range_total (filled_upto i)
    (fill_cell p s1_tokens s2_tokens i) 1 (m + 1) s) as (s' & Hrun & Hs');
    [lia| |done|].
  - intros j t Hj Ht.
    destruct (fill_cell_success i j t) as [t' Ht']; [unfold inner; lia|done| |].
    { intros token1 token2 H1 H2. apply Hsc; by eapply list_elem_of_lookup_2. }
    exists t'. split; [done|]. eapply fill_cell_step; [|done..].
    unfold inner. lia.
  - exists s'. split; [done|]. by apply filled_next_row.
Qed.
End scorer.

(** ** What no operation of the aligner changes *)

(** The class, the text and the original of an object are never assigned. *)
Definition core (t : Token) : kind * string * option Token :=
  (cls t, text t, original t).

Definition cores (h : heap) : list (kind * string * option Token) := core <$> h.

(** [h'] is [h] with attributes reassigned and objects added. *)
Definition extends (h h' : heap) : Prop := cores h `prefix_of` cores h'.

Global Instance extends_preorder : PreOrder extends.
Proof.
  split.
  - intros h. unfold extends. done.
  - intros h1 h2 h3. unfold extends. apply transitivity.
Qed.

Lemma extends_length h h' : extends h h' → length h ≤ length h'.
Proof.
  intros H%prefix_length. unfold cores in H. by rewrite !length_fmap in H.
Qed.

Lemma extends_lookup h h' r t :
  extends h h' → h !! r = Some t → ∃ t', h' !! r = Some t' ∧ core t' = core t.
Proof.
  intros Hext Hr.
  assert (cores h !! r = Some (core t)) as Hc
    by (unfold cores; by rewrite list_lookup_fmap, Hr).
  eapply prefix_lookup_Some in Hc; [|exact Hext].
  unfold cores in Hc. rewrite list_lookup_fmap in Hc.
  destruct (h' !! r) as [t'|]; [|done]. simpl in Hc. injection Hc as Hc.
  exists t'. split; [done|]. unfold core. congruence.
Qed.

Lemma extends_insert h r t f :
  h !! r = Some t → core (f t) = core t → extends h (<[r := f t]> h).
Proof.
  intros Hr Hcore. unfold extends, cores.
  rewrite list_fmap_insert, Hcore.
  rewrite list_insert_id; [done|]. by rewrite list_lookup_fmap, Hr.
Qed.

Lemma extends_app h t : extends h (h ++ [t]).
Proof. unfold extends, cores. rewrite fmap_app. by apply prefix_app_r. Qed.

(** A reference is valid when it points into the store. *)
Definition valid (h : heap) (rs : list ref) : Prop := Forall (λ r, r < length h) rs.

Lemma valid_lookup h rs k r : valid h rs → rs !! k = Some r → is_Some (h !! r).
Proof.
  unfold valid. rewrite Forall_lookup. intros H Hk.
  apply lookup_lt_is_Some_2. by eapply H.
Qed.

(** A computation that only reassigns attributes and adds objects. *)
Definition stable {A} (m : M A) : Prop :=
  ∀ h a h', m h = Ok (a, h') → extends h h'.

Lemma stable_ret {A} (a : A) : stable (mret a).
Proof. intros h b h' [_ <-]%mret_Ok. done. Qed.

Lemma stable_bind {A B} (m : M A) (f : A → M B) :
  stable m → (∀ a, stable (f a)) → stable (m ≫= f).
Proof.
  intros Hm Hf h b h' (a & h1 & H1 & H2)%mbind_Ok.
  etrans; [by eapply Hm|by eapply Hf].
Qed.

Lemma stable_lift {A} (x : result A) : stable (lift x).
Proof. intros h a h' [_ ->]%lift_Ok. done. Qed.

Lemma stable_raise {A} e : stable (raise e : M A).
Proof. intros h a h'. done. Qed.

Lemma stable_load r : stable (load r).
Proof. intros h a h' [_ ->]%load_Ok. done. Qed.

Lemma stable_update r f : (∀ t, core (f t) = core t) → stable (update r f).
Proof.
  intros Hf h a h' (t & Ht & ->)%update_Ok. by apply extends_insert.
Qed.

Lemma stable_alloc t : stable (alloc t).
Proof. intros h a h' [_ ->]%alloc_Ok. apply extends_app. Qed.

Lemma stable_if {A} (b : bool) (m1 m2 : M A) :
  stable m1 → stable m2 → stable (if b then m1 else m2).
Proof. by destruct b. Qed.

Create HintDb stable discriminated.
Global Hint Resolve stable_ret stable_lift stable_raise stable_load
  stable_alloc stable_if : stable.
Global Hint Extern 2 (stable (_ ≫= _)) => apply stable_bind; [|intros ?] : stable.
Global Hint Extern 2 (stable (update _ _)) =>
  apply stable_update; intros []; reflexivity : stable.

Lemma stable_texts_of rs : stable (texts_of rs).
Proof. induction rs; simpl; auto 10 with stable. Qed.
Global Hint Resolve stable_texts_of : stable.

Lemma stable_recalculate_loop toks i s : stable (recalculate_loop toks i s).
Proof.
  revert i s. induction toks as [|r rest IH]; intros i s.
  { simpl. auto with stable. }
  cbn [recalculate_loop].
  apply stable_bind; [auto with stable|intros _].
  apply stable_bind; [destruct rest; auto 10 with stable|intros offset].
  apply stable_bind; [auto with stable|intros token]. apply IH.
Qed.
Global Hint Resolve stable_recalculate_loop : stable.

Lemma stable_recalculate_indices t : stable (recalculate_indices t).
Proof. unfold recalculate_indices, to_string. auto 10 with stable. Qed.
Global Hint Resolve stable_recalculate_indices : stable.

Lemma stable_text_insert t i r : stable (text_insert t i r).
Proof. unfold text_insert. auto with stable. Qed.
Global Hint Resolve stable_text_insert : stable.

Lemma stable_text_clear_alignment toks : stable (text_clear_alignment toks).
Proof. induction toks; simpl; auto 10 with stable. Qed.
Global Hint Resolve stable_text_clear_alignment : stable.

Lemma stable_load_all rs : stable (load_all rs).
Proof. induction rs; simpl; auto 10 with stable. Qed.
Global Hint Resolve stable_load_all : stable.

Lemma stable_set_color r key : stable (set_color r key).
Proof. unfold set_color. auto 10 with stable. Qed.
Global Hint Resolve stable_set_color : stable.

Lemma stable_gap_placeholder other consumed :
  stable (gap_placeholder other consumed).
Proof. unfold gap_placeholder. auto 10 with stable. Qed.
Global Hint Resolve stable_gap_placeholder : stable.

Lemma stable_annotate_pair r1 r2 : stable (annotate_pair r1 r2).
Proof. unfold annotate_pair. auto 20 with stable. Qed.
Global Hint Resolve stable_annotate_pair : stable.

Lemma stable_annotate_pairs ps : stable (annotate_pairs ps).
Proof. induction ps as [|[r1 r2] ps IH]; simpl; auto 10 with stable. Qed.
Global Hint Resolve stable_annotate_pairs : stable.

Lemma stable_traceback_loop fuel text1 text2 T i j a1 a2 path :
  stable (traceback_loop fuel text1 text2 T i j a1 a2 path).
Proof.
  revert i j a1 a2 path. induction fuel as [|fuel IH]; intros; simpl;
    auto 20 with stable.
Qed.
Global Hint Resolve stable_traceback_loop : stable.

(** ** The operations of the container succeed on valid references *)

Lemma valid_cons h r rs : valid h (r :: rs) ↔ r < length h ∧ valid h rs.
Proof. unfold valid. by rewrite Forall_cons. Qed.

Lemma load_valid h r : r < length h → ∃ t, load r h = Ok (t, h).
Proof.
  intros [t Ht]%lookup_lt_is_Some_2. exists t. by apply load_Ok.
Qed.

Lemma update_valid h r f :
  r < length h → ∃ h', update r f h = Ok (tt, h') ∧ length h' = length h.
Proof.
  intros [t Ht]%lookup_lt_is_Some_2. exists (<[r := f t]> h). split.
  - apply update_Ok. eauto.
  - by rewrite length_insert.
Qed.

Lemma texts_of_valid h rs : valid h rs → ∃ ts, texts_of rs h = Ok (ts, h).
Proof.
  induction rs as [|r rs IH]; simpl.
  - by exists [].
  - intros [Hr [ts Hts]%IH]%valid_cons.
    destruct (load_valid h r Hr) as [t Ht].
    exists (text t :: ts). apply mbind_Ok. exists t, h. split; [done|].
    apply mbind_Ok. exists ts, h. split; [done|]. by apply mret_Ok.
Qed.

Lemma texts_of_pure h rs ts h' : texts_of rs h = Ok (ts, h') → h' = h.
Proof.
  revert ts. induction rs as [|r rs IH]; simpl; intros ts Hrun.
  - by apply mret_Ok in Hrun as [_ <-].
  - apply mbind_Ok in Hrun as (t & h1 & [Ht ->]%load_Ok & Hrun).
    apply mbind_Ok in Hrun as (ts' & h2 & Hts & [_ <-]%mret_Ok).
    by eapply IH.
Qed.

Lemma recalculate_loop_valid h toks i s :
  valid h toks →
  ∃ h', recalculate_loop toks i s h = Ok (tt, h') ∧ length h' = length h.
Proof.
  revert h i s. induction toks as [|r rest IH]; intros h i s Hv.
  { exists h. split; [by apply mret_Ok|done]. }
  apply valid_cons in Hv as [Hr Hrest].
  destruct (update_valid h r (set_index_start (Z.of_nat i) (Z.of_nat s)) Hr)
    as (h1 & Hupd & Hlen1).
  assert (valid h1 (r :: rest)) as [Hr1 Hrest1]%valid_cons.
  { apply valid_cons. unfold valid in *. rewrite Hlen1. done. }
  assert (∃ offset,
    match rest with
    | [] => mret 0
    | r' :: _ => next_token ← load r';
                 mret (if no_space_needed next_token then 0 else 1)
    end h1 = Ok (offset, h1)) as [offset Hoff].
  { destruct rest as [|r' rest'].
    - exists 0. by apply mret_Ok.
    - apply valid_cons in Hrest1 as [Hr' _].
      destruct (load_valid h1 r' Hr') as [t' Ht'].
      eexists. apply mbind_Ok. exists t', h1. split; [done|]. by apply mret_Ok. }
  destruct (load_valid h1 r Hr1) as [token Htoken].
  destruct (IH h1 (S i) (s + token_len token + offset) Hrest1) as (h' & Hrun & Hlen).
  exists h'. split; [|lia].
  cbn [recalculate_loop]. apply mbind_Ok. exists tt, h1. split; [done|].
  apply mbind_Ok. exists offset, h1. split; [done|].
  apply mbind_Ok. exists token, h1. split; done.
Qed.

Lemma recalculate_indices_tokens t h t' h' :
  recalculate_indices t h = Ok (t', h') → tokens t' = tokens t.
Proof.
  unfold recalculate_indices, to_string. intros Hrun.
  apply mbind_Ok in Hrun as (u & h1 & _ & Hrun).
  apply mbind_Ok in Hrun as (s & h2 & _ & [<- _]%mret_Ok). done.
Qed.

Lemma recalculate_indices_valid h t :
  valid h (tokens t) →
  ∃ t' h', recalculate_indices t h = Ok (t', h') ∧ length h' = length h.
Proof.
  intros Hv.
  destruct (recalculate_loop_valid h (tokens t) 0 0 Hv) as (h' & Hloop & Hlen).
  destruct (texts_of_valid h' (tokens t)) as [ts Hts].
  { unfold valid in *. by rewrite Hlen. }
  eexists _, h'. split; [|done].
  unfold recalculate_indices, to_string.
  apply mbind_Ok. exists tt, h'. split; [done|].
  apply mbind_Ok. eexists _, h'. split; [|by apply mret_Ok].
  apply mbind_Ok. exists ts, h'. split; [done|]. by apply mret_Ok.
Qed.

Lemma text_insert_tokens t r h t' h' :
  text_insert t 0 r h = Ok (t', h') → tokens t' = r :: tokens t.
Proof.
  unfold text_insert. intros ->%recalculate_indices_tokens. simpl.
  unfold list_insert_at. by rewrite take_0, drop_0.
Qed.

Lemma text_insert_valid h t r :
  r < length h → valid h (tokens t) →
  ∃ t' h', text_insert t 0 r h = Ok (t', h') ∧ length h' = length h.
Proof.
  intros Hr Hv. unfold text_insert. apply recalculate_indices_valid. simpl.
  unfold list_insert_at. rewrite take_0, drop_0. by apply valid_cons.
Qed.

Lemma text_clear_alignment_valid h toks :
  valid h toks →
  ∃ h', text_clear_alignment toks h = Ok (tt, h') ∧ length h' = length h.
Proof.
  revert h. induction toks as [|r rest IH]; intros h Hv.
  { exists h. split; [by apply mret_Ok|done]. }
  apply valid_cons in Hv as [Hr Hrest].
  destruct (update_valid h r token_clear_alignment Hr) as (h1 & Hupd & Hlen1).
  destruct (IH h1) as (h' & Hrun & Hlen).
  { unfold valid in *. by rewrite Hlen1. }
  exists h'. split; [|lia]. simpl. apply mbind_Ok. exists tt, h1. done.
Qed.

(** [load_all] reads the objects in order and leaves the store alone. *)
Lemma load_all_Ok rs h ts h' :
  load_all rs h = Ok (ts, h') ↔ h' = h ∧ Forall2 (λ r t, h !! r = Some t) rs ts.
Proof.
  revert ts h'. induction rs as [|r rs IH]; intros ts h'; simpl.
  - rewrite mret_Ok. split.
    + intros [<- <-]. split; [done|constructor].
    + intros [-> ->%Forall2_nil_inv_l]. done.
  - rewrite mbind_Ok. split.
    + intros (t & h1 & [Ht ->]%load_Ok & Hrun).
      apply mbind_Ok in Hrun as (ts' & h2 & [-> Hts]%IH & [<- <-]%mret_Ok).
      split; [done|]. by constructor.
    + intros [-> (t & ts' & Ht & Hts & ->)%Forall2_cons_inv_l].
      exists t, h. split; [by apply load_Ok|].
      apply mbind_Ok. exists ts', h. split; [by apply IH|by apply mret_Ok].
Qed.

Lemma load_all_valid h rs : valid h rs → ∃ ts, load_all rs h = Ok (ts, h).
Proof.
  induction rs as [|r rs IH].
  - intros _. exists []. by apply load_all_Ok.
  - intros [[t Ht]%lookup_lt_is_Some_2 [ts Hts]%IH]%valid_cons.
    exists (t :: ts). apply load_all_Ok. split; [done|].
    apply load_all_Ok in Hts as [_ Hts]. by constructor.
Qed.

(** ** The placeholder opposite a consumed token *)

Lemma gap_placeholder_Ok other consumed h spacer h' :
  gap_placeholder other consumed h = Ok (spacer, h') →
  ∃ c t, h !! consumed = Some c ∧ h' !! spacer = Some t ∧
    cls t = KSpacer ∧ alignment_spaces t = Z.of_nat (token_len c) ∧
    (spacer = other ∨ (spacer = length h ∧ text t = "" ∧ aligned t = true)).
Proof.
  unfold gap_placeholder. intros Hrun.
  apply mbind_Ok in Hrun as (o & h1 & [Ho ->]%load_Ok & Hrun).
  apply mbind_Ok in Hrun as (c & h1 & [Hc ->]%load_Ok & Hrun).
  exists c. destruct (isinstance o KSpacer) eqn:Hsp.
  - apply mbind_Ok in Hrun as ([] & h1 & (o' & Ho' & ->)%update_Ok & [<- <-]%mret_Ok).
    assert (o' = o) as -> by congruence.
    eexists. split; [done|]. split_and!.
    + apply list_lookup_insert_eq. by eapply lookup_lt_Some.
    + unfold isinstance, subclass in Hsp. simpl. by apply bool_decide_eq_true in Hsp.
    + done.
    + by left.
  - apply alloc_Ok in Hrun as [-> ->]. eexists. split; [done|]. split_and!.
    + by apply list_lookup_middle.
    + done.
    + done.
    + right. done.
Qed.

Lemma gap_placeholder_valid h other consumed :
  other < length h → consumed < length h →
  ∃ spacer h', gap_placeholder other consumed h = Ok (spacer, h') ∧
    spacer < length h'.
Proof.
  intros [o Ho]%lookup_lt_is_Some_2 [c Hc]%lookup_lt_is_Some_2.
  unfold gap_placeholder. destruct (isinstance o KSpacer) eqn:Hsp.
  - exists other, (<[other := set_alignment_spaces (Z.of_nat (token_len c)) o]> h).
    split.
    + apply mbind_Ok. exists o, h. split; [by apply load_Ok|].
      apply mbind_Ok. exists c, h. split; [by apply load_Ok|]. rewrite Hsp.
      apply mbind_Ok. exists tt, (<[other := set_alignment_spaces (Z.of_nat (token_len c)) o]> h).
      split; [apply update_Ok; eauto|by apply mret_Ok].
    + rewrite length_insert. by eapply lookup_lt_Some.
  - exists (length h), (h ++ [new_spacer (token_len c)]). split.
    + apply mbind_Ok. exists o, h. split; [by apply load_Ok|].
      apply mbind_Ok. exists c, h. split; [by apply load_Ok|]. rewrite Hsp.
      by apply alloc_Ok.
    + rewrite length_app. simpl. lia.
Qed.

(** ** One pass of the traceback loop *)

(** The three guards of the [if]/[elif] chain. *)
Definition diagonal_guard (trace : string) (i j : nat) : bool :=
  has_tag "D" trace && (0 <? i)%nat && (0 <? j)%nat.
Definition up_guard (trace : string) (i : nat) : bool :=
  has_tag "U" trace && (0 <? i)%nat.
Definition left_guard (trace : string) (j : nat) : bool :=
  has_tag "L" trace && (0 <? j)%nat.

Definition current (toks : list ref) (i : nat) : option ref :=
  toks !! (if (0 <? i)%nat then i - 1 else 0).

Lemma traceback_loop_pass fuel text1 text2 T i j a1 a2 path h trace token1 token2 :
  mget T i j = Ok trace →
  current (tokens text1) i = Some token1 →
  current (tokens text2) j = Some token2 →
  traceback_loop (S fuel) text1 text2 T i j a1 a2 path h =
    if diagonal_guard trace i j then
      (a1' ← text_insert a1 0 token1;
       a2' ← text_insert a2 0 token2;
       traceback_loop fuel text1 text2 T (i - 1) (j - 1) a1' a2'
         (Diagonal :: path)) h
    else if up_guard trace i then
      (spacer ← gap_placeholder token2 token1;
       a1' ← text_insert a1 0 token1;
       a2' ← text_insert a2 0 spacer;
       traceback_loop fuel text1 text2 T (i - 1) j a1' a2' (Up :: path)) h
    else if left_guard trace j then
      (spacer ← gap_placeholder token1 token2;
       a1' ← text_insert a1 0 spacer;
       a2' ← text_insert a2 0 token2;
       traceback_loop fuel text1 text2 T i (j - 1) a1' a2' (Left :: path)) h
    else Ok ((a1, a2, path), h).
Proof.
  intros HT H1 H2. unfold current in *. cbn [traceback_loop].
  unfold mbind at 1, M_bind at 1. unfold lift at 1. rewrite HT.
  unfold mbind at 1, M_bind at 1. unfold lift at 1. rewrite H1. cbn [of_option].
  unfold mbind at 1, M_bind at 1. unfold lift at 1. rewrite H2. cbn [of_option].
  unfold diagonal_guard, up_guard, left_guard.
  destruct (has_tag "D" trace && (0 <? i)%nat && (0 <? j)%nat); [done|].
  destruct (has_tag "U" trace && (0 <? i)%nat); [done|].
  destruct (has_tag "L" trace && (0 <? j)%nat); done.
Qed.

(** A successful pass, case by case. *)
Lemma traceback_loop_inv fuel text1 text2 T i j a1 a2 path h res h' :
  traceback_loop (S fuel) text1 text2 T i j a1 a2 path h = Ok (res, h') →
  ∃ trace token1 token2,
    mget T i j = Ok trace ∧
    current (tokens text1) i = Some token1 ∧
    current (tokens text2) j = Some token2 ∧
    ((diagonal_guard trace i j = true ∧
      ∃ a1' a2' h1,
        tokens a1' = token1 :: tokens a1 ∧ tokens a2' = token2 :: tokens a2 ∧
        extends h h1 ∧
        traceback_loop fuel text1 text2 T (i - 1) (j - 1) a1' a2'
          (Diagonal :: path) h1 = Ok (res, h'))
     ∨ (diagonal_guard trace i j = false ∧ up_guard trace i = true ∧
        ∃ spacer a1' a2' h1,
          tokens a1' = token1 :: tokens a1 ∧ tokens a2' = spacer :: tokens a2 ∧
          extends h h1 ∧
          traceback_loop fuel text1 text2 T (i - 1) j a1' a2'
            (Up :: path) h1 = Ok (res, h'))
     ∨ (diagonal_guard trace i j = false ∧ up_guard trace i = false ∧
        left_guard trace j = true ∧
        ∃ spacer a1' a2' h1,
          tokens a1' = spacer :: tokens a1 ∧ tokens a2' = token2 :: tokens a2 ∧
          extends h h1 ∧
          traceback_loop fuel text1 text2 T i (j - 1) a1' a2'
            (Left :: path) h1 = Ok (res, h'))
     ∨ (diagonal_guard trace i j = false ∧ up_guard trace i = false ∧
        left_guard trace j = false ∧ res = (a1, a2, path) ∧ h' = h)).
Proof.
  intros Hrun.
  assert (∃ trace, mget T i j = Ok trace) as [trace HT].
  { cbn [traceback_loop] in Hrun.
    apply mbind_Ok in Hrun as (trace & h1 & [HT _]%lift_Ok & _). eauto. }
  assert (∃ token1, current (tokens text1) i = Some token1) as [token1 H1].
  { cbn [traceback_loop] in Hrun.
    apply mbind_Ok in Hrun as (? & ? & _ & Hrun).
    apply mbind_Ok in Hrun as (token1 & ? & [H1%of_option_Ok _]%lift_Ok & _).
    eauto. }
  assert (∃ token2, current (tokens text2) j = Some token2) as [token2 H2].
  { cbn [traceback_loop] in Hrun.
    apply mbind_Ok in Hrun as (? & ? & _ & Hrun).
    apply mbind_Ok in Hrun as (? & ? & _ & Hrun).
    apply mbind_Ok in Hrun as (token2 & ? & [H2%of_option_Ok _]%lift_Ok & _).
    eauto. }
  exists trace, token1, token2. split_and!; try done.
  rewrite (traceback_loop_pass _ _ _ _ _ _ _ _ _ _ trace token1 token2) in Hrun
    by done.
  destruct (diagonal_guard trace i j).
  { left. split; [done|].
    apply mbind_Ok in Hrun as (a1' & h1 & Hi1 & Hrun).
    apply mbind_Ok in Hrun as (a2' & h2 & Hi2 & Hrun).
    exists a1', a2', h2. split_and!; try done.
    - by eapply text_insert_tokens.
    - by eapply text_insert_tokens.
    - etrans; by eapply stable_text_insert. }
  right. destruct (up_guard trace i).
  { left. split_and!; try done.
    apply mbind_Ok in Hrun as (spacer & h0 & Hgap & Hrun).
    apply mbind_Ok in Hrun as (a1' & h1 & Hi1 & Hrun).
    apply mbind_Ok in Hrun as (a2' & h2 & Hi2 & Hrun).
    exists spacer, a1', a2', h2. split_and!; try done.
    - by eapply text_insert_tokens.
    - by eapply text_insert_tokens.
    - etrans; [by eapply stable_gap_placeholder|].
      etrans; by eapply stable_text_insert. }
  right. destruct (left_guard trace j).
  { left. split_and!; try done.
    apply mbind_Ok in Hrun as (spacer & h0 & Hgap & Hrun).
    apply mbind_Ok in Hrun as (a1' & h1 & Hi1 & Hrun).
    apply mbind_Ok in Hrun as (a2' & h2 & Hi2 & Hrun).
    exists spacer, a1', a2', h2. split_and!; try done.
    - by eapply text_insert_tokens.
    - by eapply text_insert_tokens.
    - etrans; [by eapply stable_gap_placeholder|].
      etrans; by eapply stable_text_insert. }
  right. injection Hrun as <- <-. done.
Qed.

(** The two sequences grow together. *)
Lemma traceback_loop_lengths fuel text1 text2 T i j a1 a2 path h a1' a2' path' h' :
  traceback_loop fuel text1 text2 T i j a1 a2 path h = Ok ((a1', a2', path'), h') →
  length (tokens a1) = length (tokens a2) →
  length (tokens a1') = length (tokens a2').
Proof.
  revert i j a1 a2 path h. induction fuel as [|fuel IH]; intros i j a1 a2 path h.
  { done. }
  intros (trace & token1 & token2 & _ & _ & _ & Hcases)%traceback_loop_inv Hlen.
  destruct Hcases as [(_ & b1 & b2 & h1 & E1 & E2 & _ & Hrun)
    |[(_ & _ & sp & b1 & b2 & h1 & E1 & E2 & _ & Hrun)
    |[(_ & _ & _ & sp & b1 & b2 & h1 & E1 & E2 & _ & Hrun)
    |(_ & _ & _ & [= <- <- <-] & _)]]]; [..|done];
    (eapply IH; [exact Hrun|]; rewrite E1, E2; simpl; lia).
Qed.

(** ** Numbers *)

Lemma Qgtb_true a b : Qgtb a b = true ↔ (b < a)%Q.
Proof.
  unfold Qgtb. rewrite negb_true_iff, <- not_true_iff_false, Qle_bool_iff.
  split; [apply Qnot_le_lt|apply Qlt_not_le].
Qed.

Lemma Qgtb_false a b : Qgtb a b = false ↔ (a <= b)%Q.
Proof. unfold Qgtb. by rewrite negb_false_iff, Qle_bool_iff. Qed.

Lemma py_max3_cases a b c :
  py_max3 a b c = a ∨ py_max3 a b c = b ∨ py_max3 a b c = c.
Proof.
  unfold py_max3. destruct (Qgtb b a); destruct (Qgtb c _); auto.
Qed.

Lemma py_max3_upper a b c :
  (a <= py_max3 a b c ∧ b <= py_max3 a b c ∧ c <= py_max3 a b c)%Q.
Proof.
  unfold py_max3.
  destruct (Qgtb b a) eqn:Hba; [apply Qgtb_true in Hba|apply Qgtb_false in Hba].
  - destruct (Qgtb c b) eqn:Hc; [apply Qgtb_true in Hc|apply Qgtb_false in Hc];
      split_and!; lra.
  - destruct (Qgtb c a) eqn:Hc; [apply Qgtb_true in Hc|apply Qgtb_false in Hc];
      split_and!; lra.
Qed.

Lemma py_max3_first a b c : (b <= a)%Q → (c <= a)%Q → py_max3 a b c = a.
Proof.
  intros Hb%Qgtb_false Hc%Qgtb_false. unfold py_max3. by rewrite Hb, Hc.
Qed.

Lemma Qeq_bool_true a b : Qeq_bool a b = true ↔ (a == b)%Q.
Proof. apply Qeq_bool_iff. Qed.

(** ** The tags of a cell *)

Lemma has_tag_tags_of max_score match_ delete insert :
  has_tag "D" (tags_of max_score match_ delete insert) = Qeq_bool max_score match_ ∧
  has_tag "U" (tags_of max_score match_ delete insert) = Qeq_bool max_score delete ∧
  has_tag "L" (tags_of max_score match_ delete insert) = Qeq_bool max_score insert.
Proof.
  unfold tags_of.
  destruct (Qeq_bool max_score match_), (Qeq_bool max_score delete),
    (Qeq_bool max_score insert); done.
Qed.

Lemma tags_of_max match_ delete insert :
  let max_score := py_max3 match_ delete insert in
  Qeq_bool max_score match_ || Qeq_bool max_score delete
    || Qeq_bool max_score insert = true.
Proof.
  simpl. destruct (py_max3_cases match_ delete insert) as [->|[->| ->]];
    rewrite ?orb_true_iff, !Qeq_bool_true; auto using Qeq_refl.
Qed.

(** ** The length of the common substring *)

Lemma substring_length_le n m s : String.length (String.substring n m s) ≤ m.
Proof.
  revert n m. induction s as [|c s IH]; intros [|n] [|m]; simpl; try lia.
  - specialize (IH 0 m). lia.
  - apply IH.
  - apply IH.
Qed.

Lemma clamp_le n i : PyStr.clamp n i ≤ n.
Proof. unfold PyStr.clamp. case_match; lia. Qed.

Lemma slice_length_le s a b : PyStr.len (PyStr.slice s a b) ≤ PyStr.len s.
Proof.
  unfold PyStr.slice, PyStr.len.
  etrans; [apply substring_length_le|].
  pose proof (clamp_le (String.length s) b). lia.
Qed.

Lemma longest_common_substring_length s1 s2 :
  PyStr.len (longest_common_substring s1 s2) ≤ PyStr.len s1.
Proof.
  unfold longest_common_substring. destruct (lcs_table s1 s2) as [[dp l] row].
  case_match; [unfold PyStr.len; simpl; lia|apply slice_length_le].
Qed.

(** ** Scoring tokens that carry no original *)

Lemma Qnat_div_le_1 a b : a ≤ b → b ≠ 0 → (Qnat a / Qnat b <= 1)%Q.
Proof.
  intros Hab Hb. unfold Qnat. apply Qle_shift_div_r.
  - change 0%Q with (inject_Z 0). rewrite <- Zlt_Qlt. lia.
  - rewrite Qmult_1_l. rewrite <- Zle_Qle. lia.
Qed.

Lemma string_eqb_false_len s1 s2 :
  String.eqb s1 s2 = false → Nat.max (PyStr.len s1) (PyStr.len s2) ≠ 0.
Proof.
  intros Hne Hmax. unfold PyStr.len in Hmax.
  destruct s1, s2; simpl in *; (done || lia).
Qed.

(** Without an original, the mismatch branch cannot fail. *)
Lemma scorable_no_original p token1 token2 :
  original token1 = None → scorable p token1 token2.
Proof.
  intros Ho. unfold scorable, match_candidate.
  destruct (String.eqb (text token1) (text token2)) eqn:Heq; [eauto|].
  unfold mismatch_score_adjusted, comparison_source. rewrite Ho.
  unfold py_div. apply string_eqb_false_len in Heq.
  apply Nat.eqb_neq in Heq. rewrite Heq. simpl. eauto.
Qed.

(** Without an original, and with the default constants, [match] is at most
    one above the diagonal neighbour. *)
Lemma match_candidate_le prev token1 token2 q :
  original token1 = None →
  match_candidate default_scoring prev token1 token2 = Ok q →
  (q <= prev + 1)%Q.
Proof.
  intros Ho. unfold match_candidate.
  destruct (String.eqb (text token1) (text token2)) eqn:Heq.
  { intros [= <-]. simpl. lra. }
  unfold mismatch_score_adjusted, comparison_source. rewrite Ho.
  unfold py_div. pose proof (string_eqb_false_len _ _ Heq) as Hmax.
  destruct (Nat.eqb_spec (Nat.max (PyStr.len (text token1)) (PyStr.len (text token2))) 0)
    as [|_]; [done|].
  simpl. intros [= <-].
  pose proof (Qnat_div_le_1
    (PyStr.len (longest_common_substring (text token1) (text token2)))
    (Nat.max (PyStr.len (text token1)) (PyStr.len (text token2)))) as Hr.
  pose proof (longest_common_substring_length (text token1) (text token2)).
  specialize (Hr ltac:(lia) Hmax).
  destruct (_ && _); lra.
Qed.

Lemma match_candidate_same p prev token :
  match_candidate p prev token token = Ok (prev + match_score p)%Q.
Proof. unfold match_candidate. by rewrite String.eqb_refl. Qed.

(** ** A sequence scored against itself *)

Section self_scoring.
Variable ts : list Token.
Hypothesis no_original : Forall (λ t, original t = None) ts.
Variables (S : matrix Q) (T : matrix string).
Hypothesis Hscored : scored default_scoring ts ts S T.

Let n := length ts.

(** No alignment of a prefix of length [i] with one of length [j] scores
    more than [min i j] matches and [|i - j|] gaps. *)
Definition score_bound (i j : nat) : Z :=
  (3 * Z.min (Z.of_nat i) (Z.of_nat j) - Z.of_nat i - Z.of_nat j)%Z.

Lemma Qle_shift v z c z' :
  (v <= inject_Z z)%Q → (z + c ≤ z')%Z → (v + inject_Z c <= inject_Z z')%Q.
Proof.
  intros Hv Hz. rewrite Zle_Qle, inject_Z_plus in Hz. lra.
Qed.

Lemma self_score_bound i j v :
  i ≤ n → j ≤ n → mget S i j = Ok v → (v <= inject_Z (score_bound i j))%Q.
Proof.
  remember (i + j) as k eqn:Hk. revert i j Hk v.
  induction k as [k IH] using lt_wf_ind. intros i j -> v Hi Hj Hv.
  destruct Hscored as (_ & _ & Hcol & Hrow & Hin).
  destruct j as [|j'].
  { destruct (Hcol i) as [Hv' _]; [fold n; lia|]. rewrite Hv in Hv'.
    injection Hv' as ->. simpl. unfold Qnat, score_bound.
    change (-1)%Q with (inject_Z (-1)). rewrite <- inject_Z_mult, <- Zle_Qle. lia. }
  destruct i as [|i'].
  { destruct (Hrow (Datatypes.S j')) as [Hv' _]; [fold n; lia|]. rewrite Hv in Hv'.
    injection Hv' as ->. simpl. unfold Qnat, score_bound.
    change (-1)%Q with (inject_Z (-1)). rewrite <- inject_Z_mult, <- Zle_Qle. lia. }
  destruct (Hin (Datatypes.S i') (Datatypes.S j'))
    as (t1 & t2 & prev & up & left & mt & Ht1 & Ht2 & Hprev & Hmt & Hup & Hleft & Hmax & _).
  { unfold inner. fold n. lia. }
  simpl in Ht1, Ht2, Hprev, Hup, Hleft. rewrite Nat.sub_0_r in *.
  rewrite Hv in Hmax. injection Hmax as ->.
  assert (original t1 = None) as Ho.
  { rewrite Forall_lookup in no_original. by eapply no_original. }
  apply match_candidate_le in Hmt; [|done].
  apply (IH (i' + j')) in Hprev; [|lia..].
  apply (IH (i' + Datatypes.S j')) in Hup; [|lia..].
  apply (IH (Datatypes.S i' + j')) in Hleft; [|lia..].
  match goal with
  | |- (py_max3 ?a ?b ?c <= _)%Q =>
      destruct (py_max3_cases a b c) as [->|[->| ->]]
  end.
  - eapply Qle_trans; [exact Hmt|].
    eapply (Qle_shift _ _ 1); [exact Hprev|]. unfold score_bound. lia.
  - eapply (Qle_shift _ _ (-1)); [exact Hup|]. unfold score_bound. lia.
  - eapply (Qle_shift _ _ (-1)); [exact Hleft|]. unfold score_bound. lia.
Qed.

(** On the main diagonal the score is the number of tokens passed, and the
    cell is tagged as reached diagonally. *)
Lemma self_score_diagonal k :
  k ≤ n →
  ∃ v, mget S k k = Ok v ∧ (v == Qnat k)%Q ∧
    (0 < k → ∃ trace, mget T k k = Ok trace ∧ has_tag "D" trace = true).
Proof.
  induction k as [|k IH]; intros Hk.
  { destruct Hscored as (_ & _ & Hcol & _).
    destruct (Hcol 0) as [Hv _]; [lia|]. eexists. split; [exact Hv|].
    split; [|lia]. by vm_compute. }
  destruct IH as (v' & Hv' & Hv'k & _); [lia|].
  pose proof Hscored as (_ & _ & _ & _ & Hin).
  destruct (Hin (Datatypes.S k) (Datatypes.S k))
    as (t1 & t2 & prev & up & left & mt & Ht1 & Ht2 & Hprev & Hmt & Hup & Hleft & Hmax & Htag).
  { unfold inner. fold n. lia. }
  simpl in Ht1, Ht2, Hprev, Hup, Hleft. rewrite Nat.sub_0_r in *.
  assert (t2 = t1) as -> by congruence.
  assert (prev = v') as -> by congruence.
  rewrite match_candidate_same in Hmt. injection Hmt as <-.
  apply self_score_bound in Hup; [|lia..].
  apply self_score_bound in Hleft; [|lia..].
  assert (Qnat (Datatypes.S k) == Qnat k + 1)%Q as HS.
  { unfold Qnat. rewrite Nat2Z.inj_succ, <- Z.add_1_r, inject_Z_plus. done. }
  assert (inject_Z (score_bound k (Datatypes.S k)) == Qnat k - 1)%Q as Hb1.
  { unfold score_bound, Qnat.
    replace (3 * Z.min (Z.of_nat k) (Z.of_nat (Datatypes.S k)) - Z.of_nat k
             - Z.of_nat (Datatypes.S k))%Z with (Z.of_nat k + -1)%Z by lia.
    rewrite inject_Z_plus. change (inject_Z (-1)) with (-1)%Q. lra. }
  assert (inject_Z (score_bound (Datatypes.S k) k) == Qnat k - 1)%Q as Hb2.
  { unfold score_bound, Qnat.
    replace (3 * Z.min (Z.of_nat (Datatypes.S k)) (Z.of_nat k)
             - Z.of_nat (Datatypes.S k) - Z.of_nat k)%Z with (Z.of_nat k + -1)%Z by lia.
    rewrite inject_Z_plus. change (inject_Z (-1)) with (-1)%Q. lra. }
  rewrite py_max3_first in Hmax, Htag; [|simpl; lra..].
  eexists. split; [exact Hmax|]. split; [simpl; lra|].
  intros _. eexists. split; [exact Htag|].
  match goal with
  | |- has_tag "D" (tags_of ?a ?b ?c ?d) = true =>
      destruct (has_tag_tags_of a b c d) as [-> _]
  end.
  apply Qeq_bool_true. reflexivity.
Qed.
End self_scoring.

(** ** The walk reaches the origin *)

(** Every cell but the origin offers a move. *)
Definition walkable (T : matrix string) (n m : nat) : Prop :=
  ∀ i j trace, i ≤ n → j ≤ m → 0 < i + j → mget T i j = Ok trace →
    diagonal_guard trace i j || up_guard trace i || left_guard trace j = true.

Lemma scored_walkable p s1_tokens s2_tokens SM T :
  scored p s1_tokens s2_tokens SM T →
  walkable T (length s1_tokens) (length s2_tokens).
Proof.
  intros (_ & _ & Hcol & Hrow & Hin) i j trace Hi Hj Hpos Htrace.
  destruct j as [|j'].
  { destruct (Hcol i) as [_ HT]; [lia|]. rewrite Htrace in HT.
    injection HT as ->. destruct i; [lia|]. done. }
  destruct i as [|i'].
  { destruct (Hrow (S j')) as [_ HT]; [lia|]. rewrite Htrace in HT.
    by injection HT as ->. }
  destruct (Hin (S i') (S j')) as (t1 & t2 & prev & up & left & mt & _ & _ & _ & _ & _ & _ & _ & HT).
  { unfold inner. lia. }
  rewrite Htrace in HT. injection HT as ->.
  unfold diagonal_guard, up_guard, left_guard.
  match goal with
  | |- context [tags_of ?a ?b ?c ?d] =>
      destruct (has_tag_tags_of a b c d) as (-> & -> & ->)
  end.
  simpl. rewrite !andb_true_r. apply tags_of_max.
Qed.

Section walk.
Variables text1 text2 : Text.
Variable T : matrix string.
Let n := length (tokens text1).
Let m := length (tokens text2).

Lemma current_pos toks i r :
  0 < i → current toks i = Some r → toks !! (i - 1) = Some r.
Proof. intros Hi. unfold current. by destruct i; [lia|]. Qed.

Lemma guard_pos_i trace i j : diagonal_guard trace i j = true → 0 < i ∧ 0 < j.
Proof.
  unfold diagonal_guard. rewrite !andb_true_iff, !Nat.ltb_lt. tauto.
Qed.

Lemma up_guard_pos trace i : up_guard trace i = true → 0 < i.
Proof. unfold up_guard. rewrite andb_true_iff, Nat.ltb_lt. tauto. Qed.

Lemma left_guard_pos trace j : left_guard trace j = true → 0 < j.
Proof. unfold left_guard. rewrite andb_true_iff, Nat.ltb_lt. tauto. Qed.

(** The output sequences hold the input objects, in order, with placeholders
    in between. *)
Lemma traceback_loop_sublist fuel i j a1 a2 path h a1' a2' path' h' :
  walkable T n m → i ≤ n → j ≤ m →
  traceback_loop fuel text1 text2 T i j a1 a2 path h = Ok ((a1', a2', path'), h') →
  ∃ new1 new2,
    tokens a1' = new1 ++ tokens a1 ∧ tokens a2' = new2 ++ tokens a2 ∧
    take i (tokens text1) `sublist_of` new1 ∧
    take j (tokens text2) `sublist_of` new2.
Proof.
  intros Hwalk. revert i j a1 a2 path h.
  induction fuel as [|fuel IH]; intros i j a1 a2 path h Hi Hj; [done|].
  intros (trace & token1 & token2 & HT & H1 & H2 & Hcases)%traceback_loop_inv.
  destruct Hcases as [(Hd & b1 & b2 & h1 & E1 & E2 & _ & Hrun)
    |[(_ & Hu & sp & b1 & b2 & h1 & E1 & E2 & _ & Hrun)
    |[(_ & _ & Hl & sp & b1 & b2 & h1 & E1 & E2 & _ & Hrun)
    |(Hd & Hu & Hl & [= <- <- <-] & _)]]].
  - apply guard_pos_i in Hd as [Hi0 Hj0].
    apply current_pos in H1; [|done]. apply current_pos in H2; [|done].
    apply IH in Hrun as (new1 & new2 & -> & -> & Hs1 & Hs2); [|lia..].
    exists (new1 ++ [token1]), (new2 ++ [token2]).
    rewrite E1, E2, <- !app_assoc. split_and!; try done.
    + replace i with (S (i - 1)) by lia. erewrite take_S_r by done.
      by apply sublist_app.
    + replace j with (S (j - 1)) by lia. erewrite take_S_r by done.
      by apply sublist_app.
  - apply up_guard_pos in Hu. apply current_pos in H1; [|done].
    apply IH in Hrun as (new1 & new2 & -> & -> & Hs1 & Hs2); [|lia..].
    exists (new1 ++ [token1]), (new2 ++ [sp]).
    rewrite E1, E2, <- !app_assoc. split_and!; try done.
    + replace i with (S (i - 1)) by lia. erewrite take_S_r by done.
      by apply sublist_app.
    + by apply sublist_inserts_r.
  - apply left_guard_pos in Hl. apply current_pos in H2; [|done].
    apply IH in Hrun as (new1 & new2 & -> & -> & Hs1 & Hs2); [|lia..].
    exists (new1 ++ [sp]), (new2 ++ [token2]).
    rewrite E1, E2, <- !app_assoc. split_and!; try done.
    + by apply sublist_inserts_r.
    + replace j with (S (j - 1)) by lia. erewrite take_S_r by done.
      by apply sublist_app.
  - destruct (decide (0 < i + j)) as [Hpos|Hzero].
    { specialize (Hwalk i j trace Hi Hj Hpos HT).
      rewrite Hd, Hu, Hl in Hwalk. done. }
    assert (i = 0 ∧ j = 0) as [-> ->] by lia.
    exists [], []. split_and!; try done.
Qed.

(** The walk does not raise. *)
Lemma traceback_loop_total fuel i j a1 a2 path h :
  0 < n → 0 < m → shape T (n + 1) (m + 1) →
  i ≤ n → j ≤ m → i + j < fuel →
  valid h (tokens text1) → valid h (tokens text2) →
  valid h (tokens a1) → valid h (tokens a2) →
  ∃ a1' a2' path' h',
    traceback_loop fuel text1 text2 T i j a1 a2 path h = Ok ((a1', a2', path'), h') ∧
    valid h' (tokens a1') ∧ valid h' (tokens a2').
Proof.
  intros Hn Hm Hshape. revert i j a1 a2 path h.
  induction fuel as [|fuel IH]; intros i j a1 a2 path h Hi Hj Hfuel Hv1 Hv2 Ha1 Ha2;
    [lia|].
  destruct (mget_in_shape T (n + 1) (m + 1) i j) as [trace HT]; [done|lia|lia|].
  destruct (lookup_lt_is_Some_2 (tokens text1) (if (0 <? i)%nat then i - 1 else 0))
    as [token1 H1].
  { fold n. destruct (Nat.ltb_spec 0 i); lia. }
  destruct (lookup_lt_is_Some_2 (tokens text2) (if (0 <? j)%nat then j - 1 else 0))
    as [token2 H2].
  { fold m. destruct (Nat.ltb_spec 0 j); lia. }
  assert (token1 < length h) as Hr1.
  { unfold valid in Hv1. rewrite Forall_lookup in Hv1. by eapply Hv1. }
  assert (token2 < length h) as Hr2.
  { unfold valid in Hv2. rewrite Forall_lookup in Hv2. by eapply Hv2. }
  rewrite (traceback_loop_pass _ _ _ _ _ _ _ _ _ _ trace token1 token2) by done.
  assert (∀ h1 rs, length h ≤ length h1 → valid h rs → valid h1 rs) as Hmono.
  { intros h1 rs Hle Hv. eapply Forall_impl; [exact Hv|]. simpl. lia. }
  destruct (diagonal_guard trace i j) eqn:Hd.
  { apply guard_pos_i in Hd as [Hi0 Hj0].
    destruct (text_insert_valid h a1 token1) as (b1 & h1 & Hb1 & Hl1); [done..|].
    destruct (text_insert_valid h1 a2 token2) as (b2 & h2 & Hb2 & Hl2);
      [lia|apply (Hmono h1); [lia|done]|].
    destruct (IH (i - 1) (j - 1) b1 b2 (Diagonal :: path) h2)
      as (a1' & a2' & path' & h' & Hrun & Hv); try lia.
    - apply (Hmono h2); [lia|done].
    - apply (Hmono h2); [lia|done].
    - rewrite (text_insert_tokens _ _ _ _ _ Hb1). apply valid_cons.
      split; [lia|]. apply (Hmono h2); [lia|done].
    - rewrite (text_insert_tokens _ _ _ _ _ Hb2). apply valid_cons.
      split; [lia|]. apply (Hmono h2); [lia|done].
    - exists a1', a2', path', h'. split; [|done].
      apply mbind_Ok. exists b1, h1. split; [done|].
      apply mbind_Ok. exists b2, h2. split; done. }
  destruct (up_guard trace i) eqn:Hu.
  { apply up_guard_pos in Hu.
    destruct (gap_placeholder_valid h token2 token1) as (sp & h0 & Hsp & Hsp0);
      [done..|].
    pose proof (extends_length _ _ (stable_gap_placeholder _ _ _ _ _ Hsp)) as Hl0.
    destruct (text_insert_valid h0 a1 token1) as (b1 & h1 & Hb1 & Hl1);
      [lia|apply (Hmono h0); [lia|done]|].
    destruct (text_insert_valid h1 a2 sp) as (b2 & h2 & Hb2 & Hl2);
      [lia|apply (Hmono h1); [lia|done]|].
    destruct (IH (i - 1) j b1 b2 (Up :: path) h2)
      as (a1' & a2' & path' & h' & Hrun & Hv); try lia.
    - apply (Hmono h2); [lia|done].
    - apply (Hmono h2); [lia|done].
    - rewrite (text_insert_tokens _ _ _ _ _ Hb1). apply valid_cons.
      split; [lia|]. apply (Hmono h2); [lia|done].
    - rewrite (text_insert_tokens _ _ _ _ _ Hb2). apply valid_cons.
      split; [lia|]. apply (Hmono h2); [lia|done].
    - exists a1', a2', path', h'. split; [|done].
      apply mbind_Ok. exists sp, h0. split; [done|].
      apply mbind_Ok. exists b1, h1. split; [done|].
      apply mbind_Ok. exists b2, h2. split; done. }
  destruct (left_guard trace j) eqn:Hl.
  { apply left_guard_pos in Hl.
    destruct (gap_placeholder_valid h token1 token2) as (sp & h0 & Hsp & Hsp0);
      [done..|].
    pose proof (extends_length _ _ (stable_gap_placeholder _ _ _ _ _ Hsp)) as Hl0.
    destruct (text_insert_valid h0 a1 sp) as (b1 & h1 & Hb1 & Hl1);
      [lia|apply (Hmono h0); [lia|done]|].
    destruct (text_insert_valid h1 a2 token2) as (b2 & h2 & Hb2 & Hl2);
      [lia|apply (Hmono h1); [lia|done]|].
    destruct (IH i (j - 1) b1 b2 (Left :: path) h2)
      as (a1' & a2' & path' & h' & Hrun & Hv); try lia.
    - apply (Hmono h2); [lia|done].
    - apply (Hmono h2); [lia|done].
    - rewrite (text_insert_tokens _ _ _ _ _ Hb1). apply valid_cons.
      split; [lia|]. apply (Hmono h2); [lia|done].
    - rewrite (text_insert_tokens _ _ _ _ _ Hb2). apply valid_cons.
      split; [lia|]. apply (Hmono h2); [lia|done].
    - exists a1', a2', path', h'. split; [|done].
      apply mbind_Ok. exists sp, h0. split; [done|].
      apply mbind_Ok. exists b1, h1. split; [done|].
      apply mbind_Ok. exists b2, h2. split; done. }
  exists a1, a2, path, h. done.
Qed.

(** Along a diagonal of cells tagged [D] the walk only moves diagonally. *)
Lemma traceback_loop_diagonal fuel k a1 a2 path h a1' a2' path' h' :
  (∀ k', 0 < k' ≤ k → ∃ trace, mget T k' k' = Ok trace ∧ has_tag "D" trace = true) →
  mget T 0 0 = Ok "" → k ≤ n → k ≤ m →
  traceback_loop fuel text1 text2 T k k a1 a2 path h = Ok ((a1', a2', path'), h') →
  path' = replicate k Diagonal ++ path ∧
  tokens a1' = take k (tokens text1) ++ tokens a1 ∧
  tokens a2' = take k (tokens text2) ++ tokens a2.
Proof.
  intros Hdiag H00. revert k a1 a2 path h Hdiag.
  induction fuel as [|fuel IH]; intros k a1 a2 path h Hdiag Hn Hm; [done|].
  intros (trace & token1 & token2 & HT & H1 & H2 & Hcases)%traceback_loop_inv.
  destruct k as [|k].
  { rewrite H00 in HT. injection HT as <-.
    destruct Hcases as [(Hd & _)|[(_ & Hu & _)|[(_ & _ & Hl & _)
      |(_ & _ & _ & [= <- <- <-] & _)]]]; done. }
  destruct (Hdiag (S k)) as (trace' & HT' & HD); [lia|].
  assert (trace' = trace) as -> by congruence.
  assert (diagonal_guard trace (S k) (S k) = true) as Hd
    by (unfold diagonal_guard; by rewrite HD).
  destruct Hcases as [(_ & b1 & b2 & h1 & E1 & E2 & _ & Hrun)
    |[(Hd' & _)|[(Hd' & _)|(Hd' & _)]]]; try congruence.
  simpl in Hrun. rewrite Nat.sub_0_r in Hrun.
  apply IH in Hrun as (-> & -> & ->); [|intros; apply Hdiag; lia|lia..].
  apply current_pos in H1; [|lia]. apply current_pos in H2; [|lia].
  simpl in H1, H2. rewrite ?Nat.sub_0_r in H1, H2.
  rewrite E1, E2. split_and!.
  - rewrite replicate_S_end, <- app_assoc. reflexivity.
  - erewrite take_S_r by done. by rewrite <- app_assoc.
  - erewrite take_S_r by done. by rewrite <- app_assoc.
Qed.
End walk.

(** ** The pieces of align_sentences *)

Lemma Text_new_Ok h : Text_new h = Ok ({| tokens := []; _text := Some "" |}, h).
Proof. done. Qed.

Lemma valid_length h h' rs : length h ≤ length h' → valid h rs → valid h' rs.
Proof. intros Hle Hv. eapply Forall_impl; [exact Hv|]. simpl. lia. Qed.

Lemma annotate_pair_valid h r1 r2 :
  r1 < length h → r2 < length h →
  ∃ h', annotate_pair r1 r2 h = Ok (tt, h') ∧ length h' = length h.
Proof.
  intros [w1 Hw1]%lookup_lt_is_Some_2 [w2 Hw2]%lookup_lt_is_Some_2.
  unfold annotate_pair.
  destruct (negb (String.eqb (text w1) (text w2))) eqn:Hne.
  - set (max_len := Nat.max (token_len w1) (token_len w2)).
    set (key := if isinstance w1 KSpacer then "b"
                else if isinstance w2 KSpacer then "p" else "r").
    assert (∃ c, COLOR_MAPPING key = Some c) as [c Hc].
    { unfold key. destruct (isinstance w1 KSpacer), (isinstance w2 KSpacer);
        by eexists. }
    assert (∀ h0 r f, r < length h0 →
      ∃ h1, update r f h0 = Ok (tt, h1) ∧ length h1 = length h0) as Hupd
      by (intros; by apply update_valid).
    pose proof (lookup_lt_Some _ _ _ Hw1) as Hr1.
    pose proof (lookup_lt_Some _ _ _ Hw2) as Hr2.
    destruct (Hupd h r1 (set_alignment_spaces (Z.of_nat max_len - Z.of_nat (token_len w1))))
      as (h1 & U1 & L1); [done|].
    destruct (Hupd h1 r2 (set_alignment_spaces (Z.of_nat max_len - Z.of_nat (token_len w2))))
      as (h2 & U2 & L2); [lia|].
    destruct (Hupd h2 r1 (set_aligned true)) as (h3 & U3 & L3); [lia|].
    destruct (Hupd h3 r2 (set_aligned true)) as (h4 & U4 & L4); [lia|].
    destruct (Hupd h4 r1 (set_color_field (Some c))) as (h5 & U5 & L5); [lia|].
    destruct (Hupd h5 r2 (set_color_field (Some c))) as (h6 & U6 & L6); [lia|].
    exists h6. split; [|lia].
    apply mbind_Ok. exists w1, h. split; [by apply load_Ok|].
    apply mbind_Ok. exists w2, h. split; [by apply load_Ok|].
    rewrite Hne. fold max_len key.
    apply mbind_Ok. exists tt, h1. split; [done|].
    apply mbind_Ok. exists tt, h2. split; [done|].
    apply mbind_Ok. exists tt, h3. split; [done|].
    apply mbind_Ok. exists tt, h4. split; [done|].
    apply mbind_Ok. exists tt, h5. split.
    { apply mbind_Ok. exists c, h4. split; [apply lift_Ok; by rewrite Hc|done]. }
    apply mbind_Ok. exists c, h5. split; [apply lift_Ok; by rewrite Hc|done].
  - exists h. split; [|done].
    apply mbind_Ok. exists w1, h. split; [by apply load_Ok|].
    apply mbind_Ok. exists w2, h. split; [by apply load_Ok|].
    rewrite Hne. by apply mret_Ok.
Qed.

Lemma annotate_pairs_valid h ps :
  Forall (λ p, p.1 < length h ∧ p.2 < length h) ps →
  ∃ h', annotate_pairs ps h = Ok (tt, h') ∧ length h' = length h.
Proof.
  revert h. induction ps as [|[r1 r2] ps IH]; intros h Hv.
  { exists h. split; [by apply mret_Ok|done]. }
  apply Forall_cons in Hv as [[Hr1 Hr2] Hps]. simpl in *.
  destruct (annotate_pair_valid h r1 r2) as (h1 & H1 & L1); [done..|].
  destruct (IH h1) as (h' & Hrun & L).
  { eapply Forall_impl; [exact Hps|]. simpl. intros ?. lia. }
  exists h'. split; [|lia]. apply mbind_Ok. exists tt, h1. done.
Qed.

Lemma valid_zip h rs1 rs2 :
  valid h rs1 → valid h rs2 →
  Forall (λ p, p.1 < length h ∧ p.2 < length h) (zip rs1 rs2).
Proof.
  intros H1. revert rs2. induction H1 as [|r1 rs1 Hr1 _ IH]; intros rs2 H2.
  { constructor. }
  destruct H2 as [|r2 rs2 Hr2 H2]; simpl; [constructor|].
  constructor; [done|]. by apply IH.
Qed.

(** The scorer, taken apart. *)
Lemma scorer_Ok text1 text2 p h SM TM h1 :
  needleman_wunsch_alignment_words_substring text1 text2 p h = Ok ((SM, TM), h1) →
  ∃ s1_tokens s2_tokens,
    Forall2 (λ r t, h1 !! r = Some t) (tokens text1) s1_tokens ∧
    Forall2 (λ r t, h1 !! r = Some t) (tokens text2) s2_tokens ∧
    fill_matrices p s1_tokens s2_tokens = Ok (SM, TM) ∧
    extends h h1.
Proof.
  unfold needleman_wunsch_alignment_words_substring. intros Hrun.
  apply mbind_Ok in Hrun as ([] & ha & Hc1 & Hrun).
  apply mbind_Ok in Hrun as ([] & hb & Hc2 & Hrun).
  apply mbind_Ok in Hrun as (s1 & hc & [-> Hs1]%load_all_Ok & Hrun).
  apply mbind_Ok in Hrun as (s2 & hd & [-> Hs2]%load_all_Ok & Hrun).
  apply lift_Ok in Hrun as [Hfill ->].
  exists s1, s2. split_and!; try done.
  etrans; by eapply stable_text_clear_alignment.
Qed.

(** Scoring reads the class, the text and the original only. *)
Lemma match_candidate_core p prev t1 t2 u1 u2 :
  core t1 = core u1 → core t2 = core u2 →
  match_candidate p prev t1 t2 = match_candidate p prev u1 u2.
Proof.
  destruct t1 as [k1 x1 ? ? ? ? ? ? o1 ?], t2 as [k2 x2 ? ? ? ? ? ? o2 ?],
    u1 as [k1' x1' ? ? ? ? ? ? o1' ?], u2 as [k2' x2' ? ? ? ? ? ? o2' ?].
  unfold core. simpl. intros [= <- <- <-] [= <- <- <-].
  unfold match_candidate, mismatch_score_adjusted, comparison_source. simpl.
  by destruct o1.
Qed.

(** The scorer returns when every pair of tokens can be scored. *)
Lemma scorer_total text1 text2 p h :
  valid h (tokens text1) → valid h (tokens text2) →
  (∀ r1 r2 t1 t2, r1 ∈ tokens text1 → r2 ∈ tokens text2 →
     h !! r1 = Some t1 → h !! r2 = Some t2 → scorable p t1 t2) →
  ∃ SM TM h1,
    needleman_wunsch_alignment_words_substring text1 text2 p h = Ok ((SM, TM), h1) ∧
    length h1 = length h.
Proof.
  intros Hv1 Hv2 Hsc.
  destruct (text_clear_alignment_valid h (tokens text1) Hv1) as (ha & Ha & La).
  destruct (text_clear_alignment_valid ha (tokens text2)) as (hb & Hb & Lb).
  { eapply valid_length; [|done]. lia. }
  assert (extends h hb) as Hext.
  { etrans; by eapply stable_text_clear_alignment. }
  destruct (load_all_valid hb (tokens text1)) as [s1 Hs1].
  { eapply valid_length; [|done]. lia. }
  destruct (load_all_valid hb (tokens text2)) as [s2 Hs2].
  { eapply valid_length; [|done]. lia. }
  pose proof Hs1 as [_ F1]%load_all_Ok. pose proof Hs2 as [_ F2]%load_all_Ok.
  destruct (fill_matrices_total p s1 s2) as (SM & TM & Hfill).
  { intros t1 t2 [k1 Hk1]%list_elem_of_lookup_1 [k2 Hk2]%list_elem_of_lookup_1.
    destruct (Forall2_lookup_r _ _ _ _ _ F1 Hk1) as (r1 & Hr1 & Ht1).
    destruct (Forall2_lookup_r _ _ _ _ _ F2 Hk2) as (r2 & Hr2 & Ht2).
    destruct (valid_lookup h _ _ _ Hv1 Hr1) as [u1 Hu1].
    destruct (valid_lookup h _ _ _ Hv2 Hr2) as [u2 Hu2].
    destruct (extends_lookup _ _ _ _ Hext Hu1) as (t1' & Ht1' & Hc1).
    destruct (extends_lookup _ _ _ _ Hext Hu2) as (t2' & Ht2' & Hc2).
    assert (t1' = t1) as -> by congruence.
    assert (t2' = t2) as -> by congruence.
    specialize (Hsc r1 r2 u1 u2 ltac:(by eapply list_elem_of_lookup_2)
      ltac:(by eapply list_elem_of_lookup_2) Hu1 Hu2).
    unfold scorable in *.
    by rewrite (match_candidate_core p 0 t1 t2 u1 u2). }
  exists SM, TM, hb. split; [|lia].
  unfold needleman_wunsch_alignment_words_substring.
  apply mbind_Ok. exists tt, ha. split; [done|].
  apply mbind_Ok. exists tt, hb. split; [done|].
  apply mbind_Ok. exists s1, hb. split; [done|].
  apply mbind_Ok. exists s2, hb. split; [done|].
  apply lift_Ok. done.
Qed.

(** The reconstructor, taken apart. *)
Lemma reconstructor_Ok text1 text2 TM h b1 b2 path h' :
  get_alignment_and_visualization_words text1 text2 TM h = Ok ((b1, b2, path), h') →
  ∃ h1,
    traceback_loop (S (length (tokens text1) + length (tokens text2)))
      text1 text2 TM (length (tokens text1)) (length (tokens text2))
      {| tokens := []; _text := Some "" |} {| tokens := []; _text := Some "" |}
      [] h = Ok ((b1, b2, path), h1) ∧
    annotate_pairs (zip (tokens b1) (tokens b2)) h1 = Ok (tt, h').
Proof.
  unfold get_alignment_and_visualization_words. intros Hrun.
  apply mbind_Ok in Hrun as (e1 & ha & He1 & Hrun).
  rewrite Text_new_Ok in He1. injection He1 as <- <-.
  apply mbind_Ok in Hrun as (e2 & hb & He2 & Hrun).
  rewrite Text_new_Ok in He2. injection He2 as <- <-.
  apply mbind_Ok in Hrun as ([[c1 c2] cp] & h1 & Hloop & Hrun).
  apply mbind_Ok in Hrun as ([] & h2 & Hann & [[= <- <- <-] <-]%mret_Ok).
  eauto.
Qed.

(** [align_sentences], taken apart. *)
Lemma align_sentences_Ok text1 text2 h a h' :
  align_sentences text1 text2 h = Ok (a, h') →
  ∃ h1 b1 b2 h2 h3,
    needleman_wunsch_alignment_words_substring text1 text2 default_scoring h =
      Ok ((score_matrix a, traceback_matrix a), h1) ∧
    get_alignment_and_visualization_words text1 text2 (traceback_matrix a) h1 =
      Ok ((b1, b2, path a), h2) ∧
    recalculate_indices b1 h2 = Ok (s1_aligned a, h3) ∧
    recalculate_indices b2 h3 = Ok (s2_aligned a, h').
Proof.
  unfold align_sentences. intros Hrun.
  apply mbind_Ok in Hrun as ([SM TM] & h1 & Hnw & Hrun).
  apply mbind_Ok in Hrun as ([[b1 b2] p] & h2 & Hget & Hrun).
  apply mbind_Ok in Hrun as (c1 & h3 & Hr1 & Hrun).
  apply mbind_Ok in Hrun as (c2 & h4 & Hr2 & [<- <-]%mret_Ok).
  simpl. eauto 10.
Qed.

Lemma align_sentences_lengths text1 text2 h a h' :
  align_sentences text1 text2 h = Ok (a, h') →
  length (tokens (s1_aligned a)) = length (tokens (s2_aligned a)).
Proof.
  intros (h1 & b1 & b2 & h2 & h3 & _ & Hget & Hr1 & Hr2)%align_sentences_Ok.
  apply reconstructor_Ok in Hget as (h4 & Hloop & _).
  apply traceback_loop_lengths in Hloop; [|done].
  by rewrite (recalculate_indices_tokens _ _ _ _ Hr1),
    (recalculate_indices_tokens _ _ _ _ Hr2).
Qed.

Lemma scorer_shapes text1 text2 p h SM TM h1 :
  needleman_wunsch_alignment_words_substring text1 text2 p h = Ok ((SM, TM), h1) →
  ∃ s1_tokens s2_tokens,
    length s1_tokens = length (tokens text1) ∧
    length s2_tokens = length (tokens text2) ∧
    Forall2 (λ r t, h1 !! r = Some t) (tokens text1) s1_tokens ∧
    Forall2 (λ r t, h1 !! r = Some t) (tokens text2) s2_tokens ∧
    scored p s1_tokens s2_tokens SM TM ∧ extends h h1.
Proof.
  intros (s1 & s2 & F1 & F2 & Hfill & Hext)%scorer_Ok.
  exists s1, s2. split_and!; try done.
  - symmetry. by eapply Forall2_length.
  - symmetry. by eapply Forall2_length.
  - by apply fill_matrices_scored.
Qed.

(** On two non-empty sequences whose tokens can be scored, [align_sentences]
    returns. *)
Lemma align_sentences_total text1 text2 h :
  tokens text1 ≠ [] → tokens text2 ≠ [] →
  valid h (tokens text1) → valid h (tokens text2) →
  (∀ r1 r2 t1 t2, r1 ∈ tokens text1 → r2 ∈ tokens text2 →
     h !! r1 = Some t1 → h !! r2 = Some t2 → scorable default_scoring t1 t2) →
  ∃ a h', align_sentences text1 text2 h = Ok (a, h').
Proof.
  intros Hne1 Hne2 Hv1 Hv2 Hsc.
  destruct (scorer_total text1 text2 default_scoring h Hv1 Hv2 Hsc)
    as (SM & TM & h1 & Hnw & L1).
  pose proof Hnw as (s1 & s2 & Ls1 & Ls2 & _ & _ & Hscored & _)%scorer_shapes.
  destruct Hscored as (_ & HshT & _). rewrite Ls1, Ls2 in HshT.
  set (e := {| tokens := []; _text := Some "" |}).
  destruct (traceback_loop_total text1 text2 TM
    (S (length (tokens text1) + length (tokens text2)))
    (length (tokens text1)) (length (tokens text2)) e e [] h1)
    as (b1 & b2 & path & h2 & Hloop & Hb1 & Hb2); try done; try lia.
  { destruct (tokens text1); [done|simpl; lia]. }
  { destruct (tokens text2); [done|simpl; lia]. }
  { eapply valid_length; [|done]. lia. }
  { eapply valid_length; [|done]. lia. }
  { constructor. }
  { constructor. }
  destruct (annotate_pairs_valid h2 (zip (tokens b1) (tokens b2)))
    as (h3 & Hann & L3); [by apply valid_zip|].
  destruct (recalculate_indices_valid h3 b1) as (c1 & h4 & Hc1 & L4).
  { eapply valid_length; [|done]. lia. }
  destruct (recalculate_indices_valid h4 b2) as (c2 & h5 & Hc2 & L5).
  { eapply valid_length; [|done]. lia. }
  exists (mkAlignment c1 c2 SM TM path), h5.
  unfold align_sentences.
  apply mbind_Ok. exists (SM, TM), h1. split; [done|].
  apply mbind_Ok. exists (b1, b2, path), h3. split.
  { unfold get_alignment_and_visualization_words.
    apply mbind_Ok. exists e, h1. split; [done|].
    apply mbind_Ok. exists e, h1. split; [done|].
    apply mbind_Ok. exists (b1, b2, path), h2. split; [done|].
    apply mbind_Ok. exists tt, h3. split; [done|]. by apply mret_Ok. }
  apply mbind_Ok. exists c1, h4. split; [done|].
  apply mbind_Ok. exists c2, h5. split; [done|]. by apply mret_Ok.
Qed.

Lemma Forall2_functional {A B} (P : A → B → Prop) l k1 k2 :
  (∀ x y1 y2, P x y1 → P x y2 → y1 = y2) →
  Forall2 P l k1 → Forall2 P l k2 → k1 = k2.
Proof.
  intros Hfun H1. revert k2. induction H1 as [|x y l k Hxy _ IH]; intros k2 H2.
  - by apply Forall2_nil_inv_l in H2.
  - apply Forall2_cons_inv_l in H2 as (y' & k' & Hxy' & Hk' & ->).
    f_equal; [by eapply Hfun|by apply IH].
Qed.

(** C3, as amended.  A non-empty sequence whose tokens carry no original,
    aligned with itself under the default constants: [align_sentences]
    returns, every pass of the walk took the diagonal branch, both outputs are
    the objects of the input in their order (no placeholder was put in), and
    the last cell of the score matrix holds [match_score * len(seq)]. *)
Theorem self_alignment_all_diagonal text h :
  tokens text ≠ [] →
  valid h (tokens text) →
  (∀ r t, r ∈ tokens text → h !! r = Some t → original t = None) →
  let n := length (tokens text) in
  ∃ a h' v,
    align_sentences text text h = Ok (a, h') ∧
    path a = replicate n Diagonal ∧
    tokens (s1_aligned a) = tokens text ∧
    tokens (s2_aligned a) = tokens text ∧
    mget (score_matrix a) n n = Ok v ∧
    (v == match_score default_scoring * Qnat n)%Q.
Proof.
  intros Hne Hv Hno n.
  destruct (align_sentences_total text text h) as (a & h' & Hrun); try done.
  { intros r1 r2 t1 t2 Hr1 _ Ht1 _. apply scorable_no_original. by eapply Hno. }
  pose proof Hrun as (h1 & b1 & b2 & h2 & h3 & Hnw & Hget & Hr1 & Hr2)%align_sentences_Ok.
  apply scorer_shapes in Hnw as (s1 & s2 & L1 & L2 & F1 & F2 & Hscored & Hext).
  assert (s2 = s1) as ->.
  { eapply Forall2_functional; [|exact F2|exact F1]. intros; congruence. }
  assert (Forall (λ t, original t = None) s1) as Hno1.
  { apply Forall_lookup. intros k t Hk.
    destruct (Forall2_lookup_r _ _ _ _ _ F1 Hk) as (r & Hr & Ht).
    destruct (valid_lookup h _ _ _ Hv Hr) as [u Hu].
    destruct (extends_lookup _ _ _ _ Hext Hu) as (t' & Ht' & Hcore).
    assert (t' = t) as -> by congruence.
    unfold core in Hcore. injection Hcore as _ _ ->.
    eapply Hno; [by eapply list_elem_of_lookup_2|done]. }
  destruct (self_score_diagonal s1 Hno1 _ _ Hscored (length s1)) as (v & Hvn & Hvq & _);
    [done|].
  apply reconstructor_Ok in Hget as (h4 & Hloop & _).
  apply traceback_loop_diagonal in Hloop as (Hpath & Hb1 & Hb2); [|..|lia|lia].
  - exists a, h', v. fold n in Hpath, Hb1, Hb2. rewrite L1 in Hvn, Hvq. fold n in Hvn, Hvq.
    split_and!; try done.
    + by rewrite Hpath, app_nil_r.
    + rewrite (recalculate_indices_tokens _ _ _ _ Hr1), Hb1. simpl.
      rewrite app_nil_r. by apply firstn_all.
    + rewrite (recalculate_indices_tokens _ _ _ _ Hr2), Hb2. simpl.
      rewrite app_nil_r. by apply firstn_all.
    + rewrite Hvq. simpl. lra.
  - intros k' Hk'.
    destruct (self_score_diagonal s1 Hno1 _ _ Hscored k') as (_ & _ & _ & Htag); [lia|].
    apply Htag. lia.
  - destruct Hscored as (_ & _ & Hcol & _).
    destruct (Hcol 0) as [_ H00]; [lia|]. done.
Qed.

(** C1.  On two sequences without tokens [align_sentences] raises
    [IndexError]: the walk reads [text1.tokens[0]] before it looks at the
    trace of cell (0, 0). *)
Theorem align_empty_raises h :
  align_sentences {| tokens := []; _text := Some "" |}
    {| tokens := []; _text := Some "" |} h = Raise IndexError.
Proof. reflexivity. Qed.

(** The same from two empty strings. *)
Lemma align_empty_strings_raises :
  align_strings word_units "" "" [] = Raise IndexError.
Proof. reflexivity. Qed.

(** Nor does it return when only one of the sequences is empty. *)
Lemma align_one_empty_raises :
  align_strings word_units "a" "" [] = Raise IndexError ∧
  align_strings word_units "" "a" [] = Raise IndexError.
Proof. split; reflexivity. Qed.

(** A second way to fail: a token whose original has an empty text, scored
    against an empty token, divides by zero. *)
Lemma empty_original_divides_by_zero :
  mismatch_score_adjusted default_scoring
    {| cls := KWord; text := "a"; index := None; start := None; aligned := false;
       alignment_spaces := 0; color := Some ""; bg := None;
       original := Some (new_token KSpacer ""); operation := None |}
    (new_token KSpacer "") = Raise ZeroDivisionError.
Proof. reflexivity. Qed.


(** ** The order of Python's numbers *)

(** The exact value of a number, in units of 2^-1074 (the smallest positive
    float); a NaN has none. *)
Inductive ext := NegInf | Fin (z : Z) | PosInf.

Definition ext_compare (a b : ext) : comparison :=
  match a, b with
  | NegInf, NegInf => Eq
  | NegInf, _ => Lt
  | Fin _, NegInf => Gt
  | Fin x, Fin y => (x ?= y)%Z
  | Fin _, PosInf => Lt
  | PosInf, PosInf => Eq
  | PosInf, _ => Gt
  end.

Definition float_value (x : SpecFloat.spec_float) : option ext :=
  match x with
  | SpecFloat.S754_nan => None
  | SpecFloat.S754_infinity s => Some (if s then NegInf else PosInf)
  | SpecFloat.S754_zero _ => Some (Fin 0)
  | SpecFloat.S754_finite s m e =>
      Some (Fin ((if s then Z.neg m else Z.pos m) * 2 ^ (e + 1074)))
  end.

Definition value (a : Binary64.num) : option ext :=
  match a with
  | Binary64.Int z => Some (Fin (z * 2 ^ 1074))
  | Binary64.Float x => float_value (FloatOps.Prim2SF x)
  end.

Definition num_compare (a b : Binary64.num) : option comparison :=
  match value a, value b with
  | Some x, Some y => Some (ext_compare x y)
  | _, _ => None
  end.

Lemma Z_compare_scale a b c : (0 < c)%Z → (a * c ?= b * c)%Z = (a ?= b)%Z.
Proof.
  intros Hc. destruct (Z.compare_spec a b) as [->|?|?].
  - apply Z.compare_refl.
  - apply Z.compare_lt_iff. nia.
  - apply Z.compare_gt_iff. nia.
Qed.

Lemma digits2_pos_bounds m :
  (2 ^ (Z.pos (SpecFloat.digits2_pos m) - 1) ≤ Z.pos m
   < 2 ^ Z.pos (SpecFloat.digits2_pos m))%Z.
Proof.
  induction m as [m IH|m IH|]; simpl SpecFloat.digits2_pos.
  - rewrite Pos2Z.inj_succ.
    replace (Z.succ (Z.pos (SpecFloat.digits2_pos m)) - 1)%Z
      with (Z.succ (Z.pos (SpecFloat.digits2_pos m) - 1)) by lia.
    rewrite !Z.pow_succ_r by lia. lia.
  - rewrite Pos2Z.inj_succ.
    replace (Z.succ (Z.pos (SpecFloat.digits2_pos m)) - 1)%Z
      with (Z.succ (Z.pos (SpecFloat.digits2_pos m) - 1)) by lia.
    rewrite !Z.pow_succ_r by lia. lia.
  - simpl. lia.
Qed.

Lemma bounded_facts m e :
  SpecFloat.bounded FloatOps.prec FloatOps.emax m e = true →
  (-1074 ≤ e ∧ Z.pos m < 2 ^ 53 ∧ (-1074 < e → 2 ^ 52 ≤ Z.pos m))%Z.
Proof.
  unfold SpecFloat.bounded, SpecFloat.canonical_mantissa, SpecFloat.fexp,
    SpecFloat.emin, FloatOps.prec, FloatOps.emax.
  intros [Hc _]%andb_true_iff. apply Z.eqb_eq in Hc.
  pose proof (digits2_pos_bounds m) as [Hlo Hhi].
  set (d := Z.pos (SpecFloat.digits2_pos m)) in *.
  assert (0 < d)%Z by (unfold d; lia).
  change IntDef.Z.max with Z.max in Hc.
  split; [lia|]. split.
  - assert (d ≤ 53)%Z by lia.
    eapply Z.lt_le_trans; [exact Hhi|]. apply Z.pow_le_mono_r; lia.
  - intros He. assert (d = 53)%Z as Hd by lia.
    rewrite Hd in Hlo. exact Hlo.
Qed.

Lemma finite_lt m1 e1 m2 e2 :
  SpecFloat.bounded FloatOps.prec FloatOps.emax m1 e1 = true →
  SpecFloat.bounded FloatOps.prec FloatOps.emax m2 e2 = true →
  (e1 < e2)%Z →
  (Z.pos m1 * 2 ^ (e1 + 1074) < Z.pos m2 * 2 ^ (e2 + 1074))%Z.
Proof.
  intros (He1 & Hm1 & _)%bounded_facts (He2 & _ & Hm2)%bounded_facts Hlt.
  specialize (Hm2 ltac:(lia)).
  replace (e2 + 1074)%Z with ((e1 + 1074) + (e2 - e1))%Z by lia.
  rewrite (Z.pow_add_r 2 (e1 + 1074) (e2 - e1)) by lia.
  assert (0 < 2 ^ (e1 + 1074))%Z by (apply Z.pow_pos_nonneg; lia).
  assert (2 ^ 1 ≤ 2 ^ (e2 - e1))%Z by (apply Z.pow_le_mono_r; lia).
  change (2 ^ 1)%Z with 2%Z in *.
  change (2 ^ 53)%Z with (2 * 2 ^ 52)%Z in Hm1.
  set (A := (2 ^ (e1 + 1074))%Z) in *. set (K := (2 ^ (e2 - e1))%Z) in *.
  set (B := (2 ^ 52)%Z) in *.
  assert (0 < B)%Z by (unfold B; lia).
  assert (Z.pos m1 * A < 2 * B * A)%Z by (apply Z.mul_lt_mono_pos_r; lia).
  assert (2 * B * A ≤ 2 * Z.pos m2 * A)%Z by (apply Z.mul_le_mono_nonneg_r; lia).
  assert (2 * (Z.pos m2 * A) ≤ K * (Z.pos m2 * A))%Z
    by (apply Z.mul_le_mono_nonneg_r; lia).
  lia.
Qed.

Lemma finite_compare m1 e1 m2 e2 :
  SpecFloat.bounded FloatOps.prec FloatOps.emax m1 e1 = true →
  SpecFloat.bounded FloatOps.prec FloatOps.emax m2 e2 = true →
  match (e1 ?= e2)%Z with
  | Eq => PosDef.Pos.compare_cont Eq m1 m2
  | Lt => Lt
  | Gt => Gt
  end = (Z.pos m1 * 2 ^ (e1 + 1074) ?= Z.pos m2 * 2 ^ (e2 + 1074))%Z.
Proof.
  intros H1 H2. destruct (Z.compare_spec e1 e2) as [->|Hlt|Hgt].
  - pose proof (bounded_facts _ _ H2) as (He & _).
    assert (0 < 2 ^ (e2 + 1074))%Z by (apply Z.pow_pos_nonneg; lia).
    change (PosDef.Pos.compare_cont Eq m1 m2) with (Z.pos m1 ?= Z.pos m2)%Z.
    symmetry. destruct (Z.compare_spec (Z.pos m1) (Z.pos m2)) as [->|?|?].
    + apply Z.compare_refl.
    + apply Z.compare_lt_iff. nia.
    + apply Z.compare_gt_iff. nia.
  - symmetry. apply Z.compare_lt_iff. by apply finite_lt.
  - symmetry. apply Z.compare_gt_iff. apply finite_lt; [done|done|lia].
Qed.

Lemma SFcompare_value x y :
  SpecFloat.valid_binary FloatOps.prec FloatOps.emax x = true →
  SpecFloat.valid_binary FloatOps.prec FloatOps.emax y = true →
  SpecFloat.SFcompare x y =
    match float_value x, float_value y with
    | Some a, Some b => Some (ext_compare a b)
    | _, _ => None
    end.
Proof.
  destruct x as [sx|sx| |sx mx ex], y as [sy|sy| |sy my ey];
    cbn [SpecFloat.SFcompare float_value ext_compare SpecFloat.valid_binary];
    intros Hx Hy; try done;
    try (by destruct sx); try (by destruct sy); try (by destruct sx, sy).
  - pose proof (bounded_facts _ _ Hy) as (He & _).
    assert (0 < 2 ^ (ey + 1074))%Z by (apply Z.pow_pos_nonneg; lia).
    f_equal. symmetry. destruct sy.
    + apply Z.compare_gt_iff. nia.
    + apply Z.compare_lt_iff. nia.
  - pose proof (bounded_facts _ _ Hx) as (He & _).
    assert (0 < 2 ^ (ex + 1074))%Z by (apply Z.pow_pos_nonneg; lia).
    f_equal. symmetry. destruct sx.
    + apply Z.compare_lt_iff. nia.
    + apply Z.compare_gt_iff. nia.
  - pose proof (bounded_facts _ _ Hx) as (Hex & _).
    pose proof (bounded_facts _ _ Hy) as (Hey & _).
    assert (0 < 2 ^ (ex + 1074))%Z by (apply Z.pow_pos_nonneg; lia).
    assert (0 < 2 ^ (ey + 1074))%Z by (apply Z.pow_pos_nonneg; lia).
    f_equal. destruct sx, sy.
    + transitivity (CompOpp match (ex ?= ey)%Z with
                              | Eq => PosDef.Pos.compare_cont Eq mx my
                              | Lt => Lt
                              | Gt => Gt
                              end); [by destruct (ex ?= ey)%Z|].
      rewrite (finite_compare mx ex my ey Hx Hy).
      replace (Z.neg mx * 2 ^ (ex + 1074))%Z
        with (- (Z.pos mx * 2 ^ (ex + 1074)))%Z by lia.
      replace (Z.neg my * 2 ^ (ey + 1074))%Z
        with (- (Z.pos my * 2 ^ (ey + 1074)))%Z by lia.
      rewrite Z.compare_opp.
      first [apply Z.compare_antisym | symmetry; apply Z.compare_antisym].
    + symmetry. apply Z.compare_lt_iff. nia.
    + symmetry. apply Z.compare_gt_iff. nia.
    + by apply finite_compare.
Qed.

Lemma float_compare_value x y :
  SpecFloat.SFcompare (FloatOps.Prim2SF x) (FloatOps.Prim2SF y) =
    num_compare (Binary64.Float x) (Binary64.Float y).
Proof. apply SFcompare_value; apply FloatAxioms.Prim2SF_valid. Qed.

Lemma compare_int_float_value z x :
  Binary64.compare_int_float z x =
    num_compare (Binary64.Int z) (Binary64.Float x).
Proof.
  unfold Binary64.compare_int_float, num_compare.
  cbn [value]. pose proof (FloatAxioms.Prim2SF_valid x) as Hv.
  destruct (FloatOps.Prim2SF x) as [s|s| |s m e];
    cbn [float_value ext_compare SpecFloat.valid_binary] in *; try done.
  - f_equal. symmetry.
    destruct (Z.compare_spec z 0) as [->|?|?].
    + done.
    + apply Z.compare_lt_iff. nia.
    + apply Z.compare_gt_iff. nia.
  - by destruct s.
  - pose proof (bounded_facts _ _ Hv) as (He & _).
    f_equal. set (v := if s then Z.neg m else Z.pos m).
    assert (0 < 2 ^ 1074)%Z by done.
    destruct (Z.leb_spec 0 e) as [Hpos|Hneg].
    + rewrite (Z.pow_add_r 2 e 1074) by lia. rewrite Z.mul_assoc.
      symmetry. by apply Z_compare_scale.
    + replace 1074%Z with ((- e) + (e + 1074))%Z at 1 by lia.
      rewrite (Z.pow_add_r 2 (- e) (e + 1074)) by lia. rewrite Z.mul_assoc.
      symmetry. apply Z_compare_scale. apply Z.pow_pos_nonneg; lia.
Qed.

Lemma ext_compare_antisym a b : ext_compare b a = CompOpp (ext_compare a b).
Proof. destruct a, b; simpl; try done. apply Z.compare_antisym. Qed.

Lemma ext_compare_refl a : ext_compare a a = Eq.
Proof. destruct a; simpl; try done. apply Z.compare_refl. Qed.

Lemma ext_compare_trans a b c :
  ext_compare a b = Gt → ext_compare b c = Gt → ext_compare a c = Gt.
Proof.
  destruct a, b, c; simpl; try done.
  rewrite !Z.compare_gt_iff. lia.
Qed.

Lemma num_compare_antisym a b : num_compare b a = CompOpp <$> num_compare a b.
Proof.
  unfold num_compare. destruct (value a), (value b); simpl; try done.
  by rewrite ext_compare_antisym.
Qed.

(** [>] and [==] read off the exact values. *)
Lemma py_gt_compare a b : Binary64.py_gt a b = true ↔ num_compare a b = Some Gt.
Proof.
  destruct a as [x|x], b as [y|y]; cbn [Binary64.py_gt].
  - unfold num_compare. cbn [value ext_compare].
    rewrite Z.ltb_lt. split.
    + intros. f_equal. apply Z.compare_gt_iff. nia.
    + intros [= H%Z.compare_gt_iff]. nia.
  - rewrite bool_decide_eq_true. by rewrite compare_int_float_value.
  - rewrite bool_decide_eq_true, compare_int_float_value.
    rewrite (num_compare_antisym (Binary64.Int y) (Binary64.Float x)).
    destruct (num_compare (Binary64.Int y) (Binary64.Float x)) as [[]|]; simpl;
      split; congruence.
  - rewrite FloatAxioms.ltb_spec. unfold SpecFloat.SFltb.
    rewrite float_compare_value.
    rewrite (num_compare_antisym (Binary64.Float x) (Binary64.Float y)).
    destruct (num_compare (Binary64.Float x) (Binary64.Float y)) as [[]|]; simpl;
      split; congruence.
Qed.

Lemma py_eq_compare a b : Binary64.py_eq a b = true ↔ num_compare a b = Some Eq.
Proof.
  destruct a as [x|x], b as [y|y]; cbn [Binary64.py_eq].
  - unfold num_compare. cbn [value ext_compare].
    rewrite Z.eqb_eq. split.
    + intros ->. f_equal. apply Z.compare_refl.
    + intros [= H%Z.compare_eq_iff]. nia.
  - rewrite bool_decide_eq_true. by rewrite compare_int_float_value.
  - rewrite bool_decide_eq_true, compare_int_float_value.
    rewrite (num_compare_antisym (Binary64.Int y) (Binary64.Float x)).
    destruct (num_compare (Binary64.Int y) (Binary64.Float x)) as [[]|]; simpl;
      split; congruence.
  - rewrite FloatAxioms.eqb_spec. unfold SpecFloat.SFeqb.
    rewrite float_compare_value.
    destruct (num_compare (Binary64.Float x) (Binary64.Float y)) as [[]|]; simpl;
      split; congruence.
Qed.

Lemma py_gt_asym a b : Binary64.py_gt a b = true → Binary64.py_gt b a = false.
Proof.
  rewrite py_gt_compare. intros H. apply not_true_is_false.
  rewrite py_gt_compare, (num_compare_antisym a b), H. done.
Qed.

Lemma py_gt_irrefl a : Binary64.py_gt a a = false.
Proof.
  apply not_true_is_false. rewrite py_gt_compare. unfold num_compare.
  destruct (value a); [|done]. by rewrite ext_compare_refl.
Qed.

Lemma py_gt_trans a b c :
  Binary64.py_gt a b = true → Binary64.py_gt b c = true →
  Binary64.py_gt a c = true.
Proof.
  rewrite !py_gt_compare. unfold num_compare.
  destruct (value a), (value b), (value c); try done.
  intros [= H1] [= H2]. f_equal. by eapply ext_compare_trans.
Qed.

(** What [max] returns is one of its arguments, and none of them is greater. *)
Lemma py_max3_is_argument a b c :
  Binary64.py_max3 a b c = a ∨ Binary64.py_max3 a b c = b
  ∨ Binary64.py_max3 a b c = c.
Proof.
  unfold Binary64.py_max3.
  destruct (Binary64.py_gt b a); destruct (Binary64.py_gt c _); auto.
Qed.

Lemma py_max3_not_exceeded a b c :
  Binary64.py_gt a (Binary64.py_max3 a b c) = false ∧
  Binary64.py_gt b (Binary64.py_max3 a b c) = false ∧
  Binary64.py_gt c (Binary64.py_max3 a b c) = false.
Proof.
  unfold Binary64.py_max3.
  destruct (Binary64.py_gt b a) eqn:Hba.
  - destruct (Binary64.py_gt c b) eqn:Hcb.
    + split_and!.
      * apply py_gt_asym. by eapply py_gt_trans.
      * by apply py_gt_asym.
      * apply py_gt_irrefl.
    + split_and!; [by apply py_gt_asym|apply py_gt_irrefl|done].
  - destruct (Binary64.py_gt c a) eqn:Hca.
    + split_and!.
      * by apply py_gt_asym.
      * apply not_true_is_false. intros Hbc.
        rewrite (py_gt_trans b c a Hbc Hca) in Hba. done.
      * apply py_gt_irrefl.
    + split_and!; [apply py_gt_irrefl|done|done].
Qed.

Lemma chars_app s1 s2 : PyStr.chars (s1 +:+ s2) = PyStr.chars s1 ++ PyStr.chars s2.
Proof.
  unfold PyStr.chars. induction s1 as [|c s1 IH]; simpl; [done|]. by rewrite IH.
Qed.

Lemma tags_of_chars max_score match_ delete insert :
  ("D"%char ∈ PyStr.chars (Binary64.tags_of max_score match_ delete insert)
     ↔ Binary64.py_eq max_score match_ = true) ∧
  ("U"%char ∈ PyStr.chars (Binary64.tags_of max_score match_ delete insert)
     ↔ Binary64.py_eq max_score delete = true) ∧
  ("L"%char ∈ PyStr.chars (Binary64.tags_of max_score match_ delete insert)
     ↔ Binary64.py_eq max_score insert = true).
Proof.
  assert (∀ (c : ascii) (l : list ascii), c ∈ l ↔ bool_decide (c ∈ l) = true) as E
    by (intros; by rewrite bool_decide_eq_true).
  rewrite (E "D"%char), (E "U"%char), (E "L"%char). unfold Binary64.tags_of.
  destruct (Binary64.py_eq max_score match_), (Binary64.py_eq max_score delete),
    (Binary64.py_eq max_score insert); vm_compute; tauto.
Qed.

(** ** What the scorer leaves in its matrices, on Python's numbers *)

Section scorer_on_numbers.
Variable p : Binary64.scoring.
Variables s1_tokens s2_tokens : list Token.
Let n := length s1_tokens.
Let m := length s2_tokens.

(** Cell [(i, j)] holds what [max] returns on its three candidates, computed
    from the neighbours as the matrix holds them, and the tags of the
    candidates that compare equal to it. *)
Definition num_cell_filled (S : matrix Binary64.num) (T : matrix string)
    (i j : nat) : Prop :=
  ∃ token1 token2 prev up left match_ delete insert,
    s1_tokens !! (i - 1) = Some token1 ∧
    s2_tokens !! (j - 1) = Some token2 ∧
    mget S (i - 1) (j - 1) = Ok prev ∧
    Binary64.match_candidate p prev token1 token2 = Ok match_ ∧
    mget S (i - 1) j = Ok up ∧
    Binary64.py_add up (Binary64.gap_score p) = Ok delete ∧
    mget S i (j - 1) = Ok left ∧
    Binary64.py_add left (Binary64.gap_score p) = Ok insert ∧
    mget S i j = Ok (Binary64.py_max3 match_ delete insert) ∧
    mget T i j =
      Ok (Binary64.tags_of (Binary64.py_max3 match_ delete insert)
            match_ delete insert).

Definition num_shapes (st : matrix Binary64.num * matrix string) : Prop :=
  shape st.1 (n + 1) (m + 1) ∧ shape st.2 (n + 1) (m + 1).

(** The two loops over the border leave the inner traceback cells empty. *)
Definition num_blank (st : matrix Binary64.num * matrix string) : Prop :=
  num_shapes st ∧
  ∀ i j, inner s1_tokens s2_tokens i j → mget st.2 i j = Ok "".

Lemma num_init_column_step k st st' :
  num_blank st → Binary64.init_column p k st = Ok st' → num_blank st'.
Proof.
  destruct st as [S T]. intros [[HS HT] Hin] Hrun. simpl in *.
  unfold Binary64.init_column in Hrun.
  apply rbind_Ok in Hrun as (v & _ & Hrun).
  apply rbind_Ok in Hrun as (S' & HS' & Hrun).
  apply rbind_Ok in Hrun as (T' & HT' & [= <-]).
  destruct (0 <? k)%nat.
  - split; [split; simpl; by eapply mset_shape|]. simpl.
    intros i j Hij. erewrite mget_mset_ne; [by apply Hin|done|].
    intros [= -> ->]. unfold inner in Hij. lia.
  - injection HT' as <-. split; [split; simpl; [by eapply mset_shape|done]|done].
Qed.

Lemma num_init_row_step k st st' :
  num_blank st → Binary64.init_row p k st = Ok st' → num_blank st'.
Proof.
  destruct st as [S T]. intros [[HS HT] Hin] Hrun. simpl in *.
  unfold Binary64.init_row in Hrun.
  apply rbind_Ok in Hrun as (v & _ & Hrun).
  apply rbind_Ok in Hrun as (S' & HS' & Hrun).
  apply rbind_Ok in Hrun as (T' & HT' & [= <-]).
  destruct (0 <? k)%nat.
  - split; [split; simpl; by eapply mset_shape|]. simpl.
    intros i j Hij. erewrite mget_mset_ne; [by apply Hin|done|].
    intros [= -> ->]. unfold inner in Hij. lia.
  - injection HT' as <-. split; [split; simpl; [by eapply mset_shape|done]|done].
Qed.

(** The state of the double loop when it stands at [(i, j)]. *)
Definition num_filled_upto (i j : nat)
    (st : matrix Binary64.num * matrix string) : Prop :=
  num_shapes st ∧
  (∀ i' j', inner s1_tokens s2_tokens i' j' → passed i j i' j' →
     num_cell_filled st.1 st.2 i' j') ∧
  (∀ i' j', inner s1_tokens s2_tokens i' j' → ¬ passed i j i' j' →
     mget st.2 i' j' = Ok "").

Lemma num_fill_cell_step i j st st' :
  inner s1_tokens s2_tokens i j → num_filled_upto i j st →
  Binary64.fill_cell p s1_tokens s2_tokens i j st = Ok st' →
  num_filled_upto i (S j) st'.
Proof.
  destruct st as [S T].
  intros [Hi Hj] ([HS HT] & Hpassed & Hrest) Hrun.
  simpl in *. unfold Binary64.fill_cell in Hrun.
  apply rbind_Ok in Hrun as (token1 & Ht1%of_option_Ok & Hrun).
  apply rbind_Ok in Hrun as (token2 & Ht2%of_option_Ok & Hrun).
  apply rbind_Ok in Hrun as (prev & Hprev & Hrun).
  apply rbind_Ok in Hrun as (match_ & Hmatch & Hrun).
  apply rbind_Ok in Hrun as (up & Hup & Hrun).
  apply rbind_Ok in Hrun as (delete & Hdelete & Hrun).
  apply rbind_Ok in Hrun as (left & Hleft & Hrun).
  apply rbind_Ok in Hrun as (insert & Hinsert & Hrun).
  apply rbind_Ok in Hrun as (S' & HS' & Hrun).
  apply rbind_Ok in Hrun as (old & Hold & Hrun).
  apply rbind_Ok in Hrun as (T' & HT' & [= <-]).
  rewrite Hrest in Hold by (unfold inner, passed; lia).
  injection Hold as <-. simpl in HT'.
  assert (∀ i' j', (i', j') ≠ (i, j) → mget S' i' j' = mget S i' j') as HSo
    by (intros; by eapply mget_mset_ne).
  assert (∀ i' j', (i', j') ≠ (i, j) → mget T' i' j' = mget T i' j') as HTo
    by (intros; by eapply mget_mset_ne).
  split_and!; simpl.
  - split; by eapply mset_shape.
  - intros i' j' [Hi' Hj'] Hp.
    destruct (decide ((i', j') = (i, j))) as [[= -> ->]|Hne].
    + exists token1, token2, prev, up, left, match_, delete, insert.
      rewrite !HSo by (intros [=]; lia).
      split_and!; try done; by eapply mget_mset_eq.
    + destruct (Hpassed i' j')
        as (t1 & t2 & pr & u & l & mt & d & ins & ? & ? & ? & ? & ? & ? & ? & ? & ? & ?).
      { done. }
      { unfold passed in *. destruct Hp as [?|[-> ?]]; [lia|].
        right. split; [done|]. destruct (decide (j' = j)); [congruence|lia]. }
      exists t1, t2, pr, u, l, mt, d, ins.
      unfold passed in Hp.
      rewrite !HSo, HTo by (try done; intros [=]; lia). done.
  - intros i' j' Hin Hnp. rewrite HTo.
    + apply Hrest; [done|]. unfold passed in *. lia.
    + intros [= -> ->]. apply Hnp. unfold passed. lia.
Qed.

Lemma num_filled_next_row i st :
  num_filled_upto i (m + 1) st → num_filled_upto (S i) 1 st.
Proof.
  intros (Hsh & Hpassed & Hrest). split_and!; try done.
  - intros i' j' Hin Hp. apply Hpassed; [done|].
    unfold passed, inner in *. fold n m in Hin. lia.
  - intros i' j' Hin Hp. apply Hrest; [done|].
    unfold passed, inner in *. fold n m in Hin. lia.
Qed.

(** The matrices the three loops return. *)
Definition num_scored (S : matrix Binary64.num) (T : matrix string) : Prop :=
  shape S (n + 1) (m + 1) ∧ shape T (n + 1) (m + 1) ∧
  ∀ i j, 1 ≤ i ≤ n → 1 ≤ j ≤ m → num_cell_filled S T i j.

Lemma num_for_each_inv {St X} (I : St → Prop) (body : X → St → result St) xs s s' :
  (∀ x s s', I s → body x s = Ok s' → I s') →
  I s → for_each xs body s = Ok s' → I s'.
Proof.
  intros Hstep. revert s. induction xs as [|x xs IH]; intros s Hs; simpl.
  - by intros [= <-].
  - intros (s1 & Hs1 & Hrest)%rbind_Ok. eapply IH; [|done]. by eapply Hstep.
Qed.

Lemma num_fill_matrices_scored S T :
  Binary64.fill_matrices p s1_tokens s2_tokens = Ok (S, T) → num_scored S T.
Proof.
  unfold Binary64.fill_matrices. fold n m. intros Hrun.
  apply rbind_Ok in Hrun as (st1 & Hst1 & Hrun).
  apply rbind_Ok in Hrun as (st2 & Hst2 & Hrun).
  assert (num_blank st1) as Hb1.
  { eapply (num_for_each_inv num_blank); [|..|exact Hst1].
    - intros k s s' Hs Hk. by eapply num_init_column_step.
    - split; [split; apply shape_replicate|]. simpl.
      intros i j [Hi Hj]. apply mget_replicate; fold n m in Hi, Hj; lia. }
  assert (num_blank st2) as Hb2.
  { eapply (num_for_each_inv num_blank); [|exact Hb1|exact Hst2].
    intros k s s' Hs Hk. by eapply num_init_row_step. }
  assert (num_filled_upto 1 1 st2) as Hstart.
  { destruct Hb2 as [Hsh Hin]. split_and!; [done| |].
    - intros i' j' Hin' Hp. unfold passed, inner in *. lia.
    - intros i' j' Hin' _. by apply Hin. }
  assert (num_filled_upto (n + 1) 1 (S, T)) as (Hsh & Hpassed & _).
  { eapply (for_each_range_inv (λ i, num_filled_upto i 1));
      [| |exact Hstart|exact Hrun]; [lia|].
    intros i s s' Hi Hs Hrow. apply num_filled_next_row.
    eapply (for_each_range_inv (num_filled_upto i)); [| |exact Hs|exact Hrow]; [lia|].
    intros j t t' Hj Ht Hcell. eapply num_fill_cell_step; [|done..].
    unfold inner. fold n m. lia. }
  destruct Hsh as [HS HT]. split_and!; try done.
  intros i j Hi Hj. apply Hpassed.
  - unfold inner. fold n m. lia.
  - unfold passed. lia.
Qed.
End scorer_on_numbers.

(** The scorer, taken apart. *)
Lemma num_scorer_Ok text1 text2 p h SM TM h1 :
  Binary64.needleman_wunsch_alignment_words_substring text1 text2 p h
    = Ok ((SM, TM), h1) →
  ∃ s1_tokens s2_tokens,
    Forall2 (λ r t, h1 !! r = Some t) (tokens text1) s1_tokens ∧
    Forall2 (λ r t, h1 !! r = Some t) (tokens text2) s2_tokens ∧
    Binary64.fill_matrices p s1_tokens s2_tokens = Ok (SM, TM) ∧
    extends h h1.
Proof.
  unfold Binary64.needleman_wunsch_alignment_words_substring. intros Hrun.
  apply mbind_Ok in Hrun as ([] & ha & Hc1 & Hrun).
  apply mbind_Ok in Hrun as ([] & hb & Hc2 & Hrun).
  apply mbind_Ok in Hrun as (s1 & hc & [-> Hs1]%load_all_Ok & Hrun).
  apply mbind_Ok in Hrun as (s2 & hd & [-> Hs2]%load_all_Ok & Hrun).
  apply lift_Ok in Hrun as [Hfill ->].
  exists s1, s2. split_and!; try done.
  etrans; by eapply stable_text_clear_alignment.
Qed.

(** C4.  In the matrices the scorer returns, computed on Python's ints and
    binary64 floats, every cell [(i, j)] with [i, j >= 1] holds what [max]
    returns on its diagonal, up and left candidates: one of the three, and
    none of the three is greater.  Its traceback cell carries the character
    [D], [U], [L] exactly when the diagonal, up, left candidate compares equal
    ([==]) to that maximum, so candidates that tie leave several tags in the
    cell. *)
Theorem scorer_cell_max_and_tags text1 text2 p h SM TM h1 i j :
  Binary64.needleman_wunsch_alignment_words_substring text1 text2 p h
    = Ok ((SM, TM), h1) →
  1 ≤ i ≤ length (tokens text1) →
  1 ≤ j ≤ length (tokens text2) →
  ∃ r1 r2 token1 token2 prev up left match_ delete insert max_score trace,
    tokens text1 !! (i - 1) = Some r1 ∧ h1 !! r1 = Some token1 ∧
    tokens text2 !! (j - 1) = Some r2 ∧ h1 !! r2 = Some token2 ∧
    mget SM (i - 1) (j - 1) = Ok prev ∧
    mget SM (i - 1) j = Ok up ∧
    mget SM i (j - 1) = Ok left ∧
    Binary64.match_candidate p prev token1 token2 = Ok match_ ∧
    Binary64.py_add up (Binary64.gap_score p) = Ok delete ∧
    Binary64.py_add left (Binary64.gap_score p) = Ok insert ∧
    mget SM i j = Ok max_score ∧
    mget TM i j = Ok trace ∧
    max_score = Binary64.py_max3 match_ delete insert ∧
    (max_score = match_ ∨ max_score = delete ∨ max_score = insert) ∧
    Binary64.py_gt match_ max_score = false ∧
    Binary64.py_gt delete max_score = false ∧
    Binary64.py_gt insert max_score = false ∧
    ("D"%char ∈ PyStr.chars trace ↔ Binary64.py_eq max_score match_ = true) ∧
    ("U"%char ∈ PyStr.chars trace ↔ Binary64.py_eq max_score delete = true) ∧
    ("L"%char ∈ PyStr.chars trace ↔ Binary64.py_eq max_score insert = true) ∧
    (∀ c, c ∈ PyStr.chars trace → c = "D"%char ∨ c = "U"%char ∨ c = "L"%char).
Proof.
  intros (s1 & s2 & F1 & F2 & Hfill & _)%num_scorer_Ok Hi Hj.
  apply num_fill_matrices_scored in Hfill as (_ & _ & Hin).
  rewrite (Forall2_length _ _ _ F1) in Hi.
  rewrite (Forall2_length _ _ _ F2) in Hj.
  destruct (Hin i j Hi Hj) as (t1 & t2 & prev & up & left & mt & d & ins
    & Ht1 & Ht2 & Hprev & Hmt & Hup & Hd & Hleft & Hins & Hmax & Htag).
  destruct (Forall2_lookup_r _ _ _ _ _ F1 Ht1) as (r1 & Hr1 & Hh1).
  destruct (Forall2_lookup_r _ _ _ _ _ F2 Ht2) as (r2 & Hr2 & Hh2).
  exists r1, r2, t1, t2, prev, up, left, mt, d, ins,
    (Binary64.py_max3 mt d ins),
    (Binary64.tags_of (Binary64.py_max3 mt d ins) mt d ins).
  destruct (py_max3_not_exceeded mt d ins) as (G1 & G2 & G3).
  destruct (tags_of_chars (Binary64.py_max3 mt d ins) mt d ins) as (D & U & L).
  split_and!; try done.
  - apply py_max3_is_argument.
  - intros c. unfold Binary64.tags_of. rewrite !chars_app, !elem_of_app.
    destruct (Binary64.py_eq _ mt), (Binary64.py_eq _ d), (Binary64.py_eq _ ins);
      cbn; rewrite ?elem_of_cons, ?elem_of_nil; tauto.
Qed.

(** The exact and the binary64 scorer part where rounding decides a
    comparison: on [b, aabba, a] against [aaaba, bb] the diagonal candidate
    of cell [(3, 2)] is the float -1.1000000000000001 and the up candidate
    the float -1.0999999999999999, where both are -11/10 in exact
    arithmetic. *)
Lemma rounding_decides_tie :
  (∃ SM TM h1,
     needleman_wunsch_alignment_words_substring rounding_text1 rounding_text2
       default_scoring rounding_heap = Ok ((SM, TM), h1) ∧
     mget TM 3 2 = Ok "DU") ∧
  (∃ SM TM h1,
     Binary64.needleman_wunsch_alignment_words_substring rounding_text1
       rounding_text2 Binary64.default_scoring rounding_heap
       = Ok ((SM, TM), h1) ∧
     mget TM 3 2 = Ok "U").
Proof. split; eexists _, _, _; split; by vm_compute. Qed.

Section rounding_example.
Import PrimFloat.

Lemma scorer_cell_max_and_tags_witness :
  ∃ SM TM h1,
    Binary64.needleman_wunsch_alignment_words_substring rounding_text1
      rounding_text2 Binary64.default_scoring rounding_heap
      = Ok ((SM, TM), h1) ∧
    ∃ match_ delete max_score trace,
      mget SM 3 2 = Ok max_score ∧ mget TM 3 2 = Ok trace ∧
      match_ = Binary64.Float (-0x1.199999999999ap+0)%float ∧
      delete = Binary64.Float (-0x1.1999999999999p+0)%float ∧
      max_score = delete ∧
      Binary64.py_gt match_ max_score = false ∧
      ("D"%char ∈ PyStr.chars trace ↔ Binary64.py_eq max_score match_ = true) ∧
      ("U"%char ∈ PyStr.chars trace ↔ Binary64.py_eq max_score delete = true).
Proof.
  eexists _, _, _. split; [by vm_compute|].
  destruct (scorer_cell_max_and_tags rounding_text1 rounding_text2
    Binary64.default_scoring rounding_heap _ _ _ 3 2 ltac:(by vm_compute)
    ltac:(simpl; lia) ltac:(simpl; lia))
    as (r1 & r2 & t1 & t2 & prev & up & left & mt & d & ins & mx & tr
        & Hr1 & Ht1 & Hr2 & Ht2 & Hprev & Hup & Hleft & Hmt & Hd & Hins & Hmx
        & Htr & Emx & _ & G1 & _ & _ & HD & HU & _).
  injection Hr1 as <-. injection Hr2 as <-.
  injection Ht1 as <-. injection Ht2 as <-.
  vm_compute in Hprev. injection Hprev as <-.
  vm_compute in Hup. injection Hup as <-.
  vm_compute in Hmt. injection Hmt as <-.
  vm_compute in Hd. injection Hd as <-.
  exists (Binary64.Float (-0x1.199999999999ap+0)%float),
    (Binary64.Float (-0x1.1999999999999p+0)%float), mx, tr.
  split_and!; try done.
  rewrite Emx. vm_compute in Hleft. injection Hleft as <-.
  vm_compute in Hins. injection Hins as <-. by vm_compute.
Defined.
End rounding_example.

(** ** The walk against the tie-break policy of the specification *)

(** The policy in the specification's words: at a cell holding the tags
    [trace], the diagonal move when the diagonal tag is present and both
    indices are positive; else the up move when the up tag is present and [i]
    is positive; else the left move when the left tag is present and [j] is
    positive; else none.  A tag is present when its character occurs in the
    cell. *)
Definition policy (trace : string) (i j : nat) : option move :=
  if decide ("D"%char ∈ PyStr.chars trace ∧ 0 < i ∧ 0 < j) then Some Diagonal
  else if decide ("U"%char ∈ PyStr.chars trace ∧ 0 < i) then Some Up
  else if decide ("L"%char ∈ PyStr.chars trace ∧ 0 < j) then Some Left
  else None.

(** The cells a walk under the policy visits from [(i, j)] in at most [fuel]
    steps, each with the move made there: a diagonal move goes on at
    [(i - 1, j - 1)], an up move at [(i - 1, j)], a left move at
    [(i, j - 1)], and the walk ends at the first cell where the policy has no
    move. *)
Fixpoint policy_walk (T : matrix string) (fuel i j : nat)
  : list (nat * nat * move) :=
  match fuel with
  | O => []
  | S fuel =>
      match mget T i j with
      | Ok trace =>
          match policy trace i j with
          | Some Diagonal => (i, j, Diagonal) :: policy_walk T fuel (i - 1) (j - 1)
          | Some Up => (i, j, Up) :: policy_walk T fuel (i - 1) j
          | Some Left => (i, j, Left) :: policy_walk T fuel i (j - 1)
          | None => []
          end
      | Raise _ => []
      end
  end.

(** The same walk as a relation, with no bound on its length: [walks T i j w]
    when [w] lists the cells visited under the policy from [(i, j)] up to,
    and without, the first cell where the policy has no move. *)
Inductive walks (T : matrix string) : nat → nat → list (nat * nat * move) → Prop :=
  | walks_end i j trace :
      mget T i j = Ok trace → policy trace i j = None → walks T i j []
  | walks_diagonal i j trace w :
      mget T i j = Ok trace → policy trace i j = Some Diagonal →
      walks T (i - 1) (j - 1) w → walks T i j ((i, j, Diagonal) :: w)
  | walks_up i j trace w :
      mget T i j = Ok trace → policy trace i j = Some Up →
      walks T (i - 1) j w → walks T i j ((i, j, Up) :: w)
  | walks_left i j trace w :
      mget T i j = Ok trace → policy trace i j = Some Left →
      walks T i (j - 1) w → walks T i j ((i, j, Left) :: w).

(** A gap placeholder: an object of class [Spacer]. *)
Definition is_gap (h : heap) (r : ref) : Prop :=
  ∃ t, h !! r = Some t ∧ cls t = KSpacer.

(** What a move made at cell [(i, j)] contributes to the two outputs: the
    diagonal move token [i - 1] of sequence 1 and token [j - 1] of sequence
    2; the up move token [i - 1] of sequence 1 and a gap placeholder; the left
    move a gap placeholder and token [j - 1] of sequence 2. *)
Definition contributes (text1 text2 : Text) (h : heap)
    (step : nat * nat * move) (r1 r2 : ref) : Prop :=
  match step with
  | (i, j, Diagonal) =>
      tokens text1 !! (i - 1) = Some r1 ∧ tokens text2 !! (j - 1) = Some r2
  | (i, j, Up) => tokens text1 !! (i - 1) = Some r1 ∧ is_gap h r2
  | (i, j, Left) => is_gap h r1 ∧ tokens text2 !! (j - 1) = Some r2
  end.

Lemma has_tag_char (a : ascii) trace :
  has_tag (String a "") trace = true ↔ a ∈ PyStr.chars trace.
Proof.
  unfold has_tag, PyStr.contains_char. rewrite existsb_exists. split.
  - intros (x & Hin & Heq%Ascii.eqb_eq). subst x. by apply list_elem_of_In.
  - intros Hin. exists a. split; [by apply list_elem_of_In|apply Ascii.eqb_refl].
Qed.

Lemma guards_policy trace i j :
  policy trace i j =
    if diagonal_guard trace i j then Some Diagonal
    else if up_guard trace i then Some Up
    else if left_guard trace j then Some Left
    else None.
Proof.
  unfold policy, diagonal_guard, up_guard, left_guard.
  pose proof (has_tag_char "D" trace) as HD.
  pose proof (has_tag_char "U" trace) as HU.
  pose proof (has_tag_char "L" trace) as HL.
  destruct (has_tag "D" trace), (has_tag "U" trace), (has_tag "L" trace),
    (Nat.ltb_spec 0 i), (Nat.ltb_spec 0 j); simpl;
    repeat case_decide; try done; exfalso; intuition lia.
Qed.

Lemma extends_is_gap h h' r : extends h h' → is_gap h r → is_gap h' r.
Proof.
  intros Hext (t & Ht & Hc).
  destruct (extends_lookup _ _ _ _ Hext Ht) as (t' & Ht' & Hcore).
  exists t'. split; [done|]. unfold core in Hcore. congruence.
Qed.

Lemma contributes_extends text1 text2 h h' step r1 r2 :
  extends h h' → contributes text1 text2 h step r1 r2 →
  contributes text1 text2 h' step r1 r2.
Proof.
  intros Hext. destruct step as [[i j] []]; simpl; [done| |];
    intros [? ?]; split; try done; by eapply extends_is_gap.
Qed.

Section policy.
Variables text1 text2 : Text.
Variable T : matrix string.
Let n := length (tokens text1).
Let m := length (tokens text2).

(** The loop makes the moves of the policy, and no other. *)
Lemma traceback_loop_policy fuel i j a1 a2 path h :
  0 < n → 0 < m → shape T (n + 1) (m + 1) →
  i ≤ n → j ≤ m → i + j < fuel →
  valid h (tokens text1) → valid h (tokens text2) →
  valid h (tokens a1) → valid h (tokens a2) →
  ∃ a1' a2' h' new1 new2,
    traceback_loop fuel text1 text2 T i j a1 a2 path h
      = Ok ((a1', a2', rev (policy_walk T fuel i j).*2 ++ path), h') ∧
    tokens a1' = new1 ++ tokens a1 ∧ tokens a2' = new2 ++ tokens a2 ∧
    Forall3 (contributes text1 text2 h') (rev (policy_walk T fuel i j)) new1 new2 ∧
    extends h h' ∧ valid h' (tokens a1') ∧ valid h' (tokens a2').
Proof.
  intros Hn Hm Hshape. revert i j a1 a2 path h.
  induction fuel as [|fuel IH]; intros i j a1 a2 path h Hi Hj Hfuel Hv1 Hv2 Ha1 Ha2;
    [lia|].
  destruct (mget_in_shape T (n + 1) (m + 1) i j) as [trace HT]; [done|lia|lia|].
  destruct (lookup_lt_is_Some_2 (tokens text1) (if (0 <? i)%nat then i - 1 else 0))
    as [token1 H1].
  { fold n. destruct (Nat.ltb_spec 0 i); lia. }
  destruct (lookup_lt_is_Some_2 (tokens text2) (if (0 <? j)%nat then j - 1 else 0))
    as [token2 H2].
  { fold m. destruct (Nat.ltb_spec 0 j); lia. }
  assert (token1 < length h) as Hr1.
  { unfold valid in Hv1. rewrite Forall_lookup in Hv1. by eapply Hv1. }
  assert (token2 < length h) as Hr2.
  { unfold valid in Hv2. rewrite Forall_lookup in Hv2. by eapply Hv2. }
  rewrite (traceback_loop_pass _ _ _ _ _ _ _ _ _ _ trace token1 token2) by done.
  cbn [policy_walk]. rewrite HT, guards_policy.
  destruct (diagonal_guard trace i j) eqn:Hd.
  { apply guard_pos_i in Hd as [Hi0 Hj0].
    destruct (text_insert_valid h a1 token1) as (b1 & h1 & Hb1 & Hl1); [done..|].
    destruct (text_insert_valid h1 a2 token2) as (b2 & h2 & Hb2 & Hl2);
      [lia|by eapply valid_length; [|done]; lia|].
    pose proof (text_insert_tokens _ _ _ _ _ Hb1) as E1.
    pose proof (text_insert_tokens _ _ _ _ _ Hb2) as E2.
    destruct (IH (i - 1) (j - 1) b1 b2 (Diagonal :: path) h2)
      as (a1' & a2' & h' & new1 & new2 & Hrun & N1 & N2 & HF & Hext & V1 & V2);
      try lia.
    { eapply valid_length; [|done]. lia. }
    { eapply valid_length; [|done]. lia. }
    { rewrite E1. apply valid_cons. split; [lia|].
      eapply valid_length; [|done]. lia. }
    { rewrite E2. apply valid_cons. split; [lia|].
      eapply valid_length; [|done]. lia. }
    exists a1', a2', h', (new1 ++ [token1]), (new2 ++ [token2]).
    split_and!; try done.
    - apply mbind_Ok. exists b1, h1. split; [done|].
      apply mbind_Ok. exists b2, h2. split; [done|].
      rewrite Hrun. cbn [fmap list_fmap rev]. csimpl.
      by rewrite <- app_assoc.
    - rewrite N1, E1, <- app_assoc. done.
    - rewrite N2, E2, <- app_assoc. done.
    - cbn [rev]. apply Forall3_app; [done|]. constructor; [|constructor].
      apply current_pos in H1; [|done..]. apply current_pos in H2; [|done..].
      done.
    - etrans; [by eapply stable_text_insert|].
      etrans; [by eapply stable_text_insert|done]. }
  destruct (up_guard trace i) eqn:Hu.
  { apply up_guard_pos in Hu.
    destruct (gap_placeholder_valid h token2 token1) as (sp & h0 & Hsp & Hsp0);
      [done..|].
    pose proof (stable_gap_placeholder _ _ _ _ _ Hsp) as Hext0.
    pose proof (extends_length _ _ Hext0) as Hl0.
    destruct (text_insert_valid h0 a1 token1) as (b1 & h1 & Hb1 & Hl1);
      [lia|by eapply valid_length; [|done]; lia|].
    destruct (text_insert_valid h1 a2 sp) as (b2 & h2 & Hb2 & Hl2);
      [lia|by eapply valid_length; [|done]; lia|].
    pose proof (text_insert_tokens _ _ _ _ _ Hb1) as E1.
    pose proof (text_insert_tokens _ _ _ _ _ Hb2) as E2.
    destruct (IH (i - 1) j b1 b2 (Up :: path) h2)
      as (a1' & a2' & h' & new1 & new2 & Hrun & N1 & N2 & HF & Hext & V1 & V2);
      try lia.
    { eapply valid_length; [|done]. lia. }
    { eapply valid_length; [|done]. lia. }
    { rewrite E1. apply valid_cons. split; [lia|].
      eapply valid_length; [|done]. lia. }
    { rewrite E2. apply valid_cons. split; [lia|].
      eapply valid_length; [|done]. lia. }
    assert (extends h0 h') as Hext1.
    { etrans; [by eapply stable_text_insert|].
      etrans; [by eapply stable_text_insert|done]. }
    exists a1', a2', h', (new1 ++ [token1]), (new2 ++ [sp]).
    split_and!; try done.
    - apply mbind_Ok. exists sp, h0. split; [done|].
      apply mbind_Ok. exists b1, h1. split; [done|].
      apply mbind_Ok. exists b2, h2. split; [done|].
      rewrite Hrun. cbn [rev]. csimpl. by rewrite <- app_assoc.
    - rewrite N1, E1, <- app_assoc. done.
    - rewrite N2, E2, <- app_assoc. done.
    - cbn [rev]. apply Forall3_app; [done|]. constructor; [|constructor].
      apply current_pos in H1; [|done..]. split; [done|].
      apply gap_placeholder_Ok in Hsp as (c & t & _ & Ht & Hc & _).
      eapply extends_is_gap; [exact Hext1|]. by exists t.
    - by etrans. }
  destruct (left_guard trace j) eqn:Hl.
  { apply left_guard_pos in Hl.
    destruct (gap_placeholder_valid h token1 token2) as (sp & h0 & Hsp & Hsp0);
      [done..|].
    pose proof (stable_gap_placeholder _ _ _ _ _ Hsp) as Hext0.
    pose proof (extends_length _ _ Hext0) as Hl0.
    destruct (text_insert_valid h0 a1 sp) as (b1 & h1 & Hb1 & Hl1);
      [lia|by eapply valid_length; [|done]; lia|].
    destruct (text_insert_valid h1 a2 token2) as (b2 & h2 & Hb2 & Hl2);
      [lia|by eapply valid_length; [|done]; lia|].
    pose proof (text_insert_tokens _ _ _ _ _ Hb1) as E1.
    pose proof (text_insert_tokens _ _ _ _ _ Hb2) as E2.
    destruct (IH i (j - 1) b1 b2 (Left :: path) h2)
      as (a1' & a2' & h' & new1 & new2 & Hrun & N1 & N2 & HF & Hext & V1 & V2);
      try lia.
    { eapply valid_length; [|done]. lia. }
    { eapply valid_length; [|done]. lia. }
    { rewrite E1. apply valid_cons. split; [lia|].
      eapply valid_length; [|done]. lia. }
    { rewrite E2. apply valid_cons. split; [lia|].
      eapply valid_length; [|done]. lia. }
    assert (extends h0 h') as Hext1.
    { etrans; [by eapply stable_text_insert|].
      etrans; [by eapply stable_text_insert|done]. }
    exists a1', a2', h', (new1 ++ [sp]), (new2 ++ [token2]).
    split_and!; try done.
    - apply mbind_Ok. exists sp, h0. split; [done|].
      apply mbind_Ok. exists b1, h1. split; [done|].
      apply mbind_Ok. exists b2, h2. split; [done|].
      rewrite Hrun. cbn [rev]. csimpl. by rewrite <- app_assoc.
    - rewrite N1, E1, <- app_assoc. done.
    - rewrite N2, E2, <- app_assoc. done.
    - cbn [rev]. apply Forall3_app; [done|]. constructor; [|constructor].
      apply current_pos in H2; [|done..]. split; [|done].
      apply gap_placeholder_Ok in Hsp as (c & t & _ & Ht & Hc & _).
      eapply extends_is_gap; [exact Hext1|]. by exists t.
    - by etrans. }
  exists a1, a2, h, [], []. split_and!; try done. constructor.
Qed.
End policy.

Lemma policy_positive trace i j mv :
  policy trace i j = Some mv →
  match mv with
  | Diagonal => 0 < i ∧ 0 < j
  | Up => 0 < i
  | Left => 0 < j
  end.
Proof.
  unfold policy. repeat case_decide; intros [= <-]; tauto.
Qed.

Lemma policy_walk_walks T rows cols fuel i j :
  shape T rows cols → i < rows → j < cols → i + j < fuel →
  walks T i j (policy_walk T fuel i j).
Proof.
  intros Hshape. revert i j.
  induction fuel as [|fuel IH]; intros i j Hi Hj Hfuel; [lia|].
  destruct (mget_in_shape T rows cols i j) as [trace HT]; [done..|].
  cbn [policy_walk]. rewrite HT.
  destruct (policy trace i j) as [[| |]|] eqn:Hp.
  - pose proof (policy_positive _ _ _ _ Hp) as [? ?].
    eapply walks_diagonal; [done..|]. apply IH; lia.
  - pose proof (policy_positive _ _ _ _ Hp) as Hpos. simpl in Hpos.
    eapply walks_up; [done..|]. apply IH; lia.
  - pose proof (policy_positive _ _ _ _ Hp) as Hpos. simpl in Hpos.
    eapply walks_left; [done..|]. apply IH; lia.
  - by eapply walks_end.
Qed.

Lemma walks_functional T i j w w' : walks T i j w → walks T i j w' → w = w'.
Proof.
  intros H. revert w'.
  induction H as [i j trace HT Hp|i j trace w HT Hp _ IH|i j trace w HT Hp _ IH
    |i j trace w HT Hp _ IH]; intros w' H';
    inversion H' as [? ? trace' HT' Hp'|? ? trace' ? HT' Hp' Hw'
      |? ? trace' ? HT' Hp' Hw'|? ? trace' ? HT' Hp' Hw']; subst;
    assert (trace' = trace) as -> by congruence; try congruence;
    f_equal; by apply IH.
Qed.

(** The reconstructor makes the walk of the policy. *)
Lemma reconstructor_follows_policy text1 text2 T h :
  tokens text1 ≠ [] → tokens text2 ≠ [] →
  shape T (length (tokens text1) + 1) (length (tokens text2) + 1) →
  valid h (tokens text1) → valid h (tokens text2) →
  ∃ walk a1 a2 h',
    walks T (length (tokens text1)) (length (tokens text2)) walk ∧
    get_alignment_and_visualization_words text1 text2 T h
      = Ok ((a1, a2, rev walk.*2), h') ∧
    Forall3 (contributes text1 text2 h') (rev walk) (tokens a1) (tokens a2).
Proof.
  intros Hne1 Hne2 Hshape Hv1 Hv2.
  set (n := length (tokens text1)) in *. set (m := length (tokens text2)) in *.
  assert (0 < n) by (unfold n; destruct (tokens text1); [done|simpl; lia]).
  assert (0 < m) by (unfold m; destruct (tokens text2); [done|simpl; lia]).
  set (e := {| tokens := []; _text := Some "" |}).
  destruct (traceback_loop_policy text1 text2 T (S (n + m)) n m e e [] h)
    as (a1 & a2 & h1 & new1 & new2 & Hrun & N1 & N2 & HF & Hext & V1 & V2);
    try done; try (fold n m; lia); try constructor.
  destruct (annotate_pairs_valid h1 (zip (tokens a1) (tokens a2)))
    as (h2 & Hann & L2); [by apply valid_zip|].
  exists (policy_walk T (S (n + m)) n m), a1, a2, h2. split_and!.
  - apply (policy_walk_walks T (n + 1) (m + 1)); [done|lia..].
  - unfold get_alignment_and_visualization_words. fold n m.
    apply mbind_Ok. exists e, h. split; [done|].
    apply mbind_Ok. exists e, h. split; [done|].
    rewrite app_nil_r in Hrun.
    apply mbind_Ok. eexists (_, _, _), h1. split; [exact Hrun|].
    apply mbind_Ok. exists tt, h2. split; [done|]. by apply mret_Ok.
  - simpl in N1, N2. rewrite app_nil_r in N1, N2. rewrite N1, N2.
    eapply Forall3_impl; [exact HF|]. intros step r1 r2.
    apply contributes_extends. by eapply stable_annotate_pairs.
Qed.

(** C5.  On two non-empty sequences and a traceback matrix of their shape the
    reconstructor returns, and what it returns is what the tie-break policy
    of the specification prescribes at every cell the walk visits, from
    [(n, m)] to the first cell where the policy has no move: the recorded
    path is the moves of that walk, latest first, and the two outputs hold,
    pair by pair in the order of the sequences, what each move contributes:
    the two tokens of the cell for a diagonal move, the token of sequence 1
    and a [Spacer] for an up move, a [Spacer] and the token of sequence 2 for
    a left move.  The policy reads a tag as the presence of its character in
    the cell, tries the diagonal tag first whatever else the cell holds, and
    ends the walk where no tag with its index condition is left. *)
Theorem traceback_priority text1 text2 T h :
  tokens text1 ≠ [] → tokens text2 ≠ [] →
  shape T (length (tokens text1) + 1) (length (tokens text2) + 1) →
  valid h (tokens text1) → valid h (tokens text2) →
  ∃ walk a1 a2 h',
    walks T (length (tokens text1)) (length (tokens text2)) walk ∧
    get_alignment_and_visualization_words text1 text2 T h
      = Ok ((a1, a2, rev walk.*2), h') ∧
    Forall3 (contributes text1 text2 h') (rev walk) (tokens a1) (tokens a2).
Proof. apply reconstructor_follows_policy. Qed.

(** A matrix whose cells offer more than the walk may take. *)
Definition tied_matrix : list (list string) :=
  [["DUL"; "DUL"; "DL"; "L"];
   ["U"; "D"; "UL"; "L"];
   ["U"; "U"; "D"; "DUL"]].

Lemma traceback_priority_witness :
  ∃ walk a1 a2 h',
    walks tied_matrix 2 3 walk ∧
    get_alignment_and_visualization_words example_text1 example_text2
      tied_matrix example_heap = Ok ((a1, a2, rev walk.*2), h') ∧
    Forall3 (contributes example_text1 example_text2 h') (rev walk)
      (tokens a1) (tokens a2) ∧
    walk = [(2, 3, Diagonal); (1, 2, Up); (0, 2, Left); (0, 1, Left)] ∧
    mget tied_matrix 0 0 = Ok "DUL" ∧
    tokens a1 = [7; 6; 0; 1] ∧ tokens a2 = [2; 3; 5; 4].
Proof.
  destruct (traceback_priority example_text1 example_text2 tied_matrix
    example_heap) as (walk & a1 & a2 & h' & Hw & Hrun & HF);
    [done|done|split; [done|repeat constructor]
    |repeat constructor; simpl; lia|repeat constructor; simpl; lia|].
  assert (walk = [(2, 3, Diagonal); (1, 2, Up); (0, 2, Left); (0, 1, Left)])
    as Hwalk.
  { eapply walks_functional; [exact Hw|].
    eapply walks_diagonal; [by vm_compute..|].
    eapply walks_up; [by vm_compute..|].
    eapply walks_left; [by vm_compute..|].
    eapply walks_left; [by vm_compute..|].
    eapply walks_end; by vm_compute. }
  exists walk, a1, a2, h'. split_and!; try done.
  - subst walk. vm_compute in Hrun. by injection Hrun as <- _ _.
  - subst walk. vm_compute in Hrun. by injection Hrun as _ <- _.
Defined.

(** ** The aligner on Python's numbers *)

Lemma resolved_valid (h : heap) rs ts :
  Forall2 (λ r t, h !! r = Some t) rs ts → valid h rs.
Proof.
  intros H. unfold valid. induction H as [|r t rs ts Hr _ IH]; constructor; [|done].
  by eapply lookup_lt_Some.
Qed.

Lemma reconstructor_needs_tokens text1 text2 T h res h' :
  get_alignment_and_visualization_words text1 text2 T h = Ok (res, h') →
  tokens text1 ≠ [] ∧ tokens text2 ≠ [].
Proof.
  destruct res as [[b1 b2] path].
  intros (h1 & Hloop & _)%reconstructor_Ok.
  apply traceback_loop_inv in Hloop as (trace & token1 & token2 & _ & H1 & H2 & _).
  unfold current in H1, H2. split; intros E; rewrite E in *; done.
Qed.

(** What [align_sentences] returns, whenever it returns: the matrices are
    those of the scorer on Python's numbers, and the two outputs are woven
    from the inputs by the walk of the tie-break policy over its traceback
    matrix; they are equally long. *)
Lemma num_align_sentences_Ok text1 text2 h a1 a2 h' :
  Binary64.align_sentences text1 text2 h = Ok ((a1, a2), h') →
  ∃ SM TM h1 walk,
    Binary64.needleman_wunsch_alignment_words_substring text1 text2
      Binary64.default_scoring h = Ok ((SM, TM), h1) ∧
    walks TM (length (tokens text1)) (length (tokens text2)) walk ∧
    Forall3 (contributes text1 text2 h') (rev walk) (tokens a1) (tokens a2) ∧
    length (tokens a1) = length (tokens a2).
Proof.
  unfold Binary64.align_sentences. intros Hrun.
  apply mbind_Ok in Hrun as ([SM TM] & h1 & Hnw & Hrun).
  apply mbind_Ok in Hrun as ([[b1 b2] p] & h2 & Hget & Hrun).
  apply mbind_Ok in Hrun as (c1 & h3 & Hr1 & Hrun).
  apply mbind_Ok in Hrun as (c2 & h4 & Hr2 & [[= <- <-] <-]%mret_Ok).
  pose proof Hnw as (s1 & s2 & F1 & F2 & Hfill & _)%num_scorer_Ok.
  apply num_fill_matrices_scored in Hfill as (_ & HshT & _).
  rewrite <- (Forall2_length _ _ _ F1), <- (Forall2_length _ _ _ F2) in HshT.
  destruct (reconstructor_needs_tokens _ _ _ _ _ _ Hget) as [Hne1 Hne2].
  destruct (reconstructor_follows_policy text1 text2 TM h1 Hne1 Hne2 HshT)
    as (walk & a1 & a2 & h2' & Hw & Hget' & HF);
    [by eapply resolved_valid..|].
  rewrite Hget in Hget'. injection Hget' as <- <- -> <-.
  exists SM, TM, h1, walk.
  rewrite (recalculate_indices_tokens _ _ _ _ Hr1),
    (recalculate_indices_tokens _ _ _ _ Hr2).
  assert (Forall3 (contributes text1 text2 h4) (rev walk) (tokens b1) (tokens b2))
    as HF'.
  { eapply Forall3_impl; [exact HF|]. intros step r1 r2.
    apply contributes_extends.
    etrans; by eapply stable_recalculate_indices. }
  split_and!; try done.
  apply Forall3_length_lr in HF' as HL1. apply Forall3_length_lm in HF'. lia.
Qed.

(** Whenever [align_sentences], run on Python's numbers, returns, its two
    outputs are equally long and were woven from the inputs by the walk that
    the tie-break policy makes over the traceback matrix of the scorer, from
    the last cell to the first cell without a move: position by position
    they hold the two tokens of a diagonal move, or the token of one input
    and a [Spacer] opposite. *)
Theorem program_alignment_follows_policy text1 text2 h a1 a2 h' :
  Binary64.align_sentences text1 text2 h = Ok ((a1, a2), h') →
  ∃ SM TM h1 walk,
    Binary64.needleman_wunsch_alignment_words_substring text1 text2
      Binary64.default_scoring h = Ok ((SM, TM), h1) ∧
    walks TM (length (tokens text1)) (length (tokens text2)) walk ∧
    Forall3 (contributes text1 text2 h') (rev walk) (tokens a1) (tokens a2) ∧
    length (tokens a1) = length (tokens a2).
Proof. apply num_align_sentences_Ok. Qed.

Lemma program_alignment_follows_policy_witness :
  ∃ a1 a2 h' SM TM h1 walk,
    Binary64.align_sentences rounding_text1 rounding_text2 rounding_heap
      = Ok ((a1, a2), h') ∧
    Binary64.needleman_wunsch_alignment_words_substring rounding_text1
      rounding_text2 Binary64.default_scoring rounding_heap
      = Ok ((SM, TM), h1) ∧
    walks TM 3 2 walk ∧
    Forall3 (contributes rounding_text1 rounding_text2 h') (rev walk)
      (tokens a1) (tokens a2) ∧
    walk = [(3, 2, Up); (2, 2, Diagonal); (1, 1, Diagonal)] ∧
    tokens a1 = [0; 1; 2] ∧ tokens a2 = [3; 4; 5].
Proof.
  assert (∃ a1 a2 h', Binary64.align_sentences rounding_text1 rounding_text2
    rounding_heap = Ok ((a1, a2), h') ∧ tokens a1 = [0; 1; 2]
    ∧ tokens a2 = [3; 4; 5]) as (a1 & a2 & h' & Hrun & E1 & E2)
    by (eexists _, _, _; split; [by vm_compute|split; by vm_compute]).
  destruct (program_alignment_follows_policy _ _ _ _ _ _ Hrun)
    as (SM & TM & h1 & walk & Hnw & Hw & HF & _).
  exists a1, a2, h', SM, TM, h1, walk.
  split; [exact Hrun|]. split; [exact Hnw|]. split; [exact Hw|].
  split; [exact HF|]. split; [|split; [exact E1|exact E2]].
  assert (TM = [[""; "L"; "L"]; ["U"; "D"; "D"]; ["U"; "D"; "D"]; ["U"; "U"; "U"]])
    as ->.
  { vm_compute in Hnw. by injection Hnw as _ <- _. }
  eapply walks_functional; [exact Hw|].
  eapply walks_up; [by vm_compute..|].
  eapply walks_diagonal; [by vm_compute..|].
  eapply walks_diagonal; [by vm_compute..|].
  eapply walks_end; by vm_compute.
Defined.

(** On the same two sequences the aligner on exact numbers takes the tied
    diagonal at cell [(3, 2)] and puts the placeholder first. *)
Lemma exact_alignment_parts_from_program :
  ∃ a h', align_sentences rounding_text1 rounding_text2 rounding_heap = Ok (a, h') ∧
    path a = [Up; Diagonal; Diagonal] ∧
    tokens (s1_aligned a) = [0; 1; 2] ∧ tokens (s2_aligned a) = [5; 3; 4].
Proof. eexists _, _. split; [by vm_compute|]. split_and!; by vm_compute. Qed.

(** [isinstance(token1, type(token2))] is sameness of class unless [token2]
    is of the base class. *)
Lemma isinstance_same_class token1 token2 :
  cls token2 ≠ KToken →
  isinstance token1 (cls token2) = true ↔ cls token1 = cls token2.
Proof.
  unfold isinstance, subclass. intros Hne.
  destruct (cls token2); try done; apply bool_decide_eq_true.
Qed.

Lemma isinstance_base_class token1 token2 :
  cls token2 = KToken → isinstance token1 (cls token2) = true.
Proof. unfold isinstance. by intros ->. Qed.

(** C6.  The word "ab" against the token "a/b" of the base class: the kinds
    differ, yet [isinstance(token1, type(token2))] holds and the type bonus is
    added; with the arguments exchanged it is not. *)
Theorem type_bonus_for_distinct_kinds :
  cls (create_token "ab") = KWord ∧ cls (create_token "a/b") = KToken ∧
  ∃ with_bonus without_bonus,
    mismatch_score_adjusted default_scoring (create_token "ab") (create_token "a/b")
      = Ok with_bonus ∧
    mismatch_score_adjusted default_scoring (create_token "a/b") (create_token "ab")
      = Ok without_bonus ∧
    (with_bonus == 0)%Q ∧ (without_bonus == -1 # 2)%Q ∧
    (with_bonus == without_bonus + type_match_score default_scoring)%Q.
Proof.
  split; [done|]. split; [done|]. eexists _, _.
  split; [by vm_compute|]. split; [by vm_compute|]. by vm_compute.
Qed.

(** The mismatch cost grows with the common substring as long as the weight
    of the substring bonus is not negative. *)
Lemma mismatch_monotone p token1 token2 token1' token2' c c' :
  (0 <= substring_match_score p)%Q →
  mismatch_score_adjusted p token1 token2 = Ok c →
  mismatch_score_adjusted p token1' token2' = Ok c' →
  let source := (comparison_source p token1 token2).1 in
  let source' := (comparison_source p token1' token2').1 in
  PyStr.len (text source) = PyStr.len (text source') →
  PyStr.len (text token2) = PyStr.len (text token2') →
  cls token1 = cls token1' →
  cls token2 = cls token2' →
  PyStr.len (longest_common_substring (text source) (text token2))
    ≤ PyStr.len (longest_common_substring (text source') (text token2')) →
  (c <= c')%Q.
Proof.
  intros Hw Hc Hc'. simpl. intros Hl1 Hl2 Hk1 Hk2 Hlcs.
  unfold mismatch_score_adjusted in Hc, Hc'.
  destruct (comparison_source p token1 token2) as [src om].
  destruct (comparison_source p token1' token2') as [src' om'].
  simpl in *. unfold isinstance in *. rewrite <- Hl1, <- Hl2, <- Hk1, <- Hk2 in Hc'.
  set (max_len := Nat.max (PyStr.len (text src)) (PyStr.len (text token2))) in *.
  unfold py_div in *. destruct (Nat.eqb_spec max_len 0) as [|Hpos]; [done|].
  simpl in Hc, Hc'.
  assert (Qnat (PyStr.len (longest_common_substring (text src) (text token2)))
            / Qnat max_len
          <= Qnat (PyStr.len (longest_common_substring (text src') (text token2')))
            / Qnat max_len)%Q as Hratio.
  { unfold Qdiv. apply Qmult_le_compat_r.
    - unfold Qnat. rewrite <- Zle_Qle. lia.
    - apply Qinv_le_0_compat. unfold Qnat. change 0%Q with (inject_Z 0).
      rewrite <- Zle_Qle. lia. }
  destruct (subclass (cls token1) (cls token2) && (1 <? max_len)%nat);
    injection Hc as <-; injection Hc' as <-; nra.
Qed.

Lemma mismatch_cat_cats_above_cat_dog :
  ∃ cats dog,
    mismatch_score_adjusted default_scoring (create_token "cat") (create_token "cats")
      = Ok cats ∧
    mismatch_score_adjusted default_scoring (create_token "cat") (create_token "dog")
      = Ok dog ∧
    (dog < cats)%Q.
Proof. eexists _, _. split; [by vm_compute|]. split; by vm_compute. Qed.




(** ** What the reindexing writes *)

Lemma update_lookup r f h h' r' :
  update r f h = Ok (tt, h') →
  h' !! r' = if decide (r' = r) then f <$> h !! r' else h !! r'.
Proof.
  intros (t & Ht & ->)%update_Ok. case_decide as Hr.
  - subst. rewrite Ht. simpl. apply list_lookup_insert_eq.
    by eapply lookup_lt_Some.
  - by apply list_lookup_insert_ne.
Qed.

(** A token with its position erased: what [recalculate_indices] leaves
    alone. *)
Definition unindexed (t : Token) : Token :=
  {| cls := cls t; text := text t; index := None; start := None;
     aligned := aligned t; alignment_spaces := alignment_spaces t;
     color := color t; bg := bg t; original := original t;
     operation := operation t |}.

Lemma unindexed_set_index_start i s t :
  unindexed (set_index_start i s t) = unindexed t.
Proof. done. Qed.

Lemma recalculate_loop_unindexed toks i s h h' :
  recalculate_loop toks i s h = Ok (tt, h') → unindexed <$> h' = unindexed <$> h.
Proof.
  revert i s h. induction toks as [|r rest IH]; intros i s h.
  { by intros [_ <-]%mret_Ok. }
  cbn [recalculate_loop]. intros Hrun.
  apply mbind_Ok in Hrun as ([] & h1 & (t & Ht & ->)%update_Ok & Hrun).
  apply mbind_Ok in Hrun as (offset & h2 & Hoff & Hrun).
  assert (h2 = <[r:=set_index_start (Z.of_nat i) (Z.of_nat s) t]> h) as ->.
  { destruct rest as [|r' rest'].
    - by apply mret_Ok in Hoff as [_ <-].
    - apply mbind_Ok in Hoff as (nt & h3 & [_ ->]%load_Ok & [_ <-]%mret_Ok). done. }
  apply mbind_Ok in Hrun as (token & h3 & [_ ->]%load_Ok & Hrun).
  apply IH in Hrun. rewrite Hrun, list_fmap_insert, unindexed_set_index_start.
  apply list_insert_id. by rewrite list_lookup_fmap, Ht.
Qed.

Lemma recalculate_indices_unindexed t h t' h' :
  recalculate_indices t h = Ok (t', h') → unindexed <$> h' = unindexed <$> h.
Proof.
  unfold recalculate_indices, to_string. intros Hrun.
  apply mbind_Ok in Hrun as ([] & h1 & Hloop & Hrun).
  apply mbind_Ok in Hrun as (s & h2 & Hs & [_ <-]%mret_Ok).
  apply mbind_Ok in Hs as (ts & h3 & ->%texts_of_pure & [_ <-]%mret_Ok).
  by eapply recalculate_loop_unindexed.
Qed.

Lemma unindexed_lookup (h h' : heap) r t :
  unindexed <$> h' = unindexed <$> h → h !! r = Some t →
  ∃ t', h' !! r = Some t' ∧ unindexed t' = unindexed t.
Proof.
  intros Heq Hr.
  assert ((unindexed <$> h') !! r = Some (unindexed t)) as Hl
    by (by rewrite Heq, list_lookup_fmap, Hr).
  rewrite list_lookup_fmap in Hl. destruct (h' !! r) as [t'|]; [|done].
  exists t'. split; [done|]. simpl in Hl. congruence.
Qed.

(** The offsets the spacing rule gives the tokens of a sequence, the first
    one standing at [start]. *)
Fixpoint start_offsets (ts : list Token) (start : nat) : list nat :=
  match ts with
  | [] => []
  | t :: rest =>
      start :: start_offsets rest
        (start + token_len t
         + match rest with
           | [] => 0
           | next_token :: _ => if no_space_needed next_token then 0 else 1
           end)
  end.

Lemma start_offsets_core ts ts' s :
  Forall2 (λ t t', core t = core t') ts ts' →
  start_offsets ts s = start_offsets ts' s.
Proof.
  intros H. revert s. induction H as [|t t' ts ts' Ht Hts IH]; intros s; [done|].
  simpl. f_equal.
  assert (token_len t = token_len t') as ->.
  { unfold token_len. unfold core in Ht. by injection Ht as _ -> _. }
  assert (match ts with [] => 0 | nt :: _ => if no_space_needed nt then 0 else 1 end
          = match ts' with [] => 0 | nt :: _ => if no_space_needed nt then 0 else 1 end)
    as ->; [|apply IH].
  destruct Hts as [|u u' ? ? Hu _]; [done|].
  unfold no_space_needed, isinstance. unfold core in Hu. by injection Hu as -> _ _.
Qed.

Lemma recalculate_loop_frame toks i s h h' r :
  recalculate_loop toks i s h = Ok (tt, h') → r ∉ toks → h' !! r = h !! r.
Proof.
  revert i s h. induction toks as [|r0 rest IH]; intros i s h.
  { by intros [_ <-]%mret_Ok. }
  cbn [recalculate_loop]. intros Hrun Hnot.
  apply not_elem_of_cons in Hnot as [Hne Hnot].
  apply mbind_Ok in Hrun as ([] & h1 & Hupd & Hrun).
  apply mbind_Ok in Hrun as (offset & h2 & Hoff & Hrun).
  assert (h2 = h1) as ->.
  { destruct rest as [|r' rest'].
    - by apply mret_Ok in Hoff as [_ <-].
    - apply mbind_Ok in Hoff as (nt & h3 & [_ ->]%load_Ok & [_ <-]%mret_Ok). done. }
  apply mbind_Ok in Hrun as (token & h3 & [_ ->]%load_Ok & Hrun).
  rewrite (IH _ _ _ Hrun Hnot), (update_lookup _ _ _ _ r Hupd).
  by rewrite decide_False.
Qed.

(** After the loop, the last occurrence of every object holds its position
    and its offset. *)
Lemma recalculate_loop_values toks i s h h' ts :
  recalculate_loop toks i s h = Ok (tt, h') →
  Forall2 (λ r t, h' !! r = Some t) toks ts →
  ∀ k r, toks !! k = Some r → r ∉ drop (S k) toks →
    ∃ t, h' !! r = Some t ∧ index t = Some (Z.of_nat (i + k)) ∧
      start t = Z.of_nat <$> start_offsets ts s !! k.
Proof.
  revert i s h ts. induction toks as [|r0 rest IH]; intros i s h ts.
  { intros _ _ k r Hk. done. }
  cbn [recalculate_loop]. intros Hrun Hts k r Hk Hlast.
  apply Forall2_cons_inv_l in Hts as (t0 & ts' & Ht0 & Hts' & ->).
  apply mbind_Ok in Hrun as ([] & h1 & Hupd & Hrun).
  apply mbind_Ok in Hrun as (offset & h2 & Hoff & Hrun).
  assert (h2 = h1 ∧ offset = match rest with
                             | [] => 0
                             | r' :: _ => match h1 !! r' with
                                          | Some nt => if no_space_needed nt then 0 else 1
                                          | None => 0
                                          end
                             end) as [-> ->].
  { destruct rest as [|r' rest'].
    - by apply mret_Ok in Hoff as [<- <-].
    - apply mbind_Ok in Hoff as (nt & h3 & [Hnt ->]%load_Ok & [<- <-]%mret_Ok).
      by rewrite Hnt. }
  apply mbind_Ok in Hrun as (token & h3 & [Htoken ->]%load_Ok & Hrun).
  pose proof (stable_recalculate_loop _ _ _ _ _ _ Hrun) as Hext.
  (* the running offset, read off the final store *)
  assert (token_len token = token_len t0) as Hlen.
  { destruct (extends_lookup _ _ _ _ Hext Htoken) as (t' & Ht' & Hcore).
    assert (t' = t0) as -> by congruence.
    unfold token_len. unfold core in Hcore. by injection Hcore as _ -> _. }
  assert (match rest with
          | [] => 0
          | r' :: _ => match h1 !! r' with
                       | Some nt => if no_space_needed nt then 0 else 1
                       | None => 0
                       end
          end = match ts' with
                | [] => 0
                | nt :: _ => if no_space_needed nt then 0 else 1
                end) as Hoffset.
  { destruct Hts' as [|r' nt' rest' ts'' Hnt' _]; [done|].
    destruct (h1 !! r') as [nt|] eqn:Hnt.
    - destruct (extends_lookup _ _ _ _ Hext Hnt) as (t' & Ht' & Hcore).
      assert (t' = nt') as -> by congruence.
      unfold no_space_needed, isinstance. unfold core in Hcore.
      by injection Hcore as -> _ _.
    - apply lookup_ge_None in Hnt. apply lookup_lt_Some in Hnt'.
      pose proof (recalculate_loop_unindexed _ _ _ _ _ Hrun) as Hun.
      apply (f_equal length) in Hun. rewrite !length_fmap in Hun. lia. }
  rewrite Hlen, Hoffset in Hrun.
  destruct k as [|k].
  - injection Hk as ->. simpl in Hlast. rewrite drop_0 in Hlast.
    rewrite (recalculate_loop_frame _ _ _ _ _ r Hrun Hlast).
    rewrite (update_lookup _ _ _ _ r Hupd), decide_True by done.
    apply update_Ok in Hupd as (t & Ht & _). rewrite Ht. simpl.
    eexists. split; [done|]. simpl. split; [|done]. f_equal. lia.
  - simpl in Hk, Hlast.
    destruct (IH _ _ _ _ Hrun Hts' k r Hk Hlast) as (t & Ht & Hi & Hs).
    exists t. split; [done|]. split; [|done]. rewrite Hi. f_equal. lia.
Qed.

(** ** What the pass over the aligned pairs writes *)

(** The three colours of the pass: blue, magenta, red. *)
Definition diff_color (c : option string) : Prop :=
  c = Some (esc "34") ∨ c = Some (esc "35") ∨ c = Some (esc "31").

(** A token annotated as part of a difference. *)
Definition marked (t : Token) : Prop := aligned t = true ∧ diff_color (color t).

(** What the pass assigns to a token of a differing pair. *)
Definition annotate_token (max_len : nat) (c : string) (w : Token) : Token :=
  set_color_field (Some c)
    (set_aligned true
       (set_alignment_spaces (Z.of_nat max_len - Z.of_nat (token_len w)) w)).

Definition pair_color (w1 w2 : Token) : string :=
  if isinstance w1 KSpacer then esc "34"
  else if isinstance w2 KSpacer then esc "35" else esc "31".

Lemma pair_color_diff w1 w2 : diff_color (Some (pair_color w1 w2)).
Proof.
  unfold pair_color, diff_color.
  destruct (isinstance w1 KSpacer), (isinstance w2 KSpacer); auto.
Qed.

Lemma annotate_pair_Ok r1 r2 h h' :
  annotate_pair r1 r2 h = Ok (tt, h') →
  ∃ w1 w2, h !! r1 = Some w1 ∧ h !! r2 = Some w2 ∧
    (text w1 = text w2 → h' = h) ∧
    (text w1 ≠ text w2 →
       let max_len := Nat.max (token_len w1) (token_len w2) in
       h' !! r1 = Some (annotate_token max_len (pair_color w1 w2) w1) ∧
       h' !! r2 = Some (annotate_token max_len (pair_color w1 w2) w2) ∧
       ∀ r, r ≠ r1 → r ≠ r2 → h' !! r = h !! r).
Proof.
  unfold annotate_pair. intros Hrun.
  apply mbind_Ok in Hrun as (w1 & ha & [Hw1 ->]%load_Ok & Hrun).
  apply mbind_Ok in Hrun as (w2 & ha & [Hw2 ->]%load_Ok & Hrun).
  exists w1, w2. split; [done|]. split; [done|].
  destruct (String.eqb (text w1) (text w2)) eqn:Heq; simpl in Hrun.
  { apply String.eqb_eq in Heq. apply mret_Ok in Hrun as [_ <-].
    split; [done|]. by intros ?. }
  apply String.eqb_neq in Heq. split; [by intros|]. intros _. cbv zeta.
  set (max_len := Nat.max (token_len w1) (token_len w2)) in *.
  assert (r1 ≠ r2) as Hne by (intros ->; congruence).
  apply mbind_Ok in Hrun as ([] & h1 & U1 & Hrun).
  apply mbind_Ok in Hrun as ([] & h2 & U2 & Hrun).
  apply mbind_Ok in Hrun as ([] & h3 & U3 & Hrun).
  apply mbind_Ok in Hrun as ([] & h4 & U4 & Hrun).
  apply mbind_Ok in Hrun as ([] & h5 & C1 & C2).
  apply mbind_Ok in C1 as (c & h4' & [Hc ->]%lift_Ok & U5).
  apply mbind_Ok in C2 as (c' & h5' & [Hc' ->]%lift_Ok & U6).
  assert (c' = c) as -> by congruence.
  assert (c = pair_color w1 w2) as ->.
  { apply of_option_Ok in Hc. unfold pair_color, isinstance, subclass.
    destruct (bool_decide (cls w1 = KSpacer)), (bool_decide (cls w2 = KSpacer));
      vm_compute in Hc; by injection Hc as <-. }
  assert (∀ r, h' !! r =
    if decide (r = r2) then annotate_token max_len (pair_color w1 w2) <$> h !! r
    else if decide (r = r1) then annotate_token max_len (pair_color w1 w2) <$> h !! r
    else h !! r) as Hall.
  { intros r.
    rewrite (update_lookup _ _ _ _ r U6), (update_lookup _ _ _ _ r U5),
      (update_lookup _ _ _ _ r U4), (update_lookup _ _ _ _ r U3),
      (update_lookup _ _ _ _ r U2), (update_lookup _ _ _ _ r U1).
    destruct (decide (r = r2)) as [Hr2|Hr2]; destruct (decide (r = r1)) as [Hr1|Hr1];
      subst; try done.
    - rewrite Hw2. done.
    - rewrite Hw1. done. }
  split_and!.
  - rewrite Hall, decide_False, decide_True, Hw1 by done. done.
  - rewrite Hall, decide_True, Hw2 by done. done.
  - intros r ? ?. by rewrite Hall, !decide_False.
Qed.

Lemma annotate_pair_length r1 r2 h h' :
  annotate_pair r1 r2 h = Ok (tt, h') → length h' = length h.
Proof.
  intros Hrun.
  destruct (annotate_pair_valid h r1 r2) as (h'' & Hrun' & Hlen).
  - apply annotate_pair_Ok in Hrun as (w1 & _ & Hw1 & _). by eapply lookup_lt_Some.
  - apply annotate_pair_Ok in Hrun as (_ & w2 & _ & Hw2 & _). by eapply lookup_lt_Some.
  - congruence.
Qed.

Lemma marked_annotate_token max_len w1 w2 w :
  marked (annotate_token max_len (pair_color w1 w2) w).
Proof. split; [done|apply pair_color_diff]. Qed.

Lemma annotate_pair_keeps_marked r1 r2 h h' r t :
  annotate_pair r1 r2 h = Ok (tt, h') → h !! r = Some t → marked t →
  ∃ t', h' !! r = Some t' ∧ marked t'.
Proof.
  intros (w1 & w2 & Hw1 & Hw2 & Hsame & Hdiff)%annotate_pair_Ok Ht Hm.
  destruct (decide (text w1 = text w2)) as [Heq|Hne].
  { rewrite (Hsame Heq). eauto. }
  destruct (Hdiff Hne) as (H1 & H2 & Hother).
  destruct (decide (r = r1)) as [->|Hr1].
  { eexists. split; [exact H1|apply marked_annotate_token]. }
  destruct (decide (r = r2)) as [->|Hr2].
  { eexists. split; [exact H2|apply marked_annotate_token]. }
  rewrite Hother by done. eauto.
Qed.

Lemma annotate_pairs_keeps_marked ps h h' r t :
  annotate_pairs ps h = Ok (tt, h') → h !! r = Some t → marked t →
  ∃ t', h' !! r = Some t' ∧ marked t'.
Proof.
  revert h t. induction ps as [|[r1 r2] ps IH]; intros h t; simpl.
  { intros [_ <-]%mret_Ok. eauto. }
  intros (u & h1 & Hpair & Hrest)%mbind_Ok Ht Hm. destruct u.
  destruct (annotate_pair_keeps_marked _ _ _ _ _ _ Hpair Ht Hm) as (t1 & Ht1 & Hm1).
  by eapply IH.
Qed.

Lemma annotate_pairs_frame ps h h' r :
  annotate_pairs ps h = Ok (tt, h') → r ∉ ps.*1 → r ∉ ps.*2 → h' !! r = h !! r.
Proof.
  revert h. induction ps as [|[r1 r2] ps IH]; intros h; simpl.
  { by intros [_ <-]%mret_Ok. }
  intros (u & h1 & Hpair & Hrest)%mbind_Ok [? ?]%not_elem_of_cons [? ?]%not_elem_of_cons.
  destruct u. rewrite (IH _ Hrest) by done.
  apply annotate_pair_Ok in Hpair as (w1 & w2 & Hw1 & Hw2 & Hsame & Hdiff).
  destruct (decide (text w1 = text w2)) as [Heq|Hne].
  - by rewrite (Hsame Heq).
  - destruct (Hdiff Hne) as (_ & _ & Hother). by apply Hother.
Qed.

(** Every pair whose texts differ ends up marked; the padding it was given
    stays when no later pair holds either object. *)
Lemma annotate_pairs_marks ps h h' k r1 r2 :
  annotate_pairs ps h = Ok (tt, h') → ps !! k = Some (r1, r2) →
  ∃ w1 w2 t1 t2,
    h !! r1 = Some w1 ∧ h !! r2 = Some w2 ∧
    h' !! r1 = Some t1 ∧ h' !! r2 = Some t2 ∧
    core t1 = core w1 ∧ core t2 = core w2 ∧
    (text w1 ≠ text w2 →
       marked t1 ∧ marked t2 ∧
       let max_len := Nat.max (token_len w1) (token_len w2) in
       let later := drop (S k) ps in
       (r1 ∉ later.*1 → r1 ∉ later.*2 →
          alignment_spaces t1 = (Z.of_nat max_len - Z.of_nat (token_len w1))%Z) ∧
       (r2 ∉ later.*1 → r2 ∉ later.*2 →
          alignment_spaces t2 = (Z.of_nat max_len - Z.of_nat (token_len w2))%Z)).
Proof.
  revert h k. induction ps as [|[a b] ps IH]; intros h k; [done|]. simpl.
  intros (u & h1 & Hpair & Hrest)%mbind_Ok Hk. destruct u.
  pose proof (stable_annotate_pair _ _ _ _ _ Hpair) as Hext1.
  pose proof (stable_annotate_pairs _ _ _ _ Hrest) as Hext.
  destruct k as [|k].
  - injection Hk as -> ->. simpl. rewrite drop_0.
    pose proof Hpair as (w1 & w2 & Hw1 & Hw2 & Hsame & Hdiff)%annotate_pair_Ok.
    destruct (extends_lookup _ _ _ _ Hext1 Hw1) as (u1 & Hu1 & Hc1).
    destruct (extends_lookup _ _ _ _ Hext1 Hw2) as (u2 & Hu2 & Hc2).
    destruct (extends_lookup _ _ _ _ Hext Hu1) as (t1 & Ht1 & Hd1).
    destruct (extends_lookup _ _ _ _ Hext Hu2) as (t2 & Ht2 & Hd2).
    exists w1, w2, t1, t2. split_and!; try done; try congruence.
    intros Hne. destruct (Hdiff Hne) as (H1 & H2 & _).
    rewrite Hu1 in H1. rewrite Hu2 in H2. injection H1 as ->. injection H2 as ->.
    destruct (annotate_pairs_keeps_marked _ _ _ _ _ Hrest Hu1
      (marked_annotate_token _ _ _ _)) as (t1' & Ht1' & Hm1).
    destruct (annotate_pairs_keeps_marked _ _ _ _ _ Hrest Hu2
      (marked_annotate_token _ _ _ _)) as (t2' & Ht2' & Hm2).
    assert (t1' = t1) as -> by congruence. assert (t2' = t2) as -> by congruence.
    split_and!; try done.
    + intros Hn1 Hn2. rewrite (annotate_pairs_frame _ _ _ _ Hrest Hn1 Hn2) in Ht1.
      rewrite Hu1 in Ht1. by injection Ht1 as <-.
    + intros Hn1 Hn2. rewrite (annotate_pairs_frame _ _ _ _ Hrest Hn1 Hn2) in Ht2.
      rewrite Hu2 in Ht2. by injection Ht2 as <-.
  - simpl in Hk.
    destruct (IH _ _ Hrest Hk) as (u1 & u2 & t1 & t2 & Hu1 & Hu2 & Ht1 & Ht2
      & Hc1 & Hc2 & Hmarks).
    pose proof (annotate_pair_length _ _ _ _ Hpair) as Hlen.
    destruct (lookup_lt_is_Some_2 h r1) as [w1 Hw1];
      [apply lookup_lt_Some in Hu1; lia|].
    destruct (lookup_lt_is_Some_2 h r2) as [w2 Hw2];
      [apply lookup_lt_Some in Hu2; lia|].
    destruct (extends_lookup _ _ _ _ Hext1 Hw1) as (x1 & Hx1 & Hcx1).
    destruct (extends_lookup _ _ _ _ Hext1 Hw2) as (x2 & Hx2 & Hcx2).
    assert (x1 = u1) as -> by congruence. assert (x2 = u2) as -> by congruence.
    exists w1, w2, t1, t2. split_and!; try done; try congruence.
    assert (text u1 = text w1) as Hx1t
      by (unfold core in Hcx1; by injection Hcx1 as _ -> _).
    assert (text u2 = text w2) as Hx2t
      by (unfold core in Hcx2; by injection Hcx2 as _ -> _).
    unfold token_len in *. rewrite <- Hx1t, <- Hx2t. exact Hmarks.
Qed.

Lemma recalculate_indices_loop t h t' h' :
  recalculate_indices t h = Ok (t', h') →
  recalculate_loop (tokens t) 0 0 h = Ok (tt, h').
Proof.
  unfold recalculate_indices, to_string. intros Hrun.
  apply mbind_Ok in Hrun as ([] & h1 & Hloop & Hrun).
  apply mbind_Ok in Hrun as (s & h2 & Hs & [_ <-]%mret_Ok).
  apply mbind_Ok in Hs as (ts & h3 & ->%texts_of_pure & [_ <-]%mret_Ok). done.
Qed.

Lemma unindexed_fields t t' :
  unindexed t' = unindexed t →
  text t' = text t ∧ aligned t' = aligned t ∧ color t' = color t ∧
  alignment_spaces t' = alignment_spaces t ∧ core t' = core t.
Proof.
  intros H. split_and!.
  - by apply (f_equal text) in H.
  - by apply (f_equal aligned) in H.
  - by apply (f_equal color) in H.
  - by apply (f_equal alignment_spaces) in H.
  - by apply (f_equal core) in H.
Qed.

(** The objects of a reindexed sequence are in the store. *)
Lemma recalculate_loop_resolved toks i s h h' :
  recalculate_loop toks i s h = Ok (tt, h') →
  ∃ ts, Forall2 (λ r t, h' !! r = Some t) toks ts.
Proof.
  revert i s h. induction toks as [|r rest IH]; intros i s h.
  { exists []. constructor. }
  cbn [recalculate_loop]. intros Hrun.
  apply mbind_Ok in Hrun as ([] & h1 & Hupd & Hrun).
  apply mbind_Ok in Hrun as (offset & h2 & Hoff & Hrun).
  apply mbind_Ok in Hrun as (token & h3 & [Htoken ->]%load_Ok & Hrun).
  destruct (extends_lookup _ _ _ _ (stable_recalculate_loop _ _ _ _ _ _ Hrun) Htoken)
    as (t & Ht & _).
  destruct (IH _ _ _ Hrun) as [ts Hts]. exists (t :: ts). by constructor.
Qed.

Lemma resolve_back (h h' : heap) rs ts :
  unindexed <$> h' = unindexed <$> h →
  Forall2 (λ r t, h' !! r = Some t) rs ts →
  ∃ ts0, Forall2 (λ r t, h !! r = Some t) rs ts0 ∧
    Forall2 (λ t0 t, core t0 = core t) ts0 ts.
Proof.
  intros Heq H. induction H as [|r t rs ts Hr _ (ts0 & F & C)].
  { exists []. split; constructor. }
  destruct (unindexed_lookup h' h r t) as (t0 & Ht0 & Hu); [done|done|].
  exists (t0 :: ts0). split; constructor; try done.
  by apply unindexed_fields in Hu as (_ & _ & _ & _ & ?).
Qed.


(** ** Strings as lists of characters *)

Lemma len_chars s : PyStr.len s = length (PyStr.chars s).
Proof.
  unfold PyStr.len, PyStr.chars. induction s as [|c s IH]; simpl; [done|by rewrite IH].
Qed.

Lemma chars_join parts :
  PyStr.chars (PyStr.join parts) = concat (PyStr.chars <$> parts).
Proof.
  induction parts as [|p parts IH]; simpl; [done|].
  by rewrite chars_app, IH.
Qed.

Lemma string_app_assoc a b c : (a +:+ b) +:+ c = a +:+ b +:+ c.
Proof.
  induction a as [|x a IH]; [done|].
  change (String x ((a +:+ b) +:+ c) = String x (a +:+ b +:+ c)). by rewrite IH.
Qed.

Lemma join_app xs ys : PyStr.join (xs ++ ys) = PyStr.join xs +:+ PyStr.join ys.
Proof.
  induction xs as [|x xs IH]; simpl; [done|].
  by rewrite IH, string_app_assoc.
Qed.

Lemma join_char_strings s : PyStr.join (char_string <$> PyStr.chars s) = s.
Proof.
  induction s as [|c s IH]; [done|].
  change (String c (PyStr.join (char_string <$> PyStr.chars s)) = String c s).
  by rewrite IH.
Qed.

Lemma starts_with_app sub rest : PyStr.starts_with sub (sub ++ rest) = true.
Proof.
  induction sub as [|c sub IH]; simpl; [done|]. by rewrite Ascii.eqb_refl.
Qed.

(** A unit found where the scan stands. *)
Lemma find_here text token before after :
  PyStr.chars text = before ++ PyStr.chars token ++ after →
  PyStr.find text token (length before) = Some (length before).
Proof.
  intros Htext. unfold PyStr.find.
  assert (length before ≤ String.length text) as Hle.
  { change (String.length text) with (PyStr.len text).
    rewrite len_chars, Htext, length_app. lia. }
  destruct (Nat.ltb_spec (String.length text) (length before)) as [|_]; [lia|].
  rewrite Htext, drop_app_length.
  destruct (PyStr.chars token ++ after) as [|c l] eqn:E.
  - destruct (PyStr.chars token); [simpl|done]. by rewrite Nat.add_0_r.
  - rewrite <- E. unfold PyStr.find_from.
    destruct (PyStr.chars token ++ after) eqn:E'; [done|].
    rewrite <- E', starts_with_app. simpl. by rewrite Nat.add_0_r.
Qed.

(** ** Texts that the tokenizer reproduces *)

(** A unit of the word tokenizer: not empty, not starting with whitespace. *)
Definition unit_ok (u : string) : Prop :=
  ∃ c cs, PyStr.chars u = c :: cs ∧ PyStr.isspace_char c = false.

Definition all_space (sp : string) : Prop :=
  forallb PyStr.isspace_char (PyStr.chars sp) = true.

Definition piece_ok (p : string * string) : Prop := unit_ok p.1 ∧ all_space p.2.

Definition piece_chars (p : string * string) : list ascii :=
  PyStr.chars p.1 ++ PyStr.chars p.2.

Definition piece_tokens (p : string * string) : list string :=
  p.1 :: (char_string <$> PyStr.chars p.2).

Lemma leading_spaces_app sp rest :
  forallb PyStr.isspace_char sp = true →
  match rest with [] => True | c :: _ => PyStr.isspace_char c = false end →
  leading_spaces (sp ++ rest) = sp.
Proof.
  intros Hsp Hrest. induction sp as [|c sp IH]; simpl in *.
  - destruct rest as [|c rest]; [done|]. simpl. by rewrite Hrest.
  - apply andb_true_iff in Hsp as [-> Hsp]. by rewrite IH.
Qed.

Lemma whitespace_loop_pieces text pieces before result_tokens :
  PyStr.chars text = before ++ concat (piece_chars <$> pieces) →
  Forall piece_ok pieces →
  whitespace_loop text pieces.*1 (length before) result_tokens =
    Ok (result_tokens ++ concat (piece_tokens <$> pieces)).
Proof.
  revert before result_tokens.
  induction pieces as [|[u sp] pieces IH]; intros before result_tokens Htext Hok.
  { simpl. by rewrite app_nil_r. }
  apply Forall_cons in Hok as [[Hu Hsp] Hok]. csimpl in *.
  unfold piece_chars in Htext at 1. csimpl in Htext.
  rewrite <- app_assoc in Htext.
  rewrite (find_here text u before _ Htext).
  assert (drop (length before + PyStr.len u) (PyStr.chars text)
          = PyStr.chars sp ++ concat (piece_chars <$> pieces)) as Hdrop.
  { rewrite Htext, len_chars, app_assoc, <- length_app. apply drop_app_length. }
  rewrite Hdrop, leading_spaces_app; [|done|].
  - specialize (IH (before ++ PyStr.chars u ++ PyStr.chars sp)
      ((result_tokens ++ [u]) ++ (char_string <$> PyStr.chars sp))).
    rewrite !length_app, <- len_chars in IH.
    replace (length before + PyStr.len u + length (PyStr.chars sp))
      with (length before + (PyStr.len u + length (PyStr.chars sp))) by lia.
    rewrite IH; [|by rewrite Htext, <- !app_assoc|done].
    unfold piece_tokens at 2. csimpl. by rewrite <- !app_assoc.
  - destruct pieces as [|[u' sp'] pieces]; [done|].
    apply Forall_cons in Hok as [[(c & cs & Hc & Hns) _] _]. csimpl in *.
    unfold piece_chars. csimpl. by rewrite Hc.
Qed.

Lemma alloc_all_Ok ts h :
  alloc_all ts h = Ok (seq (length h) (length ts), h ++ ts).
Proof.
  revert h. induction ts as [|t ts IH]; intros h; simpl.
  { by rewrite app_nil_r. }
  unfold mbind, M_bind, alloc. rewrite IH. unfold mret, M_ret.
  rewrite length_app. simpl. rewrite <- app_assoc. simpl.
  by replace (length h + 1) with (S (length h)) by lia.
Qed.

Lemma lookup_allocated (h : heap) ts k :
  k < length ts → (h ++ ts) !! (length h + k) = ts !! k.
Proof. intros. by rewrite lookup_app_r, Nat.add_comm, Nat.add_sub by lia. Qed.

Lemma texts_of_described h rs xs :
  Forall2 (λ r x, ∃ tok, h !! r = Some tok ∧ text tok = x ∧ cls tok = token_class x)
    rs xs →
  texts_of rs h = Ok (xs, h).
Proof.
  induction 1 as [|r x rs xs (tok & Hr & <- & _) _ IH]; [done|]. simpl.
  apply mbind_Ok. exists tok, h. split; [by apply load_Ok|].
  apply mbind_Ok. exists xs, h. split; [done|]. by apply mret_Ok.
Qed.

(** C8, as amended.  Let the word tokenizer split [s] into units that make up
    [s] in order, the first at offset 0, each followed by whitespace only
    (possibly none), no unit empty or starting with whitespace.  Then
    [Text(s)] is built, flattening it gives back [s] itself, and its tokens
    are the units, each followed by one token per whitespace character after
    it, every token of the class [create_token] gives its text: [Whitespace]
    for a space. *)
Theorem tokenize_flatten_roundtrip word_tokenize s pieces h :
  word_tokenize s = pieces.*1 →
  s = PyStr.join ((λ p, p.1 +:+ p.2) <$> pieces) →
  Forall piece_ok pieces →
  ∃ t h',
    Text_of_string word_tokenize s h = Ok (t, h') ∧
    to_string t h' = Ok (s, h') ∧
    Forall2 (λ r x, ∃ tok, h' !! r = Some tok ∧ text tok = x ∧ cls tok = token_class x)
      (tokens t) (concat (piece_tokens <$> pieces)) ∧
    token_class " " = KWhitespace.
Proof.
  intros Hunits Hs Hok.
  set (toks := concat (piece_tokens <$> pieces)).
  assert (whitespace_tokenize_from_nltk word_tokenize s = Ok toks) as Htok.
  { unfold whitespace_tokenize_from_nltk. rewrite Hunits.
    change 0 with (length (@nil ascii)).
    rewrite (whitespace_loop_pieces s pieces [] []); [done| |done].
    rewrite Hs at 1. rewrite chars_join. simpl. f_equal.
    rewrite <- list_fmap_compose. apply list_fmap_ext. intros _ [u sp] _. simpl.
    unfold piece_chars. simpl. apply chars_app. }
  set (refs := seq (length h) (length toks)).
  set (h1 := h ++ (create_token <$> toks)).
  assert (valid h1 refs) as Hv1.
  { apply Forall_forall. intros r [_ Hr]%elem_of_seq. unfold h1.
    rewrite length_app, length_fmap. lia. }
  destruct (recalculate_indices_valid h1 {| tokens := refs; _text := None |} Hv1)
    as (ta & h2 & Hra & L2).
  destruct (recalculate_indices_valid h2 {| tokens := refs; _text := None |})
    as (t & h' & Hrb & L').
  { eapply valid_length; [|exact Hv1]. lia. }
  assert (tokens t = refs) as Ht by (by apply recalculate_indices_tokens in Hrb).
  assert (extends h1 h') as Hext.
  { etrans; by eapply stable_recalculate_indices. }
  assert (Forall2 (λ r x, ∃ tok, h' !! r = Some tok ∧ text tok = x
                          ∧ cls tok = token_class x) refs toks) as Hdesc.
  { apply Forall2_same_length_lookup_2.
    { unfold refs. by rewrite length_seq. }
    intros k r x Hr Hx. pose proof (lookup_lt_Some _ _ _ Hx) as Hk.
    unfold refs in Hr. rewrite lookup_seq in Hr. destruct Hr as [-> _].
    assert (h1 !! (length h + k) = Some (create_token x)) as H1.
    { unfold h1. rewrite lookup_allocated by (by rewrite length_fmap).
      by rewrite list_lookup_fmap, Hx. }
    destruct (extends_lookup _ _ _ _ Hext H1) as (tok & Htok' & Hcore).
    exists tok. unfold core in Hcore. injection Hcore as Hc Hx' _.
    split_and!; done. }
  exists t, h'. split_and!.
  - unfold Text_of_string, from_string.
    apply mbind_Ok. exists refs, h2. split; [|done].
    apply mbind_Ok. exists toks, h. split; [by apply lift_Ok|].
    apply mbind_Ok. exists refs, h1. split.
    { rewrite alloc_all_Ok. by rewrite length_fmap. }
    apply mbind_Ok. exists ta, h2. split; [done|]. by apply mret_Ok.
  - unfold to_string. rewrite Ht.
    apply mbind_Ok. exists toks, h'. split; [by apply texts_of_described|].
    apply mret_Ok. split; [|done].
    rewrite Hs. unfold toks. clear. induction pieces as [|[u sp] pieces IH]; [done|].
    csimpl. rewrite join_app, IH. unfold piece_tokens. csimpl.
    by rewrite join_char_strings, string_app_assoc.
  - by rewrite Ht.
  - done.
Qed.

Lemma tokenize_flatten_roundtrip_witness :
  ∃ t h',
    Text_of_string word_units "a  b" [] = Ok (t, h') ∧
    to_string t h' = Ok ("a  b", h') ∧
    Forall2 (λ r x, ∃ tok, h' !! r = Some tok ∧ text tok = x ∧ cls tok = token_class x)
      (tokens t) ["a"; " "; " "; "b"] ∧
    token_class " " = KWhitespace.
Proof.
  apply (tokenize_flatten_roundtrip word_units "a  b" [("a", "  "); ("b", "")] []).
  - reflexivity.
  - reflexivity.
  - repeat constructor; try (by eexists _, _).
Defined.

(** C8, as stated, fails on " a": the space before the first unit is not
    kept, the only token is the word, and the flattened text is "a". *)
Lemma leading_whitespace_is_dropped :
  ∃ t h' flat,
    Text_of_string word_units " a" [] = Ok (t, h') ∧
    to_string t h' = Ok (flat, h') ∧
    flat = "a" ∧ flat ≠ " a" ∧
    (λ tok, (cls tok, text tok)) <$> h' = [(KWord, "a")] ∧
    tokens t = [0].
Proof.
  eexists _, _, _. split; [by vm_compute|]. split; [by vm_compute|].
  split_and!; done.
Qed.

(** C9, as amended.  "color" and "colour" are one [Word] token each; the
    alignment is a single diagonal move that pairs them as a substitution
    (both marked, "color" padded by one), and the score of the alignment is
    the mismatch cost -1 + (4/6) * 3/2 + 1/2 = 1/2, the common substring being
    "colo". *)
Theorem color_colour_is_one_substitution :
  ∃ a h' v,
    align_strings word_units "color" "colour" [] = Ok (a, h') ∧
    path a = [Diagonal] ∧
    texts_of (tokens (s1_aligned a)) h' = Ok (["color"], h') ∧
    texts_of (tokens (s2_aligned a)) h' = Ok (["colour"], h') ∧
    cls <$> h' = [KWord; KWord] ∧
    aligned <$> h' = [true; true] ∧
    alignment_spaces <$> h' = [1%Z; 0%Z] ∧
    mget (score_matrix a) 1 1 = Ok v ∧
    (v == 1 # 2)%Q ∧
    (v == mismatch_score default_scoring
          + (4 # 6) * substring_match_score default_scoring
          + type_match_score default_scoring)%Q.
Proof.
  eexists _, _, _. split; [by vm_compute|].
  split_and!; by vm_compute.
Qed.

(** C9, as stated, fails: the walk makes no gap move, the outputs hold one
    token each and no placeholder, and the score is not five matches and one
    gap. *)
Lemma color_colour_has_no_gap :
  ∃ a h' v,
    align_strings word_units "color" "colour" [] = Ok (a, h') ∧
    (Up ∉ path a) ∧ (Left ∉ path a) ∧
    length (tokens (s1_aligned a)) = 1 ∧
    (KSpacer ∉ cls <$> h') ∧
    mget (score_matrix a) 1 1 = Ok v ∧
    ¬ (v == 5 * match_score default_scoring + gap_score default_scoring)%Q.
Proof.
  eexists _, _, _. split; [by vm_compute|].
  split_and!; try (by vm_compute).
  - apply not_elem_of_cons. split; [done|apply not_elem_of_nil].
  - apply not_elem_of_cons. split; [done|apply not_elem_of_nil].
  - vm_compute. intros Hin. repeat (apply elem_of_cons in Hin as [?|Hin]; [done|]).
    by apply not_elem_of_nil in Hin.
Qed.

(** ** The claims at concrete inputs *)


Lemma self_alignment_all_diagonal_witness :
  ∃ a h' v,
    align_sentences example_text1 example_text1 example_heap = Ok (a, h') ∧
    path a = [Diagonal; Diagonal] ∧
    tokens (s1_aligned a) = [0; 1] ∧
    tokens (s2_aligned a) = [0; 1] ∧
    mget (score_matrix a) 2 2 = Ok v ∧
    (v == match_score default_scoring * Qnat 2)%Q.
Proof.
  apply (self_alignment_all_diagonal example_text1 example_heap).
  - done.
  - repeat constructor; simpl; lia.
  - intros r t Hin.
    repeat (apply elem_of_cons in Hin as [->|Hin]; [by intros [= <-]|]).
    by apply not_elem_of_nil in Hin.
Defined.

(** C3, as stated, fails when tokens carry originals: on five words, each
    derived from the next, the bonus for matching the original makes the
    path beside the diagonal score 6 where five matches give 5; the walk
    starts and ends with a gap and both outputs hold a placeholder. *)
Lemma self_alignment_with_originals_leaves_diagonal :
  ∃ a h' v,
    align_sentences chain_text chain_text chain_heap = Ok (a, h') ∧
    path a = [Left; Diagonal; Diagonal; Diagonal; Diagonal; Up] ∧
    tokens (s1_aligned a) = [6; 0; 1; 2; 3; 4] ∧
    tokens (s2_aligned a) = [0; 1; 2; 3; 4; 5] ∧
    (cls <$> h' !! 5) = Some KSpacer ∧ (cls <$> h' !! 6) = Some KSpacer ∧
    mget (score_matrix a) 5 5 = Ok v ∧
    (v == 6)%Q ∧ (match_score default_scoring * Qnat 5 == 5)%Q.
Proof.
  eexists _, _, _. split; [by vm_compute|]. split_and!; by vm_compute.
Qed.



(** ** Further properties of the aligner *)

Lemma mbind_run {A B} (m : M A) (f : A → M B) h a h1 :
  m h = Ok (a, h1) → (m ≫= f) h = f a h1.
Proof. unfold mbind, M_bind. by intros ->. Qed.

Lemma mbind_Raise {A B} (m : M A) (f : A → M B) h e :
  m h = Raise e → (m ≫= f) h = Raise e.
Proof. unfold mbind, M_bind. by intros ->. Qed.

(** On two non-empty sequences of live tokens that can be scored against
    each other, [align_sentences] returns: the scorer fills both matrices and
    the walk back from cell (n, m) ends within n + m + 1 passes. *)
Theorem align_sentences_returns text1 text2 h :
  tokens text1 ≠ [] → tokens text2 ≠ [] →
  valid h (tokens text1) → valid h (tokens text2) →
  (∀ r1 r2 t1 t2, r1 ∈ tokens text1 → r2 ∈ tokens text2 →
     h !! r1 = Some t1 → h !! r2 = Some t2 → scorable default_scoring t1 t2) →
  ∃ a h', align_sentences text1 text2 h = Ok (a, h').
Proof. apply align_sentences_total. Qed.


(** When one of the two sequences has no token, [align_sentences] raises
    [IndexError]: the scorer returns, and the first pass of the walk reads
    [tokens[0]] of the empty sequence. *)
Theorem align_one_side_empty_raises text1 text2 h :
  valid h (tokens text1) → valid h (tokens text2) →
  tokens text1 = [] ∨ tokens text2 = [] →
  align_sentences text1 text2 h = Raise IndexError.
Proof.
  intros Hv1 Hv2 Hemp.
  destruct (scorer_total text1 text2 default_scoring h Hv1 Hv2)
    as (SM & TM & h1 & Hnw & L1).
  { intros r1 r2 t1 t2 Hr1 Hr2.
    destruct Hemp as [He|He]; rewrite He in *;
      [by apply not_elem_of_nil in Hr1|by apply not_elem_of_nil in Hr2]. }
  pose proof Hnw as (s1 & s2 & Ls1 & Ls2 & _ & _ & Hscored & _)%scorer_shapes.
  destruct Hscored as (_ & HshT & _). rewrite Ls1, Ls2 in HshT.
  destruct (mget_in_shape TM _ _ (length (tokens text1)) (length (tokens text2)) HshT)
    as [trace Htr]; [lia|lia|].
  unfold align_sentences. rewrite (mbind_run _ _ _ _ _ Hnw). cbn beta iota.
  apply mbind_Raise. unfold get_alignment_and_visualization_words. cbv zeta.
  rewrite (mbind_run _ _ _ _ _ (Text_new_Ok h1)).
  rewrite (mbind_run _ _ _ _ _ (Text_new_Ok h1)).
  apply mbind_Raise. cbn [traceback_loop].
  rewrite (mbind_run _ _ h1 trace h1); [|by apply lift_Ok].
  destruct (tokens text1) as [|r1 l1] eqn:E1.
  - done.
  - destruct Hemp as [?|E2]; [done|]. rewrite E2.
    replace (length (r1 :: l1)) with (S (length l1)) by done.
    assert (is_Some ((r1 :: l1) !! (S (length l1) - 1))) as [r Hr].
    { apply lookup_lt_is_Some. simpl. lia. }
    change (0 <? S (length l1))%nat with true. cbn iota.
    rewrite (mbind_run _ _ h1 r h1); [done|].
    apply lift_Ok. by rewrite Hr.
Qed.

(** The moves of a path that consume a token of the first, respectively the
    second, sequence. *)
Definition takes_row (mv : move) : bool :=
  match mv with Left => false | _ => true end.
Definition takes_column (mv : move) : bool :=
  match mv with Up => false | _ => true end.

Fixpoint steps (f : move → bool) (p : list move) : nat :=
  match p with
  | [] => 0
  | mv :: p => (if f mv then 1 else 0) + steps f p
  end.

Lemma steps_app f p q : steps f (p ++ q) = steps f p + steps f q.
Proof. induction p as [|mv p IH]; simpl; [done|]. rewrite IH. lia. Qed.

Lemma steps_le f p : steps f p ≤ length p.
Proof. induction p as [|mv p IH]; simpl; [done|]. destruct (f mv); lia. Qed.

Lemma steps_cover p : length p ≤ steps takes_row p + steps takes_column p.
Proof. induction p as [|[] p IH]; simpl; lia. Qed.

(** The walk from cell (i, j) adds one token to each output per move, and
    ends at the origin: its moves consume i tokens of the first sequence and
    j of the second. *)
Lemma traceback_loop_path text1 text2 T fuel i j a1 a2 path h a1' a2' path' h' :
  walkable T (length (tokens text1)) (length (tokens text2)) →
  i ≤ length (tokens text1) → j ≤ length (tokens text2) →
  traceback_loop fuel text1 text2 T i j a1 a2 path h = Ok ((a1', a2', path'), h') →
  ∃ new,
    path' = new ++ path ∧
    length (tokens a1') = length new + length (tokens a1) ∧
    steps takes_row new = i ∧ steps takes_column new = j.
Proof.
  intros Hwalk. revert i j a1 a2 path h.
  induction fuel as [|fuel IH]; intros i j a1 a2 path h Hi Hj; [done|].
  intros (trace & token1 & token2 & HT & H1 & H2 & Hcases)%traceback_loop_inv.
  destruct Hcases as [(Hd & b1 & b2 & h1 & E1 & E2 & _ & Hrun)
    |[(_ & Hu & sp & b1 & b2 & h1 & E1 & E2 & _ & Hrun)
    |[(_ & _ & Hl & sp & b1 & b2 & h1 & E1 & E2 & _ & Hrun)
    |(Hd & Hu & Hl & [= <- <- <-] & _)]]].
  - apply guard_pos_i in Hd as [Hi0 Hj0].
    apply IH in Hrun as (new & -> & Hlen & Hr & Hc); [|lia..].
    exists (new ++ [Diagonal]). rewrite <- app_assoc, !steps_app, length_app.
    rewrite Hlen, E1. simpl. split_and!; [done|lia..].
  - apply up_guard_pos in Hu.
    apply IH in Hrun as (new & -> & Hlen & Hr & Hc); [|lia..].
    exists (new ++ [Up]). rewrite <- app_assoc, !steps_app, length_app.
    rewrite Hlen, E1. simpl. split_and!; [done|lia..].
  - apply left_guard_pos in Hl.
    apply IH in Hrun as (new & -> & Hlen & Hr & Hc); [|lia..].
    exists (new ++ [Left]). rewrite <- app_assoc, !steps_app, length_app.
    rewrite Hlen, E1. simpl. split_and!; [done|lia..].
  - exists []. split; [done|]. split; [done|].
    destruct (decide (0 < i + j)) as [Hpos|]; [|simpl; lia].
    specialize (Hwalk i j trace Hi Hj Hpos HT).
    by rewrite Hd, Hu, Hl in Hwalk.
Qed.


(** [Text.recalculate_indices] keeps the token list and leaves, in the object
    at position k (the last position, where an object occurs twice), the
    index k and as start the running offset: the lengths of the tokens
    before it, plus one for each of them that is not followed by a
    Punctuation, Whitespace or Spacer token. *)
Theorem recalculate_indices_assigns t h t' h' :
  recalculate_indices t h = Ok (t', h') →
  tokens t' = tokens t ∧
  ∃ ts, Forall2 (λ r u, h' !! r = Some u) (tokens t) ts ∧
    ∀ k r, tokens t !! k = Some r → r ∉ drop (S k) (tokens t) →
      ∃ u, h' !! r = Some u ∧ index u = Some (Z.of_nat k) ∧
        start u = Z.of_nat <$> start_offsets ts 0 !! k.
Proof.
  intros Hrun. split; [by eapply recalculate_indices_tokens|].
  apply recalculate_indices_loop in Hrun.
  destruct (recalculate_loop_resolved _ _ _ _ _ Hrun) as [ts Hts].
  exists ts. split; [done|]. intros k r Hk Hlast.
  by apply (recalculate_loop_values _ 0 0 h h' ts Hrun Hts k r).
Qed.

Lemma align_sentences_returns_witness :
  ∃ a h', align_sentences example_text1 example_text2 example_heap = Ok (a, h').
Proof.
  apply (align_sentences_returns example_text1 example_text2 example_heap).
  - done.
  - done.
  - repeat constructor; simpl; lia.
  - repeat constructor; simpl; lia.
  - intros r1 r2 t1 t2 H1 H2.
    repeat (apply elem_of_cons in H1 as [->|H1]);
      try (by apply not_elem_of_nil in H1);
      repeat (apply elem_of_cons in H2 as [->|H2]);
      try (by apply not_elem_of_nil in H2);
      intros [= <-] [= <-]; eexists; by vm_compute.
Defined.


Lemma align_one_side_empty_raises_witness :
  align_sentences example_text1 {| tokens := []; _text := None |} example_heap
    = Raise IndexError.
Proof.
  apply (align_one_side_empty_raises example_text1
           {| tokens := []; _text := None |} example_heap).
  - repeat constructor; simpl; lia.
  - constructor.
  - by right.
Defined.


Lemma recalculate_indices_assigns_witness :
  ∃ t' h',
    recalculate_indices example_text2 example_heap = Ok (t', h') ∧
    tokens t' = [2; 3; 4] ∧
    (index <$> h' !! 4) = Some (Some 2%Z) ∧
    (start <$> h' !! 4) = Some (Some 8%Z).
Proof.
  eexists _, _. split; [by vm_compute|].
  destruct (recalculate_indices_assigns example_text2 example_heap _ _
    ltac:(by vm_compute)) as (Htoks & ts & Hts & Hvals).
  split; [exact Htoks|].
  destruct (Hvals 2 4) as (u & Hu & Hi & Hs); [done|apply not_elem_of_nil|].
  rewrite Hu. simpl. rewrite Hi, Hs. split; [done|].
  apply Forall2_cons_inv_l in Hts as (u2 & ts2 & H2 & Hts & ->).
  apply Forall2_cons_inv_l in Hts as (u3 & ts3 & H3 & Hts & ->).
  apply Forall2_cons_inv_l in Hts as (u4 & ts4 & H4 & Hts & ->).
  apply Forall2_nil_inv_l in Hts as ->.
  vm_compute in H2, H3, H4.
  injection H2 as <-. injection H3 as <-. injection H4 as <-. done.
Defined.

(** ** longest_common_substring returns a longest common substring *)

(** [w] occurs in [s] as a contiguous piece. *)
Definition occurs_in (w s : string) : Prop :=
  ∃ a b, PyStr.chars s = a ++ PyStr.chars w ++ b.

(** The length of the longest common suffix of the first [i] characters of
    [l1] and the first [j] characters of [l2]: what cell [(i, j)] of the table
    is meant to hold. *)
Fixpoint common_suffix (l1 l2 : list ascii) (i j : nat) {struct i} : nat :=
  match i, j with
  | S i', S j' =>
      if bool_decide (l1 !! i' = l2 !! j') then S (common_suffix l1 l2 i' j') else 0
  | _, _ => 0
  end.

Lemma common_suffix_0_r l1 l2 i : common_suffix l1 l2 i 0 = 0.
Proof. by destruct i. Qed.

Lemma common_suffix_le l1 l2 i j :
  common_suffix l1 l2 i j ≤ i ∧ common_suffix l1 l2 i j ≤ j.
Proof.
  revert j. induction i as [|i IH]; intros [|j]; simpl; try lia.
  case_bool_decide; [|lia]. specialize (IH j). lia.
Qed.

(** The two suffixes of that length are the same text. *)
Lemma common_suffix_sound l1 l2 i j :
  i ≤ length l1 → j ≤ length l2 →
  let k := common_suffix l1 l2 i j in
  take k (drop (i - k) l1) = take k (drop (j - k) l2).
Proof.
  revert j. induction i as [|i IH]; intros [|j] Hi Hj; cbv zeta; simpl; try done.
  case_bool_decide as Heq; [|done].
  pose proof (common_suffix_le l1 l2 i j) as [Hki Hkj].
  specialize (IH j ltac:(lia) ltac:(lia)). cbv zeta in IH.
  set (k := common_suffix l1 l2 i j) in *.
  destruct (lookup_lt_is_Some_2 l1 i) as [c Hc]; [lia|].
  change (S i - S k) with (i - k). change (S j - S k) with (j - k).
  rewrite (take_S_r (drop (i - k) l1) _ c), (take_S_r (drop (j - k) l2) _ c).
  - by rewrite IH.
  - rewrite lookup_drop. replace (j - k + k) with j by lia. by rewrite <- Heq.
  - rewrite lookup_drop. by replace (i - k + k) with i by lia.
Qed.

(** A common piece that ends at [(i, j)] is no longer than the common
    suffix there. *)
Lemma common_suffix_max l1 l2 a w b c d :
  l1 = a ++ w ++ b → l2 = c ++ w ++ d →
  length w ≤ common_suffix l1 l2 (length a + length w) (length c + length w).
Proof.
  revert b d. induction w as [|x w IH] using rev_ind; intros b d H1 H2.
  { simpl. lia. }
  rewrite length_app. simpl.
  replace (length a + (length w + 1)) with (S (length a + length w)) by lia.
  replace (length c + (length w + 1)) with (S (length c + length w)) by lia.
  simpl. rewrite <- app_assoc in H1, H2. simpl in H1, H2.
  specialize (IH _ _ H1 H2).
  assert (l1 !! (length a + length w) = Some x) as ->.
  { rewrite H1, app_assoc, lookup_app_r; rewrite length_app; [|lia].
    by replace (length a + length w - (length a + length w)) with 0 by lia. }
  assert (l2 !! (length c + length w) = Some x) as ->.
  { rewrite H2, app_assoc, lookup_app_r; rewrite length_app; [|lia].
    by replace (length c + length w - (length c + length w)) with 0 by lia. }
  rewrite bool_decide_eq_true_2 by done. lia.
Qed.

(** *** The table *)

Lemma dp_get_set dp rows cols i j v i' j' :
  shape dp rows cols → i < rows → j < cols →
  dp_get (dp_set dp i j v) i' j' =
    if decide (i' = i ∧ j' = j) then v else dp_get dp i' j'.
Proof.
  intros [Hlen Hall] Hi Hj. unfold dp_get, dp_set.
  destruct (lookup_lt_is_Some_2 dp i) as [row Hrow]; [lia|]. rewrite Hrow.
  assert (length row = cols) as Hcols.
  { rewrite Forall_lookup in Hall. by eapply Hall. }
  destruct (decide (i' = i)) as [->|Hne].
  - rewrite list_lookup_insert_eq by lia. simpl.
    destruct (decide (j' = j)) as [->|Hnej].
    + rewrite list_lookup_insert_eq by lia. by rewrite decide_True.
    + rewrite list_lookup_insert_ne by done. rewrite Hrow. simpl.
      rewrite decide_False; [done|]. tauto.
  - rewrite list_lookup_insert_ne by done. rewrite decide_False; [done|]. tauto.
Qed.

Lemma dp_set_shape dp rows cols i j v :
  shape dp rows cols → shape (dp_set dp i j v) rows cols.
Proof.
  intros [Hlen Hall]. unfold dp_set. destruct (dp !! i) as [row|] eqn:Hrow; [|done].
  split; [by rewrite length_insert|].
  apply Forall_insert; [done|]. rewrite length_insert.
  rewrite Forall_lookup in Hall. by eapply Hall.
Qed.

Lemma dp_get_replicate rows cols i j :
  dp_get (replicate rows (replicate cols 0)) i j = 0.
Proof.
  unfold dp_get. destruct (replicate rows (replicate cols 0) !! i) as [row|] eqn:Hrow;
    [|done].
  apply lookup_replicate in Hrow as [-> _]. simpl.
  destruct (replicate cols 0 !! j) as [v|] eqn:Hv; [|done].
  by apply lookup_replicate in Hv as [-> _].
Qed.

Lemma foldl_range_inv {St} (I : nat → St → Prop) (f : St → nat → St) lo hi s :
  lo ≤ hi → I lo s →
  (∀ k s, lo ≤ k < hi → I k s → I (S k) (f s k)) →
  I hi (foldl f s (range lo hi)).
Proof.
  intros Hle Hlo Hstep. induction hi as [|hi IH].
  - by assert (lo = 0) as -> by lia.
  - destruct (decide (lo = S hi)) as [->|Hne].
    { unfold range. by rewrite Nat.sub_diag. }
    rewrite range_snoc, foldl_app by lia. simpl.
    apply Hstep; [lia|]. apply IH; [lia|]. intros k s' Hk. apply Hstep. lia.
Qed.

Lemma get_chars s i : PyStr.get s i = PyStr.chars s !! i.
Proof.
  unfold PyStr.get, PyStr.chars. revert i.
  induction s as [|c s IH]; intros [|i]; simpl; done.
Qed.

Lemma chars_substring a k s :
  PyStr.chars (String.substring a k s) = take k (drop a (PyStr.chars s)).
Proof.
  unfold PyStr.chars. revert a k.
  induction s as [|c s IH]; intros [|a] [|k]; simpl; rewrite ?IH; done.
Qed.

Section table.
Variables s1 s2 : string.
Let l1 := PyStr.chars s1.
Let l2 := PyStr.chars s2.
Let n := PyStr.len s1.
Let m := PyStr.len s2.

(** The state of the double loop when it stands at cell [(i, j)]: the cells
    passed hold the common suffix lengths, [length] is the largest of them,
    and [row] is the first row that holds it. *)
Definition table_upto (i j : nat) (st : list (list nat) * nat * nat) : Prop :=
  let '(dp, length, row) := st in
  shape dp (S n) (S m) ∧
  (∀ i' j', i' ≤ n → j' ≤ m → i' = 0 ∨ j' = 0 ∨ passed i j i' j' →
     dp_get dp i' j' = common_suffix l1 l2 i' j') ∧
  (∀ i' j', i' ≤ n → j' ≤ m → passed i j i' j' →
     common_suffix l1 l2 i' j' ≤ length) ∧
  ((length = 0 ∧ row = 0) ∨
   (0 < length ∧ row ≤ n ∧
    (∃ j', j' ≤ m ∧ common_suffix l1 l2 row j' = length) ∧
    ∀ i' j', i' < row → j' ≤ m → common_suffix l1 l2 i' j' < length)).

Lemma lcs_cell_step i j st :
  1 ≤ i ≤ n → 1 ≤ j ≤ m →
  table_upto i j st → table_upto i (S j) (lcs_cell s1 s2 i j st).
Proof.
  intros Hi Hj. destruct st as [[dp len] row].
  intros (Hshape & Hcells & Hbest & Hrow).
  assert (common_suffix l1 l2 i j =
          if bool_decide (PyStr.get s1 (i - 1) = PyStr.get s2 (j - 1))
          then dp_get dp (i - 1) (j - 1) + 1 else 0) as Hhere.
  { destruct i as [|i]; [lia|]. destruct j as [|j]; [lia|]. simpl.
    rewrite !Nat.sub_0_r, !get_chars. fold l1 l2.
    case_bool_decide; [|done].
    rewrite Hcells; [lia|lia|lia|].
    destruct i as [|i]; [by left|]. destruct j as [|j]; [by right; left|].
    right; right. left. lia. }
  assert (∀ i' j', passed i (S j) i' j' ↔ passed i j i' j' ∨ (i' = i ∧ j' = j))
    as Hpassed by (unfold passed; lia).
  assert (∀ i' j', i' ≤ n → j' ≤ m → i' = 0 ∨ j' = 0 ∨ passed i (S j) i' j' →
    dp_get (dp_set dp i j (common_suffix l1 l2 i j)) i' j' =
      common_suffix l1 l2 i' j') as Hset.
  { intros i' j' Hi' Hj' Hwhere.
    rewrite (dp_get_set dp (S n) (S m)) by (done || lia).
    destruct (decide (i' = i ∧ j' = j)) as [[-> ->]|Hne]; [done|].
    apply Hcells; [done..|]. rewrite Hpassed in Hwhere. tauto. }
  assert (∀ len', len ≤ len' → common_suffix l1 l2 i j ≤ len' →
    ∀ i' j', i' ≤ n → j' ≤ m → passed i (S j) i' j' →
      common_suffix l1 l2 i' j' ≤ len') as Hbest'.
  { intros len' Hlen Hcur i' j' Hi' Hj' [Hp|[-> ->]]%Hpassed; [|done].
    specialize (Hbest i' j' Hi' Hj' Hp). lia. }
  revert Hhere. unfold lcs_cell.
  destruct (bool_decide (PyStr.get s1 (i - 1) = PyStr.get s2 (j - 1)));
    intros Hhere.
  - rewrite <- Hhere. cbv zeta.
    destruct (Nat.ltb_spec len (common_suffix l1 l2 i j)) as [Hlt|Hge].
    + split_and!; [by apply dp_set_shape|done|apply Hbest'; lia|].
      right. split_and!; [lia|lia|exists j; split; [lia|done]|].
      intros i' j' Hi' Hj'.
      assert (common_suffix l1 l2 i' j' ≤ len); [|lia].
      apply Hbest; [lia|done|]. unfold passed. lia.
    + split_and!; [by apply dp_set_shape|done|apply Hbest'; lia|done].
  - rewrite <- Hhere.
    split_and!; [by apply dp_set_shape|done|apply Hbest'; lia|done].
Qed.

Lemma table_next_row i st : table_upto i (S m) st → table_upto (S i) 1 st.
Proof.
  destruct st as [[dp len] row]. intros (Hshape & Hcells & Hbest & Hrow).
  split_and!; try done.
  - intros i' j' Hi' Hj' Hwhere. apply Hcells; [done..|].
    unfold passed in *. lia.
  - intros i' j' Hi' Hj' Hwhere.
    destruct j' as [|j']; [rewrite common_suffix_0_r; lia|].
    apply Hbest; [done..|]. unfold passed in *. lia.
Qed.

Lemma lcs_table_upto : table_upto (S n) 1 (lcs_table s1 s2).
Proof.
  unfold lcs_table. fold n m.
  replace (n + 1) with (S n) by lia. replace (m + 1) with (S m) by lia.
  apply (foldl_range_inv (λ i st, table_upto i 1 st)); [lia| |].
  - split_and!.
    + split; [by rewrite length_replicate|].
      apply Forall_replicate. by rewrite length_replicate.
    + intros i' j' _ _ Hwhere. rewrite dp_get_replicate.
      destruct i' as [|i']; [done|]. destruct j' as [|j']; [done|].
      unfold passed in Hwhere. lia.
    + intros i' j' _ _ Hp. unfold passed in Hp.
      destruct i' as [|i']; [done|]. destruct j' as [|j']; [done|]. lia.
    + by left.
  - intros i st Hi Hst. apply table_next_row.
    apply (foldl_range_inv (λ j st, table_upto i j st)); [lia|done|].
    intros j st' Hj. apply lcs_cell_step; lia.
Qed.

End table.

(** [longest_common_substring] returns a piece of [s1] that also occurs in
    [s2]; no text that occurs in both is longer; and of the pieces of [s1]
    of that length that occur in [s2], it is the one that ends first. *)
Theorem longest_common_substring_correct s1 s2 :
  let lcs := longest_common_substring s1 s2 in
  occurs_in lcs s2 ∧
  (∀ w, occurs_in w s1 → occurs_in w s2 → PyStr.len w ≤ PyStr.len lcs) ∧
  ∃ a b, PyStr.chars s1 = a ++ PyStr.chars lcs ++ b ∧
    ∀ a' w b', PyStr.chars s1 = a' ++ PyStr.chars w ++ b' → occurs_in w s2 →
      PyStr.len w = PyStr.len lcs → length a ≤ length a'.
Proof.
  cbv zeta. unfold longest_common_substring.
  pose proof (lcs_table_upto s1 s2) as Htable.
  destruct (lcs_table s1 s2) as [[dp len] row].
  destruct Htable as (_ & _ & Hbest & Hrow).
  set (l1 := PyStr.chars s1) in *. set (l2 := PyStr.chars s2) in *.
  assert (∀ a w b, l1 = a ++ PyStr.chars w ++ b → occurs_in w s2 →
    PyStr.len w ≤ len ∧
    (PyStr.len w = len → 0 < len → row ≤ length a + PyStr.len w)) as Hmax.
  { intros a w b H1 (c & d & H2). fold l2 in H2.
    pose proof (common_suffix_max l1 l2 a (PyStr.chars w) b c d H1 H2) as Hw.
    rewrite <- !len_chars in Hw.
    assert (length a + PyStr.len w ≤ PyStr.len s1) as Hi.
    { rewrite (len_chars s1). fold l1. rewrite H1, !length_app, <- len_chars. lia. }
    assert (length c + PyStr.len w ≤ PyStr.len s2) as Hj.
    { rewrite (len_chars s2). fold l2. rewrite H2, !length_app, <- len_chars. lia. }
    destruct (decide (PyStr.len w = 0)) as [Hz|Hnz].
    { split; [lia|]. lia. }
    specialize (Hbest _ _ Hi Hj).
    assert (common_suffix l1 l2 (length a + PyStr.len w) (length c + PyStr.len w) ≤ len)
      as Hle.
    { apply Hbest. unfold passed. lia. }
    split; [lia|]. intros Heq Hpos.
    destruct Hrow as [[-> _]|(_ & _ & _ & Hfirst)]; [lia|].
    destruct (decide (row ≤ length a + PyStr.len w)) as [|Hgt]; [done|].
    specialize (Hfirst (length a + PyStr.len w) (length c + PyStr.len w)
      ltac:(lia) Hj). lia. }
  destruct Hrow as [[-> ->]|(Hpos & Hrown & (j & Hj & Hcs) & Hfirst)]; simpl.
  - split_and!.
    + by exists [], l2.
    + intros w (a & b & H1) H2. by apply (Hmax a w b).
    + exists [], l1. split; [done|]. intros; simpl; lia.
  - destruct (Nat.eqb_spec len 0) as [|_]; [lia|].
    pose proof (common_suffix_le l1 l2 row j) as [Hlr Hlj]. rewrite Hcs in Hlr, Hlj.
    assert (row ≤ length l1) as Hrowl by (unfold l1; rewrite <- len_chars; done).
    assert (PyStr.chars (PyStr.slice s1 (Z.of_nat row - Z.of_nat len) (Z.of_nat row))
            = take len (drop (row - len) l1)) as Hchars.
    { unfold PyStr.slice, PyStr.clamp.
      destruct (Z.ltb_spec (Z.of_nat row - Z.of_nat len) 0) as [|_]; [lia|].
      destruct (Z.ltb_spec (Z.of_nat row) 0) as [|_]; [lia|].
      rewrite chars_substring. fold l1.
      change (String.length s1) with (PyStr.len s1).
      rewrite len_chars. fold l1. f_equal; [|f_equal]; lia. }
    assert (length (take len (drop (row - len) l1)) = len) as Hlen.
    { rewrite length_take, length_drop. lia. }
    assert (PyStr.len (PyStr.slice s1 (Z.of_nat row - Z.of_nat len) (Z.of_nat row)) = len)
      as Hlen' by (by rewrite len_chars, Hchars).
    split_and!.
    + exists (take (j - len) l2), (drop j l2). rewrite Hchars. fold l2.
      pose proof (common_suffix_sound l1 l2 row j Hrowl) as Hs.
      rewrite Hcs in Hs. cbv zeta in Hs. rewrite Hs.
      * rewrite <- (take_drop (j - len) l2) at 1. f_equal.
        rewrite <- (take_drop len (drop (j - len) l2)) at 1. f_equal.
        rewrite drop_drop. f_equal. lia.
      * unfold l2. by rewrite <- len_chars.
    + intros w (a & b & H1) H2. rewrite Hlen'. by apply (Hmax a w b).
    + exists (take (row - len) l1), (drop row l1). rewrite Hchars. split.
      * rewrite <- (take_drop (row - len) l1) at 1. f_equal.
        rewrite <- (take_drop len (drop (row - len) l1)) at 1. f_equal.
        rewrite drop_drop. f_equal. lia.
      * intros a' w b' H1 H2 Hw. rewrite Hlen' in Hw.
        destruct (Hmax a' w b' H1 H2) as [_ Hr]. specialize (Hr Hw Hpos).
        rewrite length_take. lia.
Qed.

(** ** What the scorer writes to its inputs *)

Lemma token_clear_alignment_idem t :
  token_clear_alignment (token_clear_alignment t) = token_clear_alignment t.
Proof. done. Qed.

Lemma text_clear_alignment_values toks h h' :
  text_clear_alignment toks h = Ok (tt, h') →
  length h' = length h ∧
  ∀ r t, h !! r = Some t →
    h' !! r = Some (if decide (r ∈ toks) then token_clear_alignment t else t).
Proof.
  revert h. induction toks as [|r0 rest IH]; intros h; cbn [text_clear_alignment].
  { intros [_ <-]%mret_Ok. split; [done|]. intros r t Hr.
    rewrite decide_False; [done|]. apply not_elem_of_nil. }
  intros (u & h1 & Hupd & Hrest)%mbind_Ok. destruct u.
  destruct (IH _ Hrest) as [Hlen Hvals].
  pose proof Hupd as (t0 & Ht0 & ->)%update_Ok.
  split; [by rewrite Hlen, length_insert|].
  intros r t Hr. destruct (decide (r = r0)) as [->|Hne].
  - assert (t0 = t) as -> by congruence.
    rewrite (Hvals r0 (token_clear_alignment t)).
    + destruct (decide (r0 ∈ r0 :: rest)) as [_|Hn]; [by case_decide|].
      destruct Hn. apply list_elem_of_here.
    + apply list_lookup_insert_eq. by eapply lookup_lt_Some.
  - rewrite (Hvals r t) by (by rewrite list_lookup_insert_ne).
    destruct (decide (r ∈ rest)) as [Hin|Hnin],
      (decide (r ∈ r0 :: rest)) as [Hin'|Hnin']; try done.
    + destruct Hnin'. by apply list_elem_of_further.
    + by apply elem_of_cons in Hin' as [?|?].
Qed.

Lemma scorer_values text1 text2 p h SM TM h1 :
  needleman_wunsch_alignment_words_substring text1 text2 p h = Ok ((SM, TM), h1) →
  length h1 = length h ∧
  ∀ r t, h !! r = Some t →
    h1 !! r = Some (if decide (r ∈ tokens text1 ++ tokens text2)
                    then token_clear_alignment t else t).
Proof.
  unfold needleman_wunsch_alignment_words_substring. intros Hrun.
  apply mbind_Ok in Hrun as ([] & ha & Hc1 & Hrun).
  apply mbind_Ok in Hrun as ([] & hb & Hc2 & Hrun).
  apply mbind_Ok in Hrun as (s1 & hc & [-> Hs1]%load_all_Ok & Hrun).
  apply mbind_Ok in Hrun as (s2 & hd & [-> Hs2]%load_all_Ok & Hrun).
  apply lift_Ok in Hrun as [Hfill ->].
  apply text_clear_alignment_values in Hc1 as [L1 V1].
  apply text_clear_alignment_values in Hc2 as [L2 V2].
  split; [lia|]. intros r t Hr.
  rewrite (V2 r _ (V1 r t Hr)).
  destruct (decide (r ∈ tokens text1)) as [H1|H1],
    (decide (r ∈ tokens text2)) as [H2|H2],
    (decide (r ∈ tokens text1 ++ tokens text2)) as [H3|H3]; try done.
  - destruct H3. apply elem_of_app. by left.
  - destruct H3. apply elem_of_app. by left.
  - destruct H3. apply elem_of_app. by right.
  - by apply elem_of_app in H3 as [?|?].
Qed.

(** The scorer adds no object and assigns nothing but the annotations of the
    tokens of its two inputs, which it resets: [aligned] to [False],
    [alignment_spaces] to 0 and [color] to [None]. *)
Theorem scorer_resets_annotations text1 text2 p h SM TM h1 :
  needleman_wunsch_alignment_words_substring text1 text2 p h = Ok ((SM, TM), h1) →
  length h1 = length h ∧
  ∀ r t, h !! r = Some t →
    h1 !! r = Some (if decide (r ∈ tokens text1 ++ tokens text2)
                    then token_clear_alignment t else t).
Proof. apply scorer_values. Qed.

Lemma scorer_resets_annotations_witness :
  ∃ SM TM h1,
    needleman_wunsch_alignment_words_substring example_text1 example_text1
      default_scoring [set_aligned true (create_token "the"); create_token "cat";
                       set_aligned true (create_token "big")] = Ok ((SM, TM), h1) ∧
    (aligned <$> h1 !! 0) = Some false ∧ (color <$> h1 !! 0) = Some None ∧
    (aligned <$> h1 !! 2) = Some true.
Proof.
  eexists _, _, _. split; [by vm_compute|].
  destruct (scorer_resets_annotations example_text1 example_text1 default_scoring
    [set_aligned true (create_token "the"); create_token "cat";
     set_aligned true (create_token "big")] _ _ _ ltac:(by vm_compute)) as [_ Hvals].
  rewrite (Hvals 0 _ eq_refl), (Hvals 2 _ eq_refl). done.
Defined.

(** ** Aligning sequences that hold no Spacer *)

(** [h'] is [h] with positions reassigned and objects added. *)
Definition keeps (h h' : heap) : Prop :=
  (unindexed <$> h) `prefix_of` (unindexed <$> h').

Global Instance keeps_preorder : PreOrder keeps.
Proof.
  split.
  - intros h. unfold keeps. done.
  - intros h1 h2 h3. unfold keeps. apply transitivity.
Qed.

Lemma keeps_eq h h' : unindexed <$> h' = unindexed <$> h → keeps h h'.
Proof. unfold keeps. by intros ->. Qed.

Lemma keeps_app h t : keeps h (h ++ [t]).
Proof. unfold keeps. rewrite fmap_app. by apply prefix_app_r. Qed.

Lemma keeps_length h h' : keeps h h' → length h ≤ length h'.
Proof. intros H%prefix_length. by rewrite !length_fmap in H. Qed.

Lemma keeps_lookup h h' r t :
  keeps h h' → h !! r = Some t →
  ∃ t', h' !! r = Some t' ∧ unindexed t' = unindexed t.
Proof.
  intros Hk Hr.
  assert ((unindexed <$> h) !! r = Some (unindexed t)) as Hl
    by (by rewrite list_lookup_fmap, Hr).
  eapply prefix_lookup_Some in Hl; [|exact Hk].
  rewrite list_lookup_fmap in Hl. destruct (h' !! r) as [t'|]; [|done].
  exists t'. split; [done|]. simpl in Hl. congruence.
Qed.

Lemma unindexed_cls t t' : unindexed t' = unindexed t → cls t' = cls t.
Proof. intros H. by apply (f_equal cls) in H. Qed.

(** The tokens behind [rs] are in the store and none of them is a Spacer. *)
Definition plain (h : heap) (rs : list ref) : Prop :=
  ∀ r, r ∈ rs → ∃ t, h !! r = Some t ∧ cls t ≠ KSpacer.

Lemma plain_keeps h h' rs : keeps h h' → plain h rs → plain h' rs.
Proof.
  intros Hk Hp r Hr. destruct (Hp r Hr) as (t & Ht & Hc).
  destruct (keeps_lookup _ _ _ _ Hk Ht) as (t' & Ht' & Hu).
  exists t'. split; [done|]. by rewrite (unindexed_cls _ _ Hu).
Qed.

Lemma gap_placeholder_plain other consumed h o c spacer h' :
  h !! other = Some o → cls o ≠ KSpacer → h !! consumed = Some c →
  gap_placeholder other consumed h = Ok (spacer, h') →
  spacer = length h ∧ h' = h ++ [new_spacer (token_len c)].
Proof.
  intros Ho Hcls Hc. unfold gap_placeholder. intros Hrun.
  apply mbind_Ok in Hrun as (o' & h1 & [Ho' ->]%load_Ok & Hrun).
  apply mbind_Ok in Hrun as (c' & h1 & [Hc' ->]%load_Ok & Hrun).
  assert (o' = o) as -> by congruence. assert (c' = c) as -> by congruence.
  assert (isinstance o KSpacer = false) as Hs.
  { unfold isinstance, subclass. by apply bool_decide_eq_false. }
  rewrite Hs in Hrun. by apply alloc_Ok in Hrun.
Qed.

(** The placeholder [sp] put opposite the token [r]. *)
Definition placeholder_for (hf : heap) (sp r : ref) : Prop :=
  ∃ t w, hf !! sp = Some t ∧ hf !! r = Some w ∧
    cls t = KSpacer ∧ text t = "" ∧ aligned t = true ∧
    alignment_spaces t = Z.of_nat (token_len w).

(** How the walk weaves the two outputs [o1], [o2] from the inputs [in1],
    [in2]: pair by pair, each pair holding the next token of both inputs or
    the next token of one of them and a placeholder made for it.  The
    placeholders are objects at or above [lo], each later one above the
    earlier. *)
Inductive woven (hf : heap) : nat → list ref → list ref → list ref → list ref → Prop :=
  | woven_nil lo : woven hf lo [] [] [] []
  | woven_diagonal lo in1 in2 o1 o2 r1 r2 :
      woven hf lo in1 in2 o1 o2 →
      woven hf lo (in1 ++ [r1]) (in2 ++ [r2]) (o1 ++ [r1]) (o2 ++ [r2])
  | woven_up lo in1 in2 o1 o2 r1 sp :
      lo ≤ sp → woven hf (S sp) in1 in2 o1 o2 → placeholder_for hf sp r1 →
      woven hf lo (in1 ++ [r1]) in2 (o1 ++ [r1]) (o2 ++ [sp])
  | woven_left lo in1 in2 o1 o2 r2 sp :
      lo ≤ sp → woven hf (S sp) in1 in2 o1 o2 → placeholder_for hf sp r2 →
      woven hf lo in1 (in2 ++ [r2]) (o1 ++ [sp]) (o2 ++ [r2]).

Lemma woven_mono hf lo lo' in1 in2 o1 o2 :
  lo' ≤ lo → woven hf lo in1 in2 o1 o2 → woven hf lo' in1 in2 o1 o2.
Proof.
  intros Hle H. revert lo' Hle.
  induction H as [lo|lo in1 in2 o1 o2 r1 r2 _ IH
    |lo in1 in2 o1 o2 r1 sp Hsp H _ Hp|lo in1 in2 o1 o2 r2 sp Hsp H _ Hp];
    intros lo' Hle.
  - constructor.
  - constructor. by apply IH.
  - apply woven_up; [lia|done|done].
  - apply woven_left; [lia|done|done].
Qed.

Lemma woven_length hf lo in1 in2 o1 o2 :
  woven hf lo in1 in2 o1 o2 → length o1 = length o2.
Proof. induction 1; rewrite ?length_app; simpl; lia. Qed.

Lemma current_elem toks i r : current toks i = Some r → r ∈ toks.
Proof. unfold current. apply list_elem_of_lookup_2. Qed.

Lemma current_at toks i r :
  0 < i → current toks i = Some r → toks !! (i - 1) = Some r.
Proof. intros Hi. unfold current. by destruct i; [lia|]. Qed.

Lemma text_insert_front a r h a' h' :
  text_insert a 0 r h = Ok (a', h') →
  tokens a' = r :: tokens a ∧ unindexed <$> h' = unindexed <$> h.
Proof.
  intros Hrun. split; [by eapply text_insert_tokens|].
  by eapply recalculate_indices_unindexed.
Qed.

Section weave.
Variables text1 text2 : Text.
Variable T : list (list string).
Let n := length (tokens text1).
Let m := length (tokens text2).

Lemma traceback_loop_woven fuel i j a1 a2 path h a1' a2' path' h' :
  walkable T n m → i ≤ n → j ≤ m →
  plain h (tokens text1 ++ tokens text2) →
  traceback_loop fuel text1 text2 T i j a1 a2 path h = Ok ((a1', a2', path'), h') →
  keeps h h' ∧
  ∃ new1 new2,
    tokens a1' = new1 ++ tokens a1 ∧ tokens a2' = new2 ++ tokens a2 ∧
    woven h' (length h) (take i (tokens text1)) (take j (tokens text2)) new1 new2.
Proof.
  intros Hwalk. revert i j a1 a2 path h.
  induction fuel as [|fuel IH]; intros i j a1 a2 path h Hi Hj Hplain Hrun; [done|].
  pose proof Hrun as (trace & token1 & token2 & HT & H1 & H2 & _)%traceback_loop_inv.
  rewrite (traceback_loop_pass _ _ _ _ _ _ _ _ _ _ trace token1 token2) in Hrun
    by done.
  destruct (Hplain token1) as (c1 & Hc1 & Hcls1).
  { apply elem_of_app. left. by eapply current_elem. }
  destruct (Hplain token2) as (c2 & Hc2 & Hcls2).
  { apply elem_of_app. right. by eapply current_elem. }
  destruct (diagonal_guard trace i j) eqn:Hd.
  { apply guard_pos_i in Hd as [Hi0 Hj0].
    apply current_at in H1; [|done]. apply current_at in H2; [|done].
    apply mbind_Ok in Hrun as (b1 & h1 & [E1 U1]%text_insert_front & Hrun).
    apply mbind_Ok in Hrun as (b2 & h2 & [E2 U2]%text_insert_front & Hrun).
    assert (keeps h h2) as Hk.
    { etrans; apply keeps_eq; done. }
    destruct (IH (i - 1) (j - 1) b1 b2 (Diagonal :: path) h2 ltac:(lia) ltac:(lia)
      ltac:(by eapply plain_keeps) Hrun) as (Hk' & new1 & new2 & -> & -> & Hw).
    split; [by etrans|].
    exists (new1 ++ [token1]), (new2 ++ [token2]).
    rewrite E1, E2, <- !app_assoc. split; [done|]. split; [done|].
    replace i with (S (i - 1)) at 1 by lia. replace j with (S (j - 1)) at 1 by lia.
    rewrite (take_S_r _ _ _ H1), (take_S_r _ _ _ H2).
    constructor. eapply woven_mono; [|done].
    apply (f_equal length) in U1, U2. rewrite !length_fmap in U1, U2. lia. }
  destruct (up_guard trace i) eqn:Hu.
  { apply up_guard_pos in Hu. apply current_at in H1; [|done].
    apply mbind_Ok in Hrun as (sp & h0 & Hgap & Hrun).
    apply (gap_placeholder_plain _ _ _ c2 c1) in Hgap as [-> ->]; [|done..].
    apply mbind_Ok in Hrun as (b1 & h1 & [E1 U1]%text_insert_front & Hrun).
    apply mbind_Ok in Hrun as (b2 & h2 & [E2 U2]%text_insert_front & Hrun).
    assert (keeps (h ++ [new_spacer (token_len c1)]) h2) as Hk0.
    { etrans; apply keeps_eq; done. }
    assert (keeps h h2) as Hk by (etrans; [apply keeps_app|done]).
    assert (length h2 = S (length h)) as Hlen.
    { apply (f_equal length) in U1, U2. rewrite !length_fmap in U1, U2.
      rewrite U2, U1, length_app. simpl. lia. }
    destruct (IH (i - 1) j b1 b2 (Up :: path) h2 ltac:(lia) ltac:(lia)
      ltac:(by eapply plain_keeps) Hrun) as (Hk' & new1 & new2 & -> & -> & Hw).
    split; [by etrans|].
    exists (new1 ++ [token1]), (new2 ++ [length h]).
    rewrite E1, E2, <- !app_assoc. split; [done|]. split; [done|].
    replace i with (S (i - 1)) at 1 by lia.
    rewrite (take_S_r _ _ _ H1). rewrite Hlen in Hw.
    apply woven_up; [lia|done|].
    destruct (keeps_lookup (h ++ [new_spacer (token_len c1)]) h' (length h)
      (new_spacer (token_len c1)))
      as (t & Ht & Hut); [by etrans|by apply list_lookup_middle|].
    destruct (keeps_lookup h h' token1 c1) as (w & Hw1 & Huw); [by etrans|done|].
    exists t, w. apply unindexed_fields in Hut as (Ht1 & Ht2 & _ & Ht3 & Ht4).
    apply unindexed_fields in Huw as (Hw2 & _).
    split_and!; try done.
    - by apply (f_equal (λ c, c.1.1)) in Ht4.
    - rewrite Ht3. unfold token_len. by rewrite Hw2. }
  destruct (left_guard trace j) eqn:Hl.
  { apply left_guard_pos in Hl. apply current_at in H2; [|done].
    apply mbind_Ok in Hrun as (sp & h0 & Hgap & Hrun).
    apply (gap_placeholder_plain _ _ _ c1 c2) in Hgap as [-> ->]; [|done..].
    apply mbind_Ok in Hrun as (b1 & h1 & [E1 U1]%text_insert_front & Hrun).
    apply mbind_Ok in Hrun as (b2 & h2 & [E2 U2]%text_insert_front & Hrun).
    assert (keeps (h ++ [new_spacer (token_len c2)]) h2) as Hk0.
    { etrans; apply keeps_eq; done. }
    assert (keeps h h2) as Hk by (etrans; [apply keeps_app|done]).
    assert (length h2 = S (length h)) as Hlen.
    { apply (f_equal length) in U1, U2. rewrite !length_fmap in U1, U2.
      rewrite U2, U1, length_app. simpl. lia. }
    destruct (IH i (j - 1) b1 b2 (Left :: path) h2 ltac:(lia) ltac:(lia)
      ltac:(by eapply plain_keeps) Hrun) as (Hk' & new1 & new2 & -> & -> & Hw).
    split; [by etrans|].
    exists (new1 ++ [length h]), (new2 ++ [token2]).
    rewrite E1, E2, <- !app_assoc. split; [done|]. split; [done|].
    replace j with (S (j - 1)) at 1 by lia.
    rewrite (take_S_r _ _ _ H2). rewrite Hlen in Hw.
    apply woven_left; [lia|done|].
    destruct (keeps_lookup (h ++ [new_spacer (token_len c2)]) h' (length h)
      (new_spacer (token_len c2)))
      as (t & Ht & Hut); [by etrans|by apply list_lookup_middle|].
    destruct (keeps_lookup h h' token2 c2) as (w & Hw2 & Huw); [by etrans|done|].
    exists t, w. apply unindexed_fields in Hut as (Ht1 & Ht2 & _ & Ht3 & Ht4).
    apply unindexed_fields in Huw as (Hw3 & _).
    split_and!; try done.
    - by apply (f_equal (λ c, c.1.1)) in Ht4.
    - rewrite Ht3. unfold token_len. by rewrite Hw3. }
  injection Hrun as <- <- <- <-. split; [done|]. exists [], [].
  split; [done|]. split; [done|].
  destruct (decide (0 < i + j)) as [Hpos|Hz].
  { specialize (Hwalk i j trace Hi Hj Hpos HT). by rewrite Hd, Hu, Hl in Hwalk. }
  assert (i = 0 ∧ j = 0) as [-> ->] by lia. constructor.
Qed.

End weave.

(** *** What the weave says about the outputs *)

(** The texts of the tokens behind [rs]. *)
Definition texts (h : heap) (rs : list ref) : list string :=
  (λ r, default "" (text <$> h !! r)) <$> rs.

Lemma texts_of_texts rs h ts h' : texts_of rs h = Ok (ts, h') → ts = texts h rs.
Proof.
  revert ts h'. induction rs as [|r rs IH]; intros ts h'; simpl.
  { by intros [<- _]%mret_Ok. }
  intros (t & h1 & [Ht ->]%load_Ok & Hrun)%mbind_Ok.
  apply mbind_Ok in Hrun as (ts' & h2 & Hts & [<- _]%mret_Ok).
  rewrite (IH _ _ Hts). unfold texts. simpl. by rewrite Ht.
Qed.

Lemma to_string_texts t h s h' :
  to_string t h = Ok (s, h') → s = PyStr.join (texts h (tokens t)) ∧ h' = h.
Proof.
  unfold to_string. intros (ts & h1 & Hts & [<- <-]%mret_Ok)%mbind_Ok.
  split; [by rewrite (texts_of_texts _ _ _ _ Hts)|]. by eapply texts_of_pure.
Qed.

Lemma to_string_defined t h :
  (∀ r, r ∈ tokens t → is_Some (h !! r)) →
  to_string t h = Ok (PyStr.join (texts h (tokens t)), h).
Proof.
  intros Hv. destruct (texts_of_valid h (tokens t)) as [ts Hts].
  { apply Forall_forall. intros r Hr. apply lookup_lt_is_Some. by apply Hv. }
  unfold to_string. apply mbind_Ok. exists ts, h. split; [done|].
  by rewrite (texts_of_texts _ _ _ _ Hts).
Qed.

Lemma texts_extends h h' rs :
  extends h h' → (∀ r, r ∈ rs → is_Some (h !! r)) → texts h' rs = texts h rs.
Proof.
  intros Hext Hv. unfold texts. apply list_fmap_ext. intros k r Hk.
  destruct (Hv r) as [t Ht]; [by eapply list_elem_of_lookup_2|].
  destruct (extends_lookup _ _ _ _ Hext Ht) as (t' & Ht' & Hc).
  rewrite Ht, Ht'. simpl. by apply (f_equal (λ c, c.1.2)) in Hc.
Qed.

Lemma string_app_empty_r s : s +:+ "" = s.
Proof.
  induction s as [|c s IH]; [done|].
  change (String c (s +:+ "") = String c s). by rewrite IH.
Qed.

Lemma texts_snoc h rs r :
  PyStr.join (texts h (rs ++ [r])) =
  PyStr.join (texts h rs) +:+ default "" (text <$> h !! r).
Proof.
  unfold texts. rewrite fmap_app, join_app. simpl.
  by rewrite string_app_empty_r.
Qed.

Lemma woven_texts hf lo in1 in2 o1 o2 :
  woven hf lo in1 in2 o1 o2 →
  PyStr.join (texts hf o1) = PyStr.join (texts hf in1) ∧
  PyStr.join (texts hf o2) = PyStr.join (texts hf in2).
Proof.
  induction 1 as [lo|lo in1 in2 o1 o2 r1 r2 _ [IH1 IH2]
    |lo in1 in2 o1 o2 r1 sp Hsp _ [IH1 IH2] (t & w & Ht & _ & _ & Htext & _)
    |lo in1 in2 o1 o2 r2 sp Hsp _ [IH1 IH2] (t & w & Ht & _ & _ & Htext & _)];
    rewrite ?texts_snoc, ?IH1, ?IH2; try done.
  - rewrite Ht. simpl. by rewrite Htext, string_app_empty_r.
  - rewrite Ht. simpl. by rewrite Htext, string_app_empty_r.
Qed.

Lemma snoc2_Permutation (a b : list nat) x y :
  (a ++ [x]) ++ (b ++ [y]) ≡ₚ x :: y :: a ++ b.
Proof.
  rewrite <- app_assoc. simpl. rewrite <- Permutation_middle. constructor.
  by rewrite app_assoc, <- Permutation_cons_append.
Qed.

Lemma snoc_l_Permutation (a b : list nat) x : (a ++ [x]) ++ b ≡ₚ x :: a ++ b.
Proof. rewrite <- app_assoc. simpl. by rewrite <- Permutation_middle. Qed.

Lemma snoc_r_Permutation (a b : list nat) y : a ++ (b ++ [y]) ≡ₚ y :: a ++ b.
Proof. by rewrite app_assoc, <- Permutation_cons_append. Qed.

Lemma woven_resolved hf lo in1 in2 o1 o2 :
  woven hf lo in1 in2 o1 o2 →
  (∀ r, r ∈ in1 ++ in2 → is_Some (hf !! r)) →
  ∀ r, r ∈ o1 ++ o2 → is_Some (hf !! r).
Proof.
  induction 1 as [lo|lo in1 in2 o1 o2 r1 r2 _ IH
    |lo in1 in2 o1 o2 r1 sp Hsp _ IH (t & w & Ht & _)
    |lo in1 in2 o1 o2 r2 sp Hsp _ IH (t & w & Ht & _)]; intros Hin r.
  - by intros ?%elem_of_nil.
  - rewrite snoc2_Permutation. setoid_rewrite snoc2_Permutation in Hin.
    intros [->|[->|Hr]%elem_of_cons]%elem_of_cons.
    + apply Hin, list_elem_of_here.
    + apply Hin, list_elem_of_further, list_elem_of_here.
    + apply IH; [|done]. intros r' Hr'. apply Hin.
      by do 2 apply list_elem_of_further.
  - rewrite snoc2_Permutation. setoid_rewrite snoc_l_Permutation in Hin.
    intros [->|[->|Hr]%elem_of_cons]%elem_of_cons.
    + apply Hin, list_elem_of_here.
    + by eexists.
    + apply IH; [|done]. intros r' Hr'. apply Hin. by apply list_elem_of_further.
  - rewrite snoc2_Permutation. setoid_rewrite snoc_r_Permutation in Hin.
    intros [->|[->|Hr]%elem_of_cons]%elem_of_cons.
    + by eexists.
    + apply Hin, list_elem_of_here.
    + apply IH; [|done]. intros r' Hr'. apply Hin. by apply list_elem_of_further.
Qed.

(** With distinct inputs below [lo], no object stands twice in the outputs. *)
Lemma woven_NoDup hf lo in1 in2 o1 o2 :
  woven hf lo in1 in2 o1 o2 →
  (∀ r, r ∈ in1 ++ in2 → r < lo) → NoDup (in1 ++ in2) →
  NoDup (o1 ++ o2) ∧ ∀ r, r ∈ o1 ++ o2 → r ∈ in1 ++ in2 ∨ lo ≤ r.
Proof.
  induction 1 as [lo|lo in1 in2 o1 o2 r1 r2 _ IH
    |lo in1 in2 o1 o2 r1 sp Hsp _ IH _
    |lo in1 in2 o1 o2 r2 sp Hsp _ IH _].
  - intros _ _. split; [constructor|]. by intros r ?%elem_of_nil.
  - intros Hlt Hnd. setoid_rewrite snoc2_Permutation in Hlt.
    rewrite snoc2_Permutation in Hnd. setoid_rewrite snoc2_Permutation.
    apply NoDup_cons in Hnd as [Hr1 Hnd]. apply NoDup_cons in Hnd as [Hr2 Hnd].
    destruct IH as [IHnd IHin]; [|done|].
    { intros r Hr. apply Hlt. by do 2 apply list_elem_of_further. }
    assert (r1 < lo) by (apply Hlt, list_elem_of_here).
    assert (r2 < lo) by (apply Hlt, list_elem_of_further, list_elem_of_here).
    split.
    + apply NoDup_cons. split.
      * intros [->|Hin]%elem_of_cons; [by apply Hr1, list_elem_of_here|].
        destruct (IHin _ Hin) as [?|?]; [|lia].
        by apply Hr1, list_elem_of_further.
      * apply NoDup_cons. split; [|done]. intros Hin.
        destruct (IHin _ Hin) as [?|?]; [done|lia].
    + intros r [->|[->|Hin]%elem_of_cons]%elem_of_cons.
      * left. apply list_elem_of_here.
      * left. apply list_elem_of_further, list_elem_of_here.
      * destruct (IHin _ Hin) as [?|?]; [|by right].
        left. by do 2 apply list_elem_of_further.
  - intros Hlt Hnd. setoid_rewrite snoc_l_Permutation in Hlt.
    rewrite snoc_l_Permutation in Hnd. setoid_rewrite snoc2_Permutation.
    setoid_rewrite snoc_l_Permutation.
    apply NoDup_cons in Hnd as [Hr1 Hnd].
    destruct IH as [IHnd IHin]; [|done|].
    { intros r Hr. assert (r < lo); [|lia]. by apply Hlt, list_elem_of_further. }
    assert (r1 < lo) by (apply Hlt, list_elem_of_here).
    split.
    + apply NoDup_cons. split.
      * intros [->|Hin]%elem_of_cons; [lia|].
        destruct (IHin _ Hin) as [?|?]; [done|lia].
      * apply NoDup_cons. split; [|done]. intros Hin.
        destruct (IHin _ Hin) as [Hin'|?]; [|lia].
        assert (sp < lo); [|lia]. by apply Hlt, list_elem_of_further.
    + intros r [->|[->|Hin]%elem_of_cons]%elem_of_cons.
      * left. apply list_elem_of_here.
      * by right.
      * destruct (IHin _ Hin) as [?|?]; [|right; lia].
        left. by apply list_elem_of_further.
  - intros Hlt Hnd. setoid_rewrite snoc_r_Permutation in Hlt.
    rewrite snoc_r_Permutation in Hnd. setoid_rewrite snoc2_Permutation.
    setoid_rewrite snoc_r_Permutation.
    apply NoDup_cons in Hnd as [Hr2 Hnd].
    destruct IH as [IHnd IHin]; [|done|].
    { intros r Hr. assert (r < lo); [|lia]. by apply Hlt, list_elem_of_further. }
    assert (r2 < lo) by (apply Hlt, list_elem_of_here).
    split.
    + apply NoDup_cons. split.
      * intros [->|Hin]%elem_of_cons; [lia|].
        destruct (IHin _ Hin) as [Hin'|?]; [|lia].
        assert (sp < lo); [|lia]. by apply Hlt, list_elem_of_further.
      * apply NoDup_cons. split; [|done]. intros Hin.
        destruct (IHin _ Hin) as [?|?]; [done|lia].
    + intros r [->|[->|Hin]%elem_of_cons]%elem_of_cons.
      * by right.
      * left. apply list_elem_of_here.
      * destruct (IHin _ Hin) as [?|?]; [|right; lia].
        left. by apply list_elem_of_further.
Qed.

(** What stands at one position of the two outputs. *)
Lemma woven_pairs hf lo in1 in2 o1 o2 k r1 r2 :
  woven hf lo in1 in2 o1 o2 →
  o1 !! k = Some r1 → o2 !! k = Some r2 →
  (r1 ∈ in1 ∧ r2 ∈ in2) ∨
  (r1 ∈ in1 ∧ placeholder_for hf r2 r1) ∨
  (r2 ∈ in2 ∧ placeholder_for hf r1 r2).
Proof.
  induction 1 as [lo|lo in1 in2 o1 o2 q1 q2 Hw IH
    |lo in1 in2 o1 o2 q1 sp Hsp Hw IH Hp
    |lo in1 in2 o1 o2 q2 sp Hsp Hw IH Hp]; [done|..];
    pose proof (woven_length _ _ _ _ _ _ Hw) as Hlen;
    intros [H1|[? H1]]%lookup_app_Some [H2|[? H2]]%lookup_app_Some;
    try (apply lookup_lt_Some in H1; lia);
    try (apply lookup_lt_Some in H2; lia).
  - destruct (IH H1 H2) as [[? ?]|[[? ?]|[? ?]]];
      rewrite !elem_of_app; tauto.
  - apply list_lookup_singleton_Some in H1 as [_ <-].
    apply list_lookup_singleton_Some in H2 as [_ <-].
    left. rewrite !elem_of_app, !list_elem_of_singleton. tauto.
  - destruct (IH H1 H2) as [[? ?]|[[? ?]|[? ?]]];
      rewrite !elem_of_app; tauto.
  - apply list_lookup_singleton_Some in H1 as [_ <-].
    apply list_lookup_singleton_Some in H2 as [_ <-].
    right; left. rewrite !elem_of_app, !list_elem_of_singleton. tauto.
  - destruct (IH H1 H2) as [[? ?]|[[? ?]|[? ?]]];
      rewrite !elem_of_app; tauto.
  - apply list_lookup_singleton_Some in H1 as [_ <-].
    apply list_lookup_singleton_Some in H2 as [_ <-].
    right; right. rewrite !elem_of_app, !list_elem_of_singleton. tauto.
Qed.

(** ** The outputs of an alignment of Spacer-free sequences *)

(** The pass over the pairs at a position whose two objects stand in no
    other pair. *)
Lemma annotate_pairs_at ps h h' k r1 r2 :
  annotate_pairs ps h = Ok (tt, h') → ps !! k = Some (r1, r2) →
  (∀ k' q1 q2, ps !! k' = Some (q1, q2) → k' ≠ k →
     q1 ≠ r1 ∧ q1 ≠ r2 ∧ q2 ≠ r1 ∧ q2 ≠ r2) →
  ∃ w1 w2, h !! r1 = Some w1 ∧ h !! r2 = Some w2 ∧
    if decide (text w1 = text w2)
    then h' !! r1 = Some w1 ∧ h' !! r2 = Some w2
    else
      h' !! r1 = Some (annotate_token (Nat.max (token_len w1) (token_len w2))
                         (pair_color w1 w2) w1) ∧
      h' !! r2 = Some (annotate_token (Nat.max (token_len w1) (token_len w2))
                         (pair_color w1 w2) w2).
Proof.
  revert h k. induction ps as [|[q1 q2] rest IH]; intros h k; [done|].
  cbn [annotate_pairs]. intros (u & h1 & Hpair & Hrest)%mbind_Ok Hk Hother.
  destruct u. destruct k as [|k]; simpl in Hk.
  - injection Hk as -> ->.
    assert (∀ r, r = r1 ∨ r = r2 → (r ∉ rest.*1) ∧ (r ∉ rest.*2)) as Hfresh.
    { intros r Hr. split.
      - intros ([a b] & -> & [k' Hk']%list_elem_of_lookup_1)%list_elem_of_fmap.
        destruct (Hother (S k') a b Hk' ltac:(lia)) as (? & ? & ? & ?).
        simpl in Hr. by destruct Hr.
      - intros ([a b] & -> & [k' Hk']%list_elem_of_lookup_1)%list_elem_of_fmap.
        destruct (Hother (S k') a b Hk' ltac:(lia)) as (? & ? & ? & ?).
        simpl in Hr. by destruct Hr. }
    destruct (Hfresh r1 ltac:(by left)) as [F1 F2].
    destruct (Hfresh r2 ltac:(by right)) as [F3 F4].
    rewrite (annotate_pairs_frame _ _ _ r1 Hrest F1 F2).
    rewrite (annotate_pairs_frame _ _ _ r2 Hrest F3 F4).
    apply annotate_pair_Ok in Hpair as (w1 & w2 & Hw1 & Hw2 & Hsame & Hdiff).
    exists w1, w2. split; [done|]. split; [done|]. case_decide as Ht.
    + by rewrite (Hsame Ht).
    + by destruct (Hdiff Ht) as (? & ? & _).
  - destruct (Hother 0 q1 q2 eq_refl ltac:(lia)) as (? & ? & ? & ?).
    destruct (IH h1 k Hrest Hk) as (w1 & w2 & Hw1 & Hw2 & Hfin).
    { intros k' a b Hk' Hne. apply (Hother (S k')); [done|lia]. }
    assert (∀ r, r ≠ q1 → r ≠ q2 → h1 !! r = h !! r) as Hframe.
    { apply annotate_pair_Ok in Hpair as (v1 & v2 & _ & _ & Hsame & Hdiff).
      intros r ? ?. destruct (decide (text v1 = text v2)) as [Ht|Ht].
      - by rewrite (Hsame Ht).
      - destruct (Hdiff Ht) as (_ & _ & Hfr). by apply Hfr. }
    exists w1, w2. rewrite <- (Hframe r1), <- (Hframe r2) by done. done.
Qed.

Lemma len_app a b : PyStr.len (a +:+ b) = PyStr.len a + PyStr.len b.
Proof. by rewrite !len_chars, chars_app, length_app. Qed.

Lemma len_str_mul z : PyStr.len (str_mul "=" z) = Z.to_nat z.
Proof.
  unfold str_mul. induction (Z.to_nat z) as [|k IH]; [done|].
  simpl. rewrite len_app, IH. done.
Qed.

Lemma len_join l : PyStr.len (PyStr.join l) = sum_list (PyStr.len <$> l).
Proof. induction l as [|s l IH]; [done|]. simpl. by rewrite len_app, IH. Qed.

Lemma token_text_aligned_unindexed t t' :
  unindexed t' = unindexed t → token_text_aligned t' = token_text_aligned t.
Proof.
  intros (Ht & Ha & _ & Hs & _)%unindexed_fields.
  unfold token_text_aligned. by rewrite Ht, Ha, Hs.
Qed.

Lemma padded_width max_len c w :
  token_len w ≤ max_len →
  PyStr.len (token_text_aligned (annotate_token max_len c w)) = max_len.
Proof.
  intros Hle. unfold token_text_aligned, annotate_token. simpl.
  rewrite len_app, len_str_mul. unfold token_len in *. lia.
Qed.

Lemma unpadded_width w :
  aligned w = false → PyStr.len (token_text_aligned w) = token_len w.
Proof. intros Ha. unfold token_text_aligned. by rewrite Ha. Qed.

Lemma plain_resolved h rs : plain h rs → ∀ r, r ∈ rs → is_Some (h !! r).
Proof. intros Hp r Hr. destruct (Hp r Hr) as (t & Ht & _). eauto. Qed.

Lemma plain_below h rs : plain h rs → ∀ r, r ∈ rs → r < length h.
Proof. intros Hp r Hr. by apply lookup_lt_is_Some, plain_resolved with rs. Qed.

(** The stations of a call of [align_sentences] on Spacer-free inputs. *)
Lemma align_sentences_weave text1 text2 h a h' :
  align_sentences text1 text2 h = Ok (a, h') →
  plain h (tokens text1 ++ tokens text2) →
  ∃ h1 h4 h2,
    (∀ r t, h !! r = Some t →
       h1 !! r = Some (if decide (r ∈ tokens text1 ++ tokens text2)
                       then token_clear_alignment t else t)) ∧
    length h1 = length h ∧ extends h h1 ∧
    keeps h1 h4 ∧ extends h1 h4 ∧
    woven h4 (length h1) (tokens text1) (tokens text2)
      (tokens (s1_aligned a)) (tokens (s2_aligned a)) ∧
    annotate_pairs (zip (tokens (s1_aligned a)) (tokens (s2_aligned a))) h4
      = Ok (tt, h2) ∧
    unindexed <$> h' = unindexed <$> h2 ∧ extends h2 h' ∧
    _text (s1_aligned a) = Some (PyStr.join (texts h' (tokens (s1_aligned a)))) ∧
    _text (s2_aligned a) = Some (PyStr.join (texts h' (tokens (s2_aligned a)))).
Proof.
  intros Hrun Hplain.
  apply align_sentences_Ok in Hrun as (h1 & b1 & b2 & h2 & h3 & Hnw & Hget & Hr1 & Hr2).
  pose proof (recalculate_indices_tokens _ _ _ _ Hr1) as E1.
  pose proof (recalculate_indices_tokens _ _ _ _ Hr2) as E2.
  rewrite E1, E2.
  apply reconstructor_Ok in Hget as (h4 & Hloop & Hann).
  destruct (scorer_values _ _ _ _ _ _ _ Hnw) as [L1 V1].
  pose proof Hnw as (s1 & s2 & Ls1 & Ls2 & _ & _ & Hscored & Hext1)%scorer_shapes.
  apply scored_walkable in Hscored. rewrite Ls1, Ls2 in Hscored.
  assert (plain h1 (tokens text1 ++ tokens text2)) as Hplain1.
  { intros r Hr. destruct (Hplain r Hr) as (t & Ht & Hc).
    eexists. split; [by apply V1|]. by case_decide. }
  pose proof (stable_traceback_loop _ _ _ _ _ _ _ _ _ _ _ _ Hloop) as Hext4.
  apply traceback_loop_woven in Hloop as (Hk4 & new1 & new2 & Hn1 & Hn2 & Hw);
    [|done..].
  simpl in Hn1, Hn2. rewrite app_nil_r in Hn1, Hn2. subst new1 new2.
  rewrite !firstn_all in Hw.
  exists h1, h4, h2. split_and!; try done.
  - rewrite (recalculate_indices_unindexed _ _ _ _ Hr2).
    by rewrite (recalculate_indices_unindexed _ _ _ _ Hr1).
  - etrans; by eapply stable_recalculate_indices.
  - pose proof (stable_recalculate_indices _ _ _ _ Hr2) as Hext.
    unfold recalculate_indices in Hr1.
    apply mbind_Ok in Hr1 as ([] & ha & _ & Hr1).
    apply mbind_Ok in Hr1 as (s & hb & Hs & [<- <-]%mret_Ok). simpl.
    pose proof Hs as [-> ->]%to_string_texts. simpl. f_equal. f_equal.
    symmetry. apply texts_extends; [done|].
    intros r Hr. unfold to_string in Hs.
    apply mbind_Ok in Hs as (ts & hc & Hts & _).
    clear -Hts Hr. revert ts hc Hts. induction (tokens b1) as [|r0 rs IH];
      intros ts hc Hts; [by apply elem_of_nil in Hr|].
    simpl in Hts. apply mbind_Ok in Hts as (t & hd & [Ht ->]%load_Ok & Hts).
    apply mbind_Ok in Hts as (ts' & he & Hts' & _).
    apply elem_of_cons in Hr as [->|Hr]; [by eexists|]. by eapply IH.
  - unfold recalculate_indices in Hr2.
    apply mbind_Ok in Hr2 as ([] & ha & _ & Hr2).
    apply mbind_Ok in Hr2 as (s & hb & Hs & [<- <-]%mret_Ok). simpl.
    by pose proof Hs as [-> ->]%to_string_texts.
Qed.

Lemma align_sentences_texts text1 text2 h a h' :
  align_sentences text1 text2 h = Ok (a, h') →
  plain h (tokens text1 ++ tokens text2) →
  ∃ s1 s2,
    to_string text1 h = Ok (s1, h) ∧ to_string text2 h = Ok (s2, h) ∧
    to_string (s1_aligned a) h' = Ok (s1, h') ∧
    to_string (s2_aligned a) h' = Ok (s2, h') ∧
    _text (s1_aligned a) = Some s1 ∧ _text (s2_aligned a) = Some s2.
Proof.
  intros Hrun Hplain.
  destruct (align_sentences_weave _ _ _ _ _ Hrun Hplain)
    as (h1 & h4 & h2 & V1 & L1 & Hext1 & Hk4 & Hext4 & Hw & Hann & Hu & Hext2 & T1 & T2).
  pose proof (stable_annotate_pairs _ _ _ _ Hann) as Hext3.
  assert (extends h4 h') as Hext5 by (by etrans).
  assert (extends h h4) as Hext6 by (by etrans).
  assert (∀ r, r ∈ tokens text1 ++ tokens text2 → is_Some (h !! r)) as Hres
    by (by apply plain_resolved).
  assert (∀ r, r ∈ tokens text1 ++ tokens text2 → is_Some (h4 !! r)) as Hres4.
  { intros r Hr. destruct (Hres r Hr) as [t Ht].
    destruct (extends_lookup _ _ _ _ Hext6 Ht) as (t' & Ht' & _). eauto. }
  pose proof (woven_resolved _ _ _ _ _ _ Hw Hres4) as Hout4.
  destruct (woven_texts _ _ _ _ _ _ Hw) as [W1 W2].
  assert (∀ rs : list nat, (∀ r, r ∈ rs → r ∈ tokens text1 ++ tokens text2) →
    PyStr.join (texts h4 rs) = PyStr.join (texts h rs)) as Hin.
  { intros rs Hrs. f_equal. apply texts_extends; [done|]. intros r Hr.
    by apply Hres, Hrs. }
  assert (∀ rs : list nat, (∀ r, r ∈ rs → r ∈ tokens (s1_aligned a) ++ tokens (s2_aligned a)) →
    PyStr.join (texts h' rs) = PyStr.join (texts h4 rs)) as Hout.
  { intros rs Hrs. f_equal. apply texts_extends; [done|]. intros r Hr.
    by apply Hout4, Hrs. }
  assert (∀ rs : list nat, (∀ r, r ∈ rs → r ∈ tokens (s1_aligned a) ++ tokens (s2_aligned a)) →
    ∀ r, r ∈ rs → is_Some (h' !! r)) as Hres'.
  { intros rs Hrs r Hr. destruct (Hout4 r (Hrs r Hr)) as [t Ht].
    destruct (extends_lookup _ _ _ _ Hext5 Ht) as (t' & Ht' & _). eauto. }
  exists (PyStr.join (texts h (tokens text1))), (PyStr.join (texts h (tokens text2))).
  assert (∀ r, r ∈ tokens text1 → r ∈ tokens text1 ++ tokens text2) as I1
    by (intros; apply elem_of_app; by left).
  assert (∀ r, r ∈ tokens text2 → r ∈ tokens text1 ++ tokens text2) as I2
    by (intros; apply elem_of_app; by right).
  assert (∀ r, r ∈ tokens (s1_aligned a) →
    r ∈ tokens (s1_aligned a) ++ tokens (s2_aligned a)) as O1
    by (intros; apply elem_of_app; by left).
  assert (∀ r, r ∈ tokens (s2_aligned a) →
    r ∈ tokens (s1_aligned a) ++ tokens (s2_aligned a)) as O2
    by (intros; apply elem_of_app; by right).
  rewrite <- (Hin _ I1), <- (Hin _ I2), <- W1, <- W2.
  rewrite <- (Hout _ O1), <- (Hout _ O2).
  split_and!; try done.
  - rewrite (Hout _ O1), W1, (Hin _ I1). apply to_string_defined.
    intros r Hr. by apply Hres, I1.
  - rewrite (Hout _ O2), W2, (Hin _ I2). apply to_string_defined.
    intros r Hr. by apply Hres, I2.
  - apply to_string_defined. by apply Hres'.
  - apply to_string_defined. by apply Hres'.
Qed.



Lemma resolved_Forall2 (h : list Token) rs :
  (∀ r, r ∈ rs → is_Some (h !! r)) →
  ∃ ts, Forall2 (λ r t, h !! r = Some t) rs ts.
Proof.
  induction rs as [|r rs IH]; intros Hres.
  { exists []. constructor. }
  destruct (Hres r) as [t Ht]; [apply list_elem_of_here|].
  destruct IH as [ts Hts].
  { intros r' Hr'. by apply Hres, list_elem_of_further. }
  exists (t :: ts). by constructor.
Qed.

(** The width of the two padded texts at one position. *)
Lemma aligned_pair_width text1 text2 h a h' k r1 r2 t1 t2 :
  align_sentences text1 text2 h = Ok (a, h') →
  plain h (tokens text1 ++ tokens text2) →
  NoDup (tokens text1 ++ tokens text2) →
  tokens (s1_aligned a) !! k = Some r1 → tokens (s2_aligned a) !! k = Some r2 →
  h' !! r1 = Some t1 → h' !! r2 = Some t2 →
  PyStr.len (token_text_aligned t1) = Nat.max (token_len t1) (token_len t2) ∧
  PyStr.len (token_text_aligned t2) = Nat.max (token_len t1) (token_len t2).
Proof.
  intros Hrun Hplain Hnd Hk1 Hk2 Ht1 Ht2.
  destruct (align_sentences_weave _ _ _ _ _ Hrun Hplain)
    as (h1 & h4 & h2 & V1 & L1 & Hext1 & Hk4 & Hext4 & Hw & Hann & Hu & _).
  set (out1 := tokens (s1_aligned a)) in *. set (out2 := tokens (s2_aligned a)) in *.
  destruct (woven_NoDup _ _ _ _ _ _ Hw) as [Hnd' _]; [|done|].
  { intros r Hr. rewrite L1. by eapply plain_below. }
  apply NoDup_app in Hnd' as (Hnd1 & Hdisj & Hnd2).
  destruct (annotate_pairs_at _ _ _ k r1 r2 Hann) as (w1 & w2 & Hw1 & Hw2 & Hfin).
  { by apply lookup_zip_Some. }
  { intros k' q1 q2 [Hq1 Hq2]%lookup_zip_Some Hne. split_and!.
    - intros ->. apply Hne. by apply (NoDup_lookup out1 k' k r1).
    - intros ->. apply (Hdisj r2); by eapply list_elem_of_lookup_2.
    - intros ->. apply (Hdisj r1); by eapply list_elem_of_lookup_2.
    - intros ->. apply Hne. by apply (NoDup_lookup out2 k' k r2). }
  assert (∀ r u t, h2 !! r = Some u → h' !! r = Some t →
    token_text_aligned t = token_text_aligned u ∧ token_len t = token_len u) as Hlast.
  { intros r u t Hu2 Ht.
    destruct (unindexed_lookup _ _ _ _ Hu Hu2) as (t' & Ht' & Hut).
    assert (t' = t) as -> by congruence. split.
    - by apply token_text_aligned_unindexed.
    - apply unindexed_fields in Hut as (Htext & _). unfold token_len. by rewrite Htext. }
  assert (∀ r w, r ∈ tokens text1 ++ tokens text2 → h4 !! r = Some w →
    aligned w = false) as Hclear.
  { intros r w Hr Hw4. destruct (Hplain r Hr) as (t & Ht & _).
    specialize (V1 r t Ht). rewrite decide_True in V1 by done.
    destruct (keeps_lookup _ _ _ _ Hk4 V1) as (w' & Hw' & Huw).
    assert (w' = w) as -> by congruence.
    by apply unindexed_fields in Huw as (_ & -> & _). }
  destruct (decide (text w1 = text w2)) as [Hsame|Hdiff].
  - destruct Hfin as [Hu1 Hu2].
    destruct (Hlast _ _ _ Hu1 Ht1) as [-> ->].
    destruct (Hlast _ _ _ Hu2 Ht2) as [-> ->].
    assert (token_len w1 = token_len w2) as Hlen by (unfold token_len; by rewrite Hsame).
    destruct (woven_pairs _ _ _ _ _ _ k r1 r2 Hw Hk1 Hk2)
      as [[Hi1 Hi2]|[[Hi1 Hp]|[Hi2 Hp]]].
    + rewrite !unpadded_width; [lia| |].
      * eapply Hclear; [|done]. apply elem_of_app. by right.
      * eapply Hclear; [|done]. apply elem_of_app. by left.
    + destruct Hp as (t & w & Ht & Hw' & _ & Htext & Hal & Hsp).
      assert (t = w2) as -> by congruence. assert (w = w1) as -> by congruence.
      assert (token_len w1 = 0) as Hz.
      { unfold token_len. by rewrite Hsame, Htext. }
      rewrite (unpadded_width w1).
      2:{ eapply Hclear; [|done]. apply elem_of_app. by left. }
      unfold token_text_aligned at 1. rewrite Hal, len_app, len_str_mul, Hsp.
      unfold token_len in *. lia.
    + destruct Hp as (t & w & Ht & Hw' & _ & Htext & Hal & Hsp).
      assert (t = w1) as -> by congruence. assert (w = w2) as -> by congruence.
      assert (token_len w2 = 0) as Hz.
      { unfold token_len. by rewrite <- Hsame, Htext. }
      rewrite (unpadded_width w2).
      2:{ eapply Hclear; [|done]. apply elem_of_app. by right. }
      unfold token_text_aligned at 1. rewrite Hal, len_app, len_str_mul, Hsp.
      unfold token_len in *. lia.
  - destruct Hfin as [Hu1 Hu2].
    destruct (Hlast _ _ _ Hu1 Ht1) as [-> ->].
    destruct (Hlast _ _ _ Hu2 Ht2) as [-> ->].
    rewrite !padded_width by lia. done.
Qed.

Lemma align_sentences_widths text1 text2 h a h' :
  align_sentences text1 text2 h = Ok (a, h') →
  plain h (tokens text1 ++ tokens text2) →
  NoDup (tokens text1 ++ tokens text2) →
  (∀ k r1 r2 t1 t2,
     tokens (s1_aligned a) !! k = Some r1 → tokens (s2_aligned a) !! k = Some r2 →
     h' !! r1 = Some t1 → h' !! r2 = Some t2 →
     PyStr.len (token_text_aligned t1) = Nat.max (token_len t1) (token_len t2) ∧
     PyStr.len (token_text_aligned t2) = Nat.max (token_len t1) (token_len t2)) ∧
  ∃ x1 x2,
    text_aligned (s1_aligned a) h' = Ok (x1, h') ∧
    text_aligned (s2_aligned a) h' = Ok (x2, h') ∧
    PyStr.len x1 = PyStr.len x2.
Proof.
  intros Hrun Hplain Hnd.
  assert (∀ k r1 r2 t1 t2,
     tokens (s1_aligned a) !! k = Some r1 → tokens (s2_aligned a) !! k = Some r2 →
     h' !! r1 = Some t1 → h' !! r2 = Some t2 →
     PyStr.len (token_text_aligned t1) = Nat.max (token_len t1) (token_len t2) ∧
     PyStr.len (token_text_aligned t2) = Nat.max (token_len t1) (token_len t2))
    as Hpairs by (intros; by eapply aligned_pair_width).
  split; [done|].
  destruct (align_sentences_weave _ _ _ _ _ Hrun Hplain)
    as (h1 & h4 & h2 & V1 & L1 & Hext1 & Hk4 & Hext4 & Hw & Hann & Hu & Hext2 & _).
  pose proof (stable_annotate_pairs _ _ _ _ Hann) as Hext3.
  assert (∀ r, r ∈ tokens (s1_aligned a) ++ tokens (s2_aligned a) →
    is_Some (h' !! r)) as Hres.
  { intros r Hr.
    destruct (woven_resolved _ _ _ _ _ _ Hw) with (r := r) as [t Ht]; [|done|].
    { intros r' Hr'. destruct (Hplain r' Hr') as (t' & Ht' & _).
      destruct (extends_lookup h h4 r' t') as (t'' & Ht'' & _); [by etrans|done|].
      eauto. }
    destruct (extends_lookup h4 h' r t) as (t' & Ht' & _); [by etrans|done|].
    eauto. }
  destruct (resolved_Forall2 h' (tokens (s1_aligned a))) as [ts1 F1].
  { intros r Hr. apply Hres, elem_of_app. by left. }
  destruct (resolved_Forall2 h' (tokens (s2_aligned a))) as [ts2 F2].
  { intros r Hr. apply Hres, elem_of_app. by right. }
  exists (PyStr.join (token_text_aligned <$> ts1)),
    (PyStr.join (token_text_aligned <$> ts2)).
  split_and!.
  - unfold text_aligned. apply mbind_Ok. exists ts1, h'.
    split; [by apply load_all_Ok|done].
  - unfold text_aligned. apply mbind_Ok. exists ts2, h'.
    split; [by apply load_all_Ok|done].
  - rewrite !len_join. f_equal. rewrite <- !list_fmap_compose.
    pose proof (woven_length _ _ _ _ _ _ Hw) as Hlen.
    pose proof (Forall2_length _ _ _ F1) as Hl1.
    pose proof (Forall2_length _ _ _ F2) as Hl2.
    apply list_eq. intros k. rewrite !list_lookup_fmap.
    destruct (ts1 !! k) as [t1|] eqn:E1, (ts2 !! k) as [t2|] eqn:E2; simpl.
    + destruct (Forall2_lookup_r _ _ _ _ _ F1 E1) as (r1 & Hr1 & Ht1).
      destruct (Forall2_lookup_r _ _ _ _ _ F2 E2) as (r2 & Hr2 & Ht2).
      destruct (Hpairs k r1 r2 t1 t2) as [-> ->]; done.
    + apply lookup_lt_Some in E1. apply lookup_ge_None in E2. lia.
    + apply lookup_lt_Some in E2. apply lookup_ge_None in E1. lia.
    + done.
Qed.


Lemma example_plain :
  plain example_heap (tokens example_text1 ++ tokens example_text2).
Proof.
  intros r Hr. simpl in Hr.
  repeat (apply elem_of_cons in Hr as [->|Hr]; [eexists; split; [reflexivity|done]|]).
  by apply elem_of_nil in Hr.
Qed.



(** ** Token.start and reconstruct_text_with_rules *)

Lemma no_space_token_needed t : no_space_token t = no_space_needed t.
Proof.
  unfold no_space_token, no_space_needed.
  by destruct (isinstance t KWhitespace), (isinstance t KSpacer),
    (isinstance t KPunctuation).
Qed.

Lemma chars_inj a b : PyStr.chars a = PyStr.chars b → a = b.
Proof.
  unfold PyStr.chars. intros H.
  rewrite <- (String.string_of_list_ascii_of_string a),
    <- (String.string_of_list_ascii_of_string b). by rewrite H.
Qed.

(** The separator [reconstruct_text_with_rules] puts after a token is as
    long as the offset [recalculate_indices] adds. *)
Lemma reconstruct_cons t rest :
  PyStr.chars (reconstruct_text_with_rules (t :: rest)) =
  PyStr.chars (text t)
  ++ replicate (match rest with
                | [] => 0
                | next_token :: _ => if no_space_needed next_token then 0 else 1
                end) " "%char
  ++ PyStr.chars (reconstruct_text_with_rules rest).
Proof.
  cbn [reconstruct_text_with_rules]. rewrite !chars_app. f_equal. f_equal.
  destruct rest as [|next rest]; [done|]. rewrite no_space_token_needed.
  by destruct (no_space_needed next).
Qed.

Lemma start_offsets_span ts s0 k u s :
  ts !! k = Some u → start_offsets ts s0 !! k = Some s →
  s0 ≤ s ∧
  s - s0 + token_len u ≤ PyStr.len (reconstruct_text_with_rules ts) ∧
  take (token_len u) (drop (s - s0) (PyStr.chars (reconstruct_text_with_rules ts)))
    = PyStr.chars (text u).
Proof.
  revert s0 k. induction ts as [|t rest IH]; intros s0 k; [done|].
  rewrite (len_chars (reconstruct_text_with_rules (t :: rest))), reconstruct_cons.
  rewrite !length_app, length_replicate, <- !len_chars.
  destruct k as [|k]; cbn [start_offsets]; simpl.
  - intros [= ->] [= <-]. split; [done|]. rewrite Nat.sub_diag, drop_0.
    unfold token_len. split; [lia|]. rewrite len_chars. apply take_app_length.
  - intros Hk Hs. destruct (IH _ _ Hk Hs) as (Hle & Hfit & Htake).
    set (off := match rest with
                | [] => 0
                | next_token :: _ => if no_space_needed next_token then 0 else 1
                end) in *.
    unfold token_len in *. split; [lia|]. split; [lia|].
    rewrite app_assoc, drop_app_ge; rewrite length_app, <- len_chars, length_replicate;
      [|lia].
    rewrite <- Htake. do 2 f_equal. lia.
Qed.

Lemma slice_chars s a k :
  a + k ≤ PyStr.len s →
  PyStr.chars (PyStr.slice s (Z.of_nat a) (Z.of_nat a + Z.of_nat k)) =
  take k (drop a (PyStr.chars s)).
Proof.
  intros Hle. unfold PyStr.slice, PyStr.clamp.
  destruct (Z.ltb_spec (Z.of_nat a) 0) as [|_]; [lia|].
  destruct (Z.ltb_spec (Z.of_nat a + Z.of_nat k) 0) as [|_]; [lia|].
  rewrite chars_substring. unfold PyStr.len in Hle. f_equal; [|f_equal]; lia.
Qed.

Lemma NoDup_last (rs : list nat) k r :
  NoDup rs → rs !! k = Some r → r ∉ drop (S k) rs.
Proof.
  intros Hnd Hk [j Hj]%list_elem_of_lookup_1. rewrite lookup_drop in Hj.
  pose proof (NoDup_lookup _ _ _ _ Hnd Hk Hj). lia.
Qed.

(** After [recalculate_indices] on a sequence of distinct token objects, the
    span [pos] of every token, from [start] to [start + len(token)], is where
    its text stands in [reconstruct_text_with_rules] of the tokens. *)
Theorem start_is_offset_in_reconstructed_text t h t' h' ts :
  recalculate_indices t h = Ok (t', h') →
  NoDup (tokens t) →
  Forall2 (λ r u, h' !! r = Some u) (tokens t) ts →
  ∀ k u, ts !! k = Some u →
    ∃ s, start u = Some (Z.of_nat s) ∧ index u = Some (Z.of_nat k) ∧
      PyStr.slice (reconstruct_text_with_rules ts)
        (Z.of_nat s) (Z.of_nat s + Z.of_nat (token_len u)) = text u.
Proof.
  intros Hrun%recalculate_indices_loop Hnd Hts k u Hk.
  destruct (Forall2_lookup_r _ _ _ _ _ Hts Hk) as (r & Hr & Hu).
  destruct (recalculate_loop_values _ 0 0 _ _ _ Hrun Hts k r Hr) as (u' & Hu' & Hi & Hs).
  { by apply NoDup_last. }
  assert (u' = u) as -> by congruence.
  destruct (start_offsets ts 0 !! k) as [s|] eqn:Hoff.
  2:{ apply lookup_ge_None in Hoff. apply lookup_lt_Some in Hk.
      assert (length (start_offsets ts 0) = length ts) as Hlen; [|exfalso; lia].
      clear. generalize 0. induction ts as [|x ts IH]; intros s; [done|].
      simpl. by rewrite IH. }
  exists s. split; [done|]. split; [done|].
  destruct (start_offsets_span _ _ _ _ _ Hk Hoff) as (_ & Hfit & Htake).
  rewrite Nat.sub_0_r in Htake, Hfit. apply chars_inj.
  by rewrite slice_chars.
Qed.

Lemma start_is_offset_in_reconstructed_text_witness :
  ∃ t' h' ts u,
    recalculate_indices example_text2 example_heap = Ok (t', h') ∧
    Forall2 (λ r u, h' !! r = Some u) (tokens example_text2) ts ∧
    ts !! 2 = Some u ∧ text u = "cat" ∧
    reconstruct_text_with_rules ts = "the big cat" ∧
    start u = Some 8%Z ∧
    PyStr.slice (reconstruct_text_with_rules ts) 8 (8 + Z.of_nat (token_len u)) = "cat".
Proof.
  destruct (recalculate_indices example_text2 example_heap) as [[t' h']|e] eqn:Hrun;
    [|by vm_compute in Hrun].
  assert (NoDup (tokens example_text2)) as Hnd.
  { simpl. repeat constructor; rewrite ?elem_of_cons, ?elem_of_nil; lia. }
  destruct (recalculate_loop_resolved _ _ _ _ _ (recalculate_indices_loop _ _ _ _ Hrun))
    as [ts Hts].
  pose proof Hts as Hts'.
  apply Forall2_cons_inv_l in Hts' as (u2 & ts2 & H2 & Hts' & ->).
  apply Forall2_cons_inv_l in Hts' as (u3 & ts3 & H3 & Hts' & ->).
  apply Forall2_cons_inv_l in Hts' as (u4 & ts4 & H4 & Hts' & ->).
  apply Forall2_nil_inv_l in Hts' as ->.
  destruct (start_is_offset_in_reconstructed_text example_text2 example_heap t' h'
    [u2; u3; u4] Hrun Hnd Hts 2 u4 eq_refl) as (s & Hs & _ & Hslice).
  pose proof Hrun as Hval. vm_compute in Hval. injection Hval as _ <-.
  vm_compute in H2, H3, H4.
  injection H2 as <-. injection H3 as <-. injection H4 as <-.
  eexists _, _, _, _. split; [reflexivity|]. split; [exact Hts|].
  split; [done|]. split; [done|]. split; [done|].
  injection Hs as Hs. assert (s = 8) as -> by lia. split; [done|]. exact Hslice.
Defined.

(** ** Text.insert_char *)

Lemma at_position_Some toks pos h r h' :
  at_position toks pos h = Ok (Some r, h') →
  h' = h ∧ r ∈ toks ∧
  ∃ w s, h !! r = Some w ∧ start w = Some s ∧
    (s ≤ pos ≤ s + Z.of_nat (token_len w))%Z.
Proof.
  induction toks as [|r0 rest IH]; simpl.
  { by intros [[=] _]%mret_Ok. }
  intros (w & h1 & [Hw ->]%load_Ok & Hrun)%mbind_Ok.
  apply mbind_Ok in Hrun as (s & h1 & [Hs%of_option_Ok ->]%lift_Ok & Hrun).
  destruct ((s <=? pos)%Z && (pos <=? s + Z.of_nat (token_len w))%Z) eqn:Hin.
  - apply mret_Ok in Hrun as [[= <-] <-]. split; [done|].
    split; [apply list_elem_of_here|]. exists w, s.
    apply andb_true_iff in Hin as [?%Z.leb_le ?%Z.leb_le]. done.
  - destruct (IH Hrun) as (-> & Hr & Hrest). split; [done|].
    split; [by apply list_elem_of_further|done].
Qed.

Lemma slice_prefix s k :
  k ≤ PyStr.len s → PyStr.chars (PyStr.slice s 0 (Z.of_nat k)) = take k (PyStr.chars s).
Proof.
  intros Hk. change 0%Z with (Z.of_nat 0).
  replace (Z.of_nat k) with (Z.of_nat 0 + Z.of_nat k)%Z by lia.
  by rewrite slice_chars.
Qed.

Lemma slice_suffix s k :
  k ≤ PyStr.len s →
  PyStr.chars (PyStr.slice s (Z.of_nat k) (Z.of_nat (PyStr.len s))) = drop k (PyStr.chars s).
Proof.
  intros Hk.
  replace (Z.of_nat (PyStr.len s)) with (Z.of_nat k + Z.of_nat (PyStr.len s - k))%Z by lia.
  rewrite slice_chars by lia. apply take_ge. rewrite length_drop, <- len_chars. lia.
Qed.

(** One execution of the assignment. *)
Lemma insert_in_token_Ok r index char h w s :
  h !! r = Some w → start w = Some s →
  (s ≤ index ≤ s + Z.of_nat (token_len w))%Z →
  ∃ w', insert_in_token r index char h = Ok (tt, <[r := w']> h) ∧
    start w' = Some s ∧
    PyStr.chars (text w') =
      take (Z.to_nat (index - s)) (PyStr.chars (text w)) ++ PyStr.chars char
      ++ drop (Z.to_nat (index - s)) (PyStr.chars (text w)).
Proof.
  intros Hw Hs Hin. unfold token_len in Hin.
  eexists. split.
  - unfold insert_in_token. apply mbind_Ok. exists w, h. split; [by apply load_Ok|].
    apply mbind_Ok. exists s, h. split; [apply lift_Ok; by rewrite Hs|].
    cbv zeta. apply update_Ok. exists w. done.
  - split; [done|]. simpl. rewrite !chars_app.
    replace (index - s)%Z with (Z.of_nat (Z.to_nat (index - s))) by lia.
    rewrite Nat2Z.id, slice_prefix, slice_suffix by lia. done.
Qed.

(** When a token holds position [index], [insert_char] returns and has put
    [char] into the text of that token twice, at offset [index - start]; the
    token list is the same. *)
Theorem insert_char_inserts_twice t h index char r :
  valid h (tokens t) →
  at_position (tokens t) index h = Ok (Some r, h) →
  ∃ w s t' h' w',
    h !! r = Some w ∧ start w = Some s ∧
    (s ≤ index ≤ s + Z.of_nat (token_len w))%Z ∧
    insert_char t index char h = Ok (t', h') ∧ tokens t' = tokens t ∧
    h' !! r = Some w' ∧
    PyStr.chars (text w') =
      take (Z.to_nat (index - s)) (PyStr.chars (text w))
      ++ PyStr.chars char ++ PyStr.chars char
      ++ drop (Z.to_nat (index - s)) (PyStr.chars (text w)).
Proof.
  intros Hv Hat.
  pose proof Hat as (_ & Hr & w & s & Hw & Hs & Hin)%at_position_Some.
  exists w, s.
  destruct (insert_in_token_Ok r index char h w s Hw Hs Hin) as (w1 & Hrun1 & Hs1 & Ht1).
  pose proof (lookup_lt_Some _ _ _ Hw) as Hlt.
  assert (<[r := w1]> h !! r = Some w1) as Hw1 by (by apply list_lookup_insert_eq).
  assert (token_len w ≤ token_len w1) as Hgrow.
  { unfold token_len. rewrite !len_chars, Ht1, !length_app, length_take, length_drop.
    lia. }
  destruct (insert_in_token_Ok r index char (<[r := w1]> h) w1 s Hw1 Hs1)
    as (w2 & Hrun2 & Hs2 & Ht2); [lia|].
  rewrite list_insert_insert_eq in Hrun2.
  destruct (recalculate_indices_valid (<[r := w2]> h) t) as (t' & h' & Hrec & Hlen).
  { unfold valid in *. by rewrite length_insert. }
  exists t', h'.
  destruct (unindexed_lookup (<[r := w2]> h) h' r w2) as (w' & Hw' & Hu).
  { by eapply recalculate_indices_unindexed. }
  { by apply list_lookup_insert_eq. }
  exists w'. split_and!; try done; try lia.
  - unfold insert_char. apply mbind_Ok. exists (Some r), h. split; [done|].
    apply mbind_Ok. exists tt, (<[r := w1]> h). split; [done|].
    apply mbind_Ok. exists tt, (<[r := w2]> h). split; [done|]. done.
  - by eapply recalculate_indices_tokens.
  - apply unindexed_fields in Hu as (-> & _). rewrite Ht2, Ht1.
    assert (Z.to_nat (index - s) ≤ length (PyStr.chars (text w))) as Hk.
    { rewrite <- len_chars. unfold token_len in Hin. lia. }
    rewrite take_app_le, take_take by (rewrite length_take; lia).
    rewrite (drop_app_ge (take _ _)) by (rewrite length_take; lia).
    rewrite length_take.
    replace (Z.to_nat (index - s)
             - Z.to_nat (index - s) `min` length (PyStr.chars (text w))) with 0 by lia.
    by rewrite drop_0, Nat.min_id.
Qed.

Lemma insert_char_inserts_twice_witness :
  ∃ t' h',
    insert_char example_text1 1 "x"
      [set_index_start 0 0 (create_token "the"); set_index_start 1 4 (create_token "cat")]
      = Ok (t', h') ∧
    (text <$> h' !! 0) = Some "txxhe".
Proof.
  destruct (insert_char_inserts_twice example_text1
    [set_index_start 0 0 (create_token "the"); set_index_start 1 4 (create_token "cat")]
    1 "x" 0) as (w & s & t' & h' & w' & Hw & Hs & _ & Hrun & _ & Hw' & Htext).
  { repeat constructor; simpl; lia. }
  { reflexivity. }
  exists t', h'. split; [exact Hrun|]. rewrite Hw'. simpl. f_equal.
  injection Hw as <-. injection Hs as <-. by apply chars_inj.
Defined.

(** ** The round trip through to_dict and from_dict *)

Lemma Token_nested_ind (P : Token → Prop) :
  (∀ t, (∀ o, original t = Some o → P o) → P t) → ∀ t, P t.
Proof.
  intros H. fix IH 1. intros t. apply H.
  destruct t as [k x i s a sp c b [o|] op]; simpl; intros o' [= <-].
  apply IH.
Qed.

Lemma class_named_name k : class_named (class_name k) = Some k.
Proof. by destruct k. Qed.

(** No colour that is set comes back: the table maps one-letter keys to
    escape codes, and [from_dict] looks the stored code up as a key. *)
Lemma color_not_restored c : COLOR_MAPPING (py_lower c) ≠ Some c.
Proof.
  unfold COLOR_MAPPING.
  repeat match goal with
         | |- context [String.eqb (py_lower c) ?k] =>
             destruct (String.eqb (py_lower c) k) eqn:?;
               [intros [= <-]; by vm_compute in *|]
         end.
  done.
Qed.

Lemma token_to_dict_eq tok :
  token_to_dict tok =
  {| d_type := class_name (cls tok); d_text := text tok; d_index := index tok;
     d_color := color tok; d_bg := bg tok;
     d_original := match original tok with
                   | Some o' => if (PyStr.len (text o') =? 0)%nat then None
                                else Some (token_to_dict o')
                   | None => None
                   end;
     d_operation := operation tok; d_start := start tok;
     d_aligned := aligned tok; d_alignment_spaces := alignment_spaces tok |}.
Proof. by destruct tok. Qed.

(** What [from_dict] makes of the dictionary of a token. *)
Lemma token_round_trip_fields t :
  ∃ t', token_from_dict (token_to_dict t) = Ok t' ∧
    cls t' = cls t ∧ text t' = text t ∧ index t' = index t ∧
    start t' = start t ∧ aligned t' = aligned t ∧
    alignment_spaces t' = alignment_spaces t ∧ bg t' = bg t ∧
    operation t' = operation t ∧
    color t' = (c ← color t; COLOR_MAPPING (py_lower c)) ∧
    original t' =
      match original t with
      | Some o => if (PyStr.len (text o) =? 0)%nat then None
                  else match token_from_dict (token_to_dict o) with
                       | Ok o' => Some o'
                       | Raise _ => None
                       end
      | None => None
      end.
Proof.
  induction t as [t IH] using Token_nested_ind.
  rewrite token_to_dict_eq. cbn [token_from_dict]. rewrite class_named_name.
  destruct (original t) as [o|] eqn:Ho; [|by eexists].
  destruct (PyStr.len (text o) =? 0)%nat; [by eexists|].
  destruct (IH o eq_refl) as (o' & -> & _). by eexists.
Qed.

(** The round trip of a token through [to_dict] and [from_dict] never
    raises and keeps the class, the text, the position, the flag, the
    padding, the background and the operation; it keeps the colour only when
    none is set, and an original only when its text is not empty. *)
Theorem token_dict_round_trip t :
  ∃ t', token_from_dict (token_to_dict t) = Ok t' ∧
    cls t' = cls t ∧ text t' = text t ∧ index t' = index t ∧
    start t' = start t ∧ aligned t' = aligned t ∧
    alignment_spaces t' = alignment_spaces t ∧ bg t' = bg t ∧
    operation t' = operation t ∧
    (color t' = color t ↔ color t = None) ∧
    (is_Some (original t') ↔ ∃ o, original t = Some o ∧ text o ≠ "").
Proof.
  destruct (token_round_trip_fields t)
    as (t' & Hrun & ? & ? & ? & ? & ? & ? & ? & ? & Hc & Ho).
  exists t'. split_and!; try done.
  - rewrite Hc. destruct (color t) as [c|]; simpl; [|done].
    split; [|done]. intros Heq. by apply color_not_restored in Heq.
  - rewrite Ho. destruct (original t) as [o|]; [|split; [by intros [? ?]|by intros (? & ? & ?)]].
    destruct (token_round_trip_fields o) as (o' & -> & _).
    destruct (Nat.eqb_spec (PyStr.len (text o)) 0) as [Hz|Hnz].
    + split; [by intros [? ?]|]. intros (o0 & [= <-] & Hne).
      destruct (text o); [done|]. simpl in Hz. lia.
    + split; [|by eexists]. intros _. exists o. split; [done|].
      intros Ht. rewrite Ht in Hnz. done.
Qed.

Lemma tokens_from_dicts_round_trip ts :
  ∃ ts', tokens_from_dicts (token_to_dict <$> ts) = Ok ts' ∧
    Forall2 (λ t t', text t' = text t ∧ cls t' = cls t) ts ts'.
Proof.
  induction ts as [|t ts (ts' & Hrun & Hall)].
  { exists []. split; [done|constructor]. }
  rewrite fmap_cons. cbn [tokens_from_dicts].
  destruct (token_round_trip_fields t) as (t' & -> & Hc & Ht & _).
  rewrite Hrun. exists (t' :: ts'). split; [done|]. by constructor.
Qed.

Lemma texts_resolved (h : list Token) rs ts :
  Forall2 (λ r t, h !! r = Some t) rs ts → texts h rs = text <$> ts.
Proof.
  induction 1 as [|r t rs ts Hr _ IH]; [done|].
  unfold texts in *. rewrite !fmap_cons, IH, Hr. done.
Qed.

(** [Text.from_dict] of the dictionary of a text builds a text of new token
    objects that reads the same and caches what it reads; the objects of the
    text that was written out are left as they were. *)
Theorem text_dict_round_trip T h :
  valid h (tokens T) →
  ∃ d T' h' s,
    text_to_dict T h = Ok (d, h) ∧ text_from_dict d h = Ok (T', h') ∧
    tokens T' = seq (length h) (length (tokens T)) ∧
    (∀ r, r < length h → h' !! r = h !! r) ∧
    to_string T h = Ok (s, h) ∧ to_string T' h' = Ok (s, h') ∧
    _text T' = Some s.
Proof.
  intros Hv.
  destruct (load_all_valid h (tokens T) Hv) as [ts Hload].
  pose proof Hload as [_ Hts]%load_all_Ok.
  destruct (tokens_from_dicts_round_trip ts) as (ts' & Hfrom & Hall).
  pose proof (Forall2_length _ _ _ Hts) as L1.
  pose proof (Forall2_length _ _ _ Hall) as L2.
  destruct (recalculate_indices_valid (h ++ ts')
    {| tokens := seq (length h) (length ts'); _text := _text T |})
    as (T' & h' & Hrec & Hlen).
  { apply Forall_forall. intros r [_ Hr]%elem_of_seq. rewrite length_app. lia. }
  pose proof (recalculate_indices_tokens _ _ _ _ Hrec) as Htoks. simpl in Htoks.
  pose proof (recalculate_indices_unindexed _ _ _ _ Hrec) as Hu.
  assert (∀ r, r < length h → h' !! r = h !! r) as Hframe.
  { intros r Hr.
    rewrite (recalculate_loop_frame _ _ _ _ _ r (recalculate_indices_loop _ _ _ _ Hrec)).
    - by apply lookup_app_l.
    - simpl. intros [? _]%elem_of_seq. lia. }
  assert (texts h' (tokens T') = texts h (tokens T)) as Htexts.
  { rewrite (texts_resolved h _ ts Hts), Htoks.
    apply list_eq. intros k. unfold texts. rewrite !list_lookup_fmap.
    destruct (decide (k < length ts')) as [Hk|Hk].
    - rewrite lookup_seq_lt by done. simpl.
      destruct (lookup_lt_is_Some_2 ts' k Hk) as [t' Ht'].
      destruct (Forall2_lookup_r _ _ _ _ _ Hall Ht') as (t & Ht & Htext & _).
      destruct (unindexed_lookup (h ++ ts') h' (length h + k) t') as (u & Hu' & Huu);
        [done|by rewrite lookup_allocated|].
      rewrite Hu', Ht. simpl. apply unindexed_fields in Huu as (-> & _).
      by rewrite Htext.
    - rewrite lookup_seq_ge by lia. rewrite (lookup_ge_None_2 ts) by lia. done. }
  eexists _, T', h', (PyStr.join (texts h (tokens T))). split_and!.
  - unfold text_to_dict. apply mbind_Ok. exists ts, h. split; [done|]. done.
  - unfold text_from_dict. apply mbind_Ok. eexists _, h. split; [apply Text_new_Ok|].
    apply mbind_Ok. exists ts', h. split; [apply lift_Ok; by simpl|].
    apply mbind_Ok. eexists _, _. split; [apply alloc_all_Ok|]. exact Hrec.
  - rewrite Htoks. f_equal. lia.
  - done.
  - apply to_string_defined. intros r Hr. apply lookup_lt_is_Some.
    unfold valid in Hv. rewrite Forall_forall in Hv. by apply Hv.
  - rewrite <- Htexts. apply to_string_defined. intros r Hr.
    apply lookup_lt_is_Some. rewrite Htoks in Hr. apply elem_of_seq in Hr.
    rewrite Hlen, length_app. lia.
  - unfold recalculate_indices in Hrec.
    apply mbind_Ok in Hrec as ([] & ha & _ & Hrec).
    apply mbind_Ok in Hrec as (s & hb & Hs & [<- <-]%mret_Ok). simpl.
    pose proof Hs as [-> ->]%to_string_texts. simpl. simpl in Htexts.
    by rewrite Htexts.
Qed.

Lemma text_dict_round_trip_witness :
  ∃ d T' h',
    text_to_dict example_text2 example_heap = Ok (d, example_heap) ∧
    text_from_dict d example_heap = Ok (T', h') ∧
    tokens T' = [5; 6; 7] ∧
    to_string T' h' = Ok ("thebigcat", h') ∧
    to_string example_text2 example_heap = Ok ("thebigcat", example_heap).
Proof.
  destruct (text_dict_round_trip example_text2 example_heap)
    as (d & T' & h' & s & H1 & H2 & H3 & _ & H5 & H6 & _).
  { repeat constructor; simpl; lia. }
  exists d, T', h'. vm_compute in H5. injection H5 as <-.
  split; [exact H1|]. split; [exact H2|]. split; [exact H3|].
  split; [exact H6|]. by vm_compute.
Defined.

(** ** The tokenizer on units that are not in the text *)

Lemma starts_with_true sub l :
  PyStr.starts_with sub l = true → ∃ rest, l = sub ++ rest.
Proof.
  revert l. induction sub as [|a sub IH]; intros l; simpl.
  { intros _. by exists l. }
  destruct l as [|b l]; [done|].
  destruct (Ascii.eqb_spec a b) as [->|]; [|done].
  intros [rest ->]%IH. by exists rest.
Qed.

Lemma find_from_Some sub l k :
  PyStr.find_from sub l = Some k → ∃ a b, l = a ++ sub ++ b.
Proof.
  revert k. induction l as [|c l IH]; intros k; simpl.
  - destruct (PyStr.starts_with sub []) eqn:Hs; [|done].
    apply starts_with_true in Hs as [rest ->]. intros _. by exists [], rest.
  - destruct (PyStr.starts_with sub (c :: l)) eqn:Hs.
    + apply starts_with_true in Hs as [rest ->]. intros _. by exists [], rest.
    + destruct (PyStr.find_from sub l) as [k'|]; [|done].
      destruct (IH k' eq_refl) as (a & b & ->). intros _. by exists (c :: a), b.
Qed.

Lemma find_Some s sub i k : PyStr.find s sub i = Some k → occurs_in sub s.
Proof.
  unfold PyStr.find. destruct (String.length s <? i)%nat; [done|].
  destruct (PyStr.find_from _ _) as [k'|] eqn:Hf; [|done].
  apply find_from_Some in Hf as (a & b & Hd). intros _.
  exists (take i (PyStr.chars s) ++ a), b.
  by rewrite <- (take_drop i (PyStr.chars s)) at 1; rewrite Hd, <- app_assoc.
Qed.

Lemma whitespace_loop_foreign text units i acc u :
  u ∈ units → ¬ occurs_in u text →
  whitespace_loop text units i acc = Raise ValueError.
Proof.
  intros Hu Hno. revert i acc. induction units as [|v units IH]; intros i acc.
  { by apply elem_of_nil in Hu. }
  cbn [whitespace_loop].
  destruct (PyStr.find text v i) as [k|] eqn:Hf; [|done].
  apply elem_of_cons in Hu as [->|Hu].
  - by apply find_Some in Hf.
  - by apply IH.
Qed.

(** When the word tokenizer returns a unit that does not occur in the text
    (as a tokenizer that rewrites quotation marks does), building the text
    raises [ValueError] and nothing is built. *)
Theorem tokenizer_raises_on_foreign_unit word_tokenize s u h :
  u ∈ word_tokenize s → ¬ occurs_in u s →
  whitespace_tokenize_from_nltk word_tokenize s = Raise ValueError ∧
  Text_of_string word_tokenize s h = Raise ValueError.
Proof.
  intros Hu Hno.
  assert (whitespace_tokenize_from_nltk word_tokenize s = Raise ValueError) as Hraise.
  { unfold whitespace_tokenize_from_nltk. by eapply whitespace_loop_foreign. }
  split; [done|].
  unfold Text_of_string, from_string. apply mbind_Raise. apply mbind_Raise.
  unfold lift. by rewrite Hraise.
Qed.

(** The text ["a"] in double quotes, and the units a tokenizer that writes
    quotation marks as pairs of backticks and of apostrophes makes of it. *)
Definition quoted_a : string :=
  String (ascii_of_nat 34) (String "a" (String (ascii_of_nat 34) "")).
Definition rewriting_tokenizer (s : string) : list string := ["``"; "a"; "''"].

Lemma tokenizer_raises_on_foreign_unit_witness :
  Text_of_string rewriting_tokenizer quoted_a [] = Raise ValueError.
Proof.
  refine (proj2 (tokenizer_raises_on_foreign_unit rewriting_tokenizer
           quoted_a "``" [] _ _)).
  - apply list_elem_of_here.
  - intros (a & b & Hocc). unfold PyStr.chars in Hocc. cbn in Hocc.
    by destruct a as [|x [|y [|z [|z' a]]]].
Defined.

(** ** Aligning two strings *)

Lemma token_class_spacer t : token_class t = KSpacer → t = "".
Proof.
  unfold token_class. repeat case_match; try done. intros _.
  by apply String.eqb_eq.
Qed.

Lemma whitespace_loop_nonempty text units i acc res :
  whitespace_loop text units i acc = Ok res →
  Forall (λ u, u ≠ "") units → Forall (λ u, u ≠ "") acc →
  Forall (λ u, u ≠ "") res.
Proof.
  revert i acc. induction units as [|u units IH]; intros i acc; cbn [whitespace_loop].
  { by intros [= <-] _ ?. }
  destruct (PyStr.find text u i) as [k|]; [|done].
  intros Hrun [Hu Hunits]%Forall_cons Hacc. eapply IH; [done|done|].
  apply Forall_app. split; [apply Forall_app; split; [done|by constructor]|].
  apply Forall_fmap, Forall_forall. by intros c _.
Qed.

(** [Text(string)], when the tokenizer gives no empty unit, adds its token
    objects at the end of the store, none of them a Spacer, and leaves the
    others alone. *)
Lemma Text_of_string_Ok word_tokenize s h T h' :
  Forall (λ u, u ≠ "") (word_tokenize s) →
  Text_of_string word_tokenize s h = Ok (T, h') →
  ∃ k, tokens T = seq (length h) k ∧ length h' = length h + k ∧
    (∀ r, r < length h → h' !! r = h !! r) ∧
    plain h' (tokens T).
Proof.
  intros Hne. unfold Text_of_string, from_string. intros Hrun.
  apply mbind_Ok in Hrun as (rs & h3 & Hfrom & Hrec2).
  apply mbind_Ok in Hfrom as (units & h0 & [Hunits ->]%lift_Ok & Hfrom).
  apply mbind_Ok in Hfrom as (rs' & h1 & Halloc & Hfrom).
  rewrite alloc_all_Ok in Halloc. injection Halloc as <- <-.
  apply mbind_Ok in Hfrom as (T1 & h2 & Hrec1 & [<- <-]%mret_Ok).
  rewrite length_fmap in *.
  pose proof (recalculate_indices_tokens _ _ _ _ Hrec2) as Htoks. simpl in Htoks.
  pose proof (recalculate_indices_unindexed _ _ _ _ Hrec1) as U1.
  pose proof (recalculate_indices_unindexed _ _ _ _ Hrec2) as U2.
  assert (unindexed <$> h' = unindexed <$> (h ++ (create_token <$> units))) as U
    by (by rewrite U2, U1).
  exists (length units). split; [done|]. split.
  { apply (f_equal length) in U. rewrite !length_fmap, length_app, length_fmap in U.
    done. }
  split.
  - intros r Hr.
    rewrite (recalculate_loop_frame _ _ _ _ _ r (recalculate_indices_loop _ _ _ _ Hrec2)),
      (recalculate_loop_frame _ _ _ _ _ r (recalculate_indices_loop _ _ _ _ Hrec1)).
    + by apply lookup_app_l.
    + simpl. intros [? _]%elem_of_seq. lia.
    + simpl. intros [? _]%elem_of_seq. lia.
  - rewrite Htoks. intros r [Hlo Hhi]%elem_of_seq.
    assert (∃ j, r = length h + j ∧ j < length units) as (j & -> & Hj)
      by (exists (r - length h); lia).
    destruct (lookup_lt_is_Some_2 units j Hj) as [u Hu].
    destruct (unindexed_lookup (h ++ (create_token <$> units)) h' (length h + j)
      (create_token u)) as (t & Ht & Hut); [done| |].
    { rewrite lookup_allocated by (by rewrite length_fmap).
      by rewrite list_lookup_fmap, Hu. }
    exists t. split; [done|]. rewrite (unindexed_cls _ _ Hut). simpl.
    intros ->%token_class_spacer.
    unfold whitespace_tokenize_from_nltk in Hunits.
    eapply whitespace_loop_nonempty in Hunits; [|done|constructor].
    rewrite Forall_forall in Hunits.
    by eapply Hunits; [eapply list_elem_of_lookup_2|].
Qed.


